(** * gedcompy: a shallow embedding of the GEDCOM reader/writer

    The development follows the layout of the Python package:
    - [PyStr]      the string primitives of Python the package relies on
                   ([str.strip], [str.lower], [str.split], [int], [str]);
    - [LineCodec]  [line_format] of [gedcom/__init__.py] and the line
                   formatting of [Element.gedcom_lines];
    - [Tree]       [gedcom/element.py], [gedcom/register.py], the typed
                   views of [gedcom/__init__.py] and [gedcom/individual.py];
    - [Document]   the class [GedcomFile];
    - [Linked]     elements with their [gedcom_file], for the functions
                   that assign or follow this back-reference;
    - [Parser]     the function [__parse], over an explicit object store.

    Strings are sequences of 8-bit characters read as the code points
    0..255; Python integers are unbounded and modelled by [Z]. *)

From Stdlib Require Import ZArith Ascii String List Lia Bool.
From Stdlib Require Import DecimalString DecimalZ DecimalN DecimalPos DecimalFacts.
From stdpp Require Import base option list sorting strings gmap.

Local Open Scope string_scope.
Local Open Scope list_scope.
Local Open Scope Z_scope.

(** ** Exceptions and fallible results *)

Inductive exn : Type :=
| IndexError (key : string)            (* Element.__getitem__ *)
| KeyError (key : option string)       (* GedcomFile.__getitem__ *)
| KeyErrorLevel (key : Z)              (* level_to_obj[level - 1] *)
| TypeError
| ValueError
| AttributeError
| UnboundLocalError
| NotImplementedError (msg : option string)
| Exception (msg : string).

Inductive result (A : Type) : Type :=
| OK (a : A)
| Raise (e : exn).
Arguments OK {A} a.
Arguments Raise {A} e.

Definition rbind {A B} (r : result A) (k : A → result B) : result B :=
  match r with
  | OK a => k a
  | Raise e => Raise e
  end.

Notation "'do' x <- r ; k" := (rbind r (λ x, k))
  (at level 10, x name, r at level 100, k at level 200).
Notation "'do' ' p <- r ; k" := (rbind r (λ x, match x with p => k end))
  (at level 10, p pattern, r at level 100, k at level 200).

Definition is_OK {A} (r : result A) : bool :=
  match r with OK _ => true | Raise _ => false end.

(** [[f(x) for x in l]] where [f] may raise: the first exception wins. *)
Fixpoint rmap {A B} (f : A → result B) (l : list A) : result (list B) :=
  match l with
  | [] => OK []
  | x :: l' => do y <- f x; do ys <- rmap f l'; OK (y :: ys)
  end.

(** [[x for x in l if p(x)]] where [p] may raise. *)
Fixpoint rfilter {A} (p : A → result bool) (l : list A) : result (list A) :=
  match l with
  | [] => OK []
  | x :: l' =>
      do b <- p x; do ys <- rfilter p l'; OK (if b then x :: ys else ys)
  end.

(** ** Python string primitives *)

Module PyStr.

Definition code (c : ascii) : N := N_of_ascii c.

Definition in_range (lo hi : N) (c : ascii) : bool :=
  ((lo <=? code c) && (code c <=? hi))%N.

(** [str.isspace] on the code points below 256. *)
Definition isspace (c : ascii) : bool :=
  in_range 9 13 c || in_range 28 32 c
  || (code c =? 133)%N || (code c =? 160)%N.

Definition is_digit (c : ascii) : bool := in_range 48 57 c.
Definition is_upper (c : ascii) : bool := in_range 65 90 c.
Definition is_lower (c : ascii) : bool := in_range 97 122 c.

Definition newline : ascii := ascii_of_N 10.
Definition is_newline (c : ascii) : bool := (code c =? 10)%N.

Fixpoint lstrip (s : string) : string :=
  match s with
  | String c s' => if isspace c then lstrip s' else s
  | EmptyString => EmptyString
  end.

Fixpoint rstrip (s : string) : string :=
  match s with
  | String c s' =>
      match rstrip s' with
      | EmptyString => if isspace c then EmptyString else String c EmptyString
      | r => String c r
      end
  | EmptyString => EmptyString
  end.

(** [s.strip()] *)
Definition strip (s : string) : string := lstrip (rstrip s).

(** [str.lower] on the code points below 256: A-Z, and the Latin-1
    capitals 192..222 except the multiplication sign 215. *)
Definition lower_char (c : ascii) : ascii :=
  if is_upper c || (in_range 192 222 c && negb (code c =? 215)%N)
  then ascii_of_N (code c + 32) else c.

Definition upper_char (c : ascii) : ascii :=
  if is_lower c || (in_range 224 254 c && negb (code c =? 247)%N)
  then ascii_of_N (code c - 32) else c.

Fixpoint lower (s : string) : string :=
  match s with
  | String c s' => String (lower_char c) (lower s')
  | EmptyString => EmptyString
  end.

(** The code points of a string. *)
Fixpoint codes (s : string) : list N :=
  match s with
  | String c s' => code c :: codes s'
  | EmptyString => []
  end.

(** [str.upper] on the code points below 256. The result can leave that
    range (the micro sign 181 and the y with diaeresis 255) or grow (the
    sharp s 223 becomes SS), so it is given as a sequence of code points. *)
Definition upper_codes (c : ascii) : list N :=
  if is_lower c || (in_range 224 254 c && negb (code c =? 247)%N)
  then [(code c - 32)%N]
  else if (code c =? 181)%N then [924%N]
  else if (code c =? 223)%N then [83%N; 83%N]
  else if (code c =? 255)%N then [376%N]
  else [code c].

Fixpoint upper (s : string) : list N :=
  match s with
  | String c s' => upper_codes c ++ upper s'
  | EmptyString => []
  end.

(** Longest prefix of characters satisfying [p], and the rest. *)
Fixpoint span (p : ascii → bool) (s : string) : string * string :=
  match s with
  | String c s' =>
      if p c then let '(a, b) := span p s' in (String c a, b)
      else (EmptyString, s)
  | EmptyString => (EmptyString, EmptyString)
  end.

(** [s.split(sep)] for a one-character separator. *)
Fixpoint split (sep : ascii) (s : string) : list string :=
  match s with
  | String c s' =>
      if Ascii.eqb c sep then EmptyString :: split sep s'
      else match split sep s' with
           | w :: ws => String c w :: ws
           | [] => [String c EmptyString]
           end
  | EmptyString => [EmptyString]
  end.

(** [sep.join(l)] *)
Fixpoint join (sep : string) (l : list string) : string :=
  match l with
  | [] => EmptyString
  | [s] => s
  | s :: l' => s +:+ sep +:+ join sep l'
  end.

(** [str(n)] for an integer. *)
Definition str_of_int (z : Z) : string :=
  NilEmpty.string_of_int (Z.to_int z).

(** [int(s)] for a string of decimal digits (the only use in the package
    is on the text matched by [[0-9]+]); [None] is a [ValueError]. *)
Definition int_of_digits (s : string) : option Z :=
  match NilEmpty.uint_of_string s with
  | Some d => Some (Z.of_uint d)
  | None => None
  end.

(** Truthiness of an optional string: [None] and [''] are false. *)
Definition truthy (s : option string) : bool :=
  match s with
  | Some (String _ _) => true
  | _ => false
  end.

End PyStr.

(** ** LineCodec *)

Module LineCodec.
Import PyStr.

(** The named groups of a successful match of [line_format]. *)
Record groupdict : Type := mkGroups {
  g_level : string;
  g_id : option string;
  g_tag : string;
  g_value : option string;
}.

Definition is_id_char (c : ascii) : bool := is_lower c || is_upper c || is_digit c.
Definition is_tag_char (c : ascii) : bool :=
  (code c =? 95)%N || is_upper c || is_digit c.

(** [$]: at the end of the string, or just before a final newline. *)
Definition at_dollar (s : string) : bool :=
  match s with
  | EmptyString => true
  | String c EmptyString => is_newline c
  | _ => false
  end.

(** A literal character of the pattern: the rest of the text when the
    text starts with it. *)
Definition literal (c : ascii) (s : string) : option string :=
  match s with
  | String c' r => if Ascii.eqb c' c then Some r else None
  | EmptyString => None
  end.

(** The optional last group: a space and the value (any run of
    characters other than a newline), then [$]. *)
Definition match_value (s : string) : option (option string) :=
  match literal " " s with
  | Some v =>
      let '(v1, v2) := span (λ c, negb (is_newline c)) v in
      if at_dollar v2 then Some (Some v1) else None
  | None => if at_dollar s then Some None else None
  end.

(** [(?P<tag>[_A-Z0-9]+)] followed by the value part. *)
Definition match_tag (s : string) : option (string * option string) :=
  let '(tg, r) := span is_tag_char s in
  if String.eqb tg "" then None
  else match match_value r with
       | Some v => Some (tg, v)
       | None => None
       end.

(** [((?P<id>@[a-zA-Z0-9]+@) )?]: a tag never starts with [@], so the
    group is taken exactly when the text starts with [@]. *)
Definition match_id (s : string) : option (option string * string) :=
  match literal "@" s with
  | Some r =>
      let '(body, r1) := span is_id_char r in
      if String.eqb body "" then None
      else match literal "@" r1 with
           | Some r2 =>
               match literal " " r2 with
               | Some r3 => Some (Some ("@" +:+ body +:+ "@"), r3)
               | None => None
               end
           | None => None
           end
  | None => Some (None, s)
  end.

(** [line_format.match(line)]: the level [[0-9]+], a space, the
    optional id and its space, the tag, the optional space and value,
    and the end of the line. *)
Definition line_format_match (line : string) : option groupdict :=
  let '(lv, r) := span is_digit line in
  if String.eqb lv "" then None
  else match literal " " r with
       | Some r1 =>
           match match_id r1 with
           | Some (i, r2) =>
               match match_tag r2 with
               | Some (tg, v) => Some (mkGroups lv i tg v)
               | None => None
               end
           | None => None
           end
       | None => None
       end.

(** The line of [Element.gedcom_lines]:
    [u"{level}{id} {tag}{value}".format(...)]; a level [None] prints as
    the text [None]. *)
Definition format_level (level : option Z) : string :=
  match level with
  | Some z => str_of_int z
  | None => "None"
  end.

Definition format_line (level : option Z) (id : option string)
    (tag : string) (value : option string) : string :=
  format_level level
  +:+ (if truthy id then " " +:+ default "" id else "")
  +:+ " " +:+ tag
  +:+ (if truthy value then " " +:+ default "" value else "").

End LineCodec.

(** ** TagRegistry ([gedcom/register.py]) *)

Module Registry.

(** The classes of the package. [Spouse] and [Event] are the unregistered
    base classes of [Husband]/[Wife] and [Birth]/[Death]/[Marriage]. *)
Inductive klass : Type :=
| KElement | KIndividual | KFamily
| KSpouse | KHusband | KWife
| KEvent | KBirth | KDeath | KMarriage
| KNote.

#[global] Instance klass_eq_dec : EqDecision klass.
Proof. solve_decision. Defined.

(** [register_tag(tag)(klass)]: binds the tag in [tags_to_classes]. *)
Definition register_tag (tag : string) (k : klass)
    (tags : gmap string klass) : gmap string klass :=
  <[tag := k]> tags.

(** The table after the package is imported: [INDI] is registered by
    [individual.py], the others by [__init__.py], in source order. *)
Definition tags_to_classes : gmap string klass :=
  register_tag "NOTE" KNote
    (register_tag "MARR" KMarriage
      (register_tag "DEAT" KDeath
        (register_tag "BIRT" KBirth
          (register_tag "WIFE" KWife
            (register_tag "HUSB" KHusband
              (register_tag "FAM" KFamily
                (register_tag "INDI" KIndividual ∅))))))).

(** [klass.default_tag], set by the decorator on the registered classes. *)
Definition default_tag (k : klass) : option string :=
  match k with
  | KIndividual => Some "INDI"
  | KFamily => Some "FAM"
  | KHusband => Some "HUSB"
  | KWife => Some "WIFE"
  | KBirth => Some "BIRT"
  | KDeath => Some "DEAT"
  | KMarriage => Some "MARR"
  | KNote => Some "NOTE"
  | KElement | KSpouse | KEvent => None
  end.

(** [tags_to_classes.get(tag, Element)] *)
Definition class_for_tag (tag : string) : klass :=
  default KElement (tags_to_classes !! tag).

(** [isinstance(x, Spouse)], [isinstance(x, Event)] *)
Definition is_spouse (k : klass) : bool :=
  match k with KSpouse | KHusband | KWife => true | _ => false end.
Definition is_event (k : klass) : bool :=
  match k with KEvent | KBirth | KDeath | KMarriage => true | _ => false end.

End Registry.

(** ** ElementTree ([gedcom/element.py]) and the typed views

    An element owns its children, so an element together with its subtree
    is a finite tree. The back-references [parent] and [gedcom_file] are
    not fields of the tree: an accessor that looks an id up in the file of
    the element itself takes that file as an argument, and the functions
    that assign [gedcom_file] or follow the one of another element are
    also modelled in [Linked], on elements that carry it. *)

Module Tree.
Import PyStr LineCodec Registry.

#[warnings="-register-all"]
Inductive Element : Type := mkElement {
  cls : klass;
  level : option Z;              (* [None] until a level is assigned *)
  tag : string;
  value : option string;
  id : option string;
  child_elements : list Element;
}.

Definition with_level (lv : option Z) (e : Element) : Element :=
  mkElement (cls e) lv (tag e) (value e) (id e) (child_elements e).
Definition with_id (i : option string) (e : Element) : Element :=
  mkElement (cls e) (level e) (tag e) (value e) i (child_elements e).
Definition with_children (cs : list Element) (e : Element) : Element :=
  mkElement (cls e) (level e) (tag e) (value e) (id e) cs.
Definition with_value (v : option string) (e : Element) : Element :=
  mkElement (cls e) (level e) (tag e) v (id e) (child_elements e).

(** [klass(level=.., tag=.., value=.., id=..)] without a parent. *)
Definition init (k : klass) (lv : option Z) (tg : option string)
    (v i : option string) : result Element :=
  do t <- match tg, default_tag k with
          | Some t, Some d => if String.eqb t d then OK t else Raise ValueError
          | Some t, None => OK t
          | None, Some d => OK d
          | None, None => Raise AttributeError
          end;
  OK (mkElement k lv t v i []).

(** What [Element.__getitem__] hands back: one element, or the list of
    the matching children when there are several. *)
Inductive item : Type :=
| One (e : Element)
| Many (l : list Element).

(** [get_list(tag)] *)
Definition get_list (e : Element) (key : string) : list Element :=
  filter (λ c, tag c = key) (child_elements e).

(** [__getitem__(key)] *)
Definition getitem (e : Element) (key : string) : result item :=
  let children := filter (λ c, tag c = key) (child_elements e) in
  match children with
  | [] => Raise (IndexError key)
  | [c] => OK (One c)
  | _ => OK (Many children)
  end.

(** [__contains__(key)] *)
Definition contains (e : Element) (key : string) : bool :=
  existsb (λ c, String.eqb (tag c) key) (child_elements e).

(** [__len__] and [__iter__] *)
Definition len (e : Element) : nat := length (child_elements e).
Definition iter (e : Element) : list string := map tag (child_elements e).

(** [add_child_element(child)] *)
Definition add_child_element (e child : Element) : Element :=
  with_children (child_elements e ++ [child]) e.

(** The body of [set_levels_downward] on an element whose [level]
    attribute currently holds [lv]; the assignment [c.level = self.level
    + 1] is the argument of the recursive call. The assignment
    [c.gedcom_file = self.gedcom_file] is on an attribute the tree does
    not have: [Linked.set_levels_from] has both, and is this function on
    everything else. *)
Fixpoint set_levels_from (lv : option Z) (e : Element) : result Element :=
  match lv with
  | None => Raise TypeError
  | Some l =>
      do cs <- (fix go (cs : list Element) : result (list Element) :=
                  match cs with
                  | [] => OK []
                  | c :: cs' =>
                      do c' <- set_levels_from (Some (l + 1)) c;
                      do cs'' <- go cs';
                      OK (c' :: cs'')
                  end) (child_elements e);
      OK (mkElement (cls e) lv (tag e) (value e) (id e) cs)
  end.

Definition set_levels_downward (e : Element) : result Element :=
  set_levels_from (level e) e.

(** [gedcom_lines()]: this element's line, then its children's. *)
Fixpoint gedcom_lines (e : Element) : list string :=
  format_line (level e) (id e) (tag e) (value e)
  :: concat (map gedcom_lines (child_elements e)).

(** [x.value] where [x] came from [__getitem__]: a list has no such
    attribute. *)
Definition item_value (x : item) : result (option string) :=
  match x with
  | One e => OK (value e)
  | Many _ => Raise AttributeError
  end.

(** [s.lower()], [s.strip()] where [s] may be [None]. *)
Definition str_method (f : string → string) (s : option string) : result string :=
  match s with
  | Some s => OK (f s)
  | None => Raise AttributeError
  end.

End Tree.

(** ** Document: the class [GedcomFile] *)

Module Document.
Import PyStr LineCodec Registry Tree.

Record GedcomFile : Type := mkGedcomFile {
  root_elements : list Element;
  pointers : gmap string Element;
  next_free_id : Z;
}.

(** [GedcomFile()] *)
Definition new : GedcomFile := mkGedcomFile [] ∅ 1.

(** [__getitem__(key)]: [self.pointers[key]]. The key is a [value]
    attribute, hence possibly [None], which is never bound. *)
Definition getitem (gf : GedcomFile) (key : option string) : result Element :=
  match key with
  | Some k => match pointers gf !! k with
              | Some e => OK e
              | None => Raise (KeyError key)
              end
  | None => Raise (KeyError None)
  end.

(** [element(tag, **kwargs)] *)
Definition element (tg : string) (lv : option Z) (v : option string) : result Element :=
  Tree.init (class_for_tag tg) lv (Some tg) v None.

(** The methods [individual] and [family], with their keyword arguments. *)
Definition individual (lv : option Z) (v : option string) : result Element :=
  element "INDI" lv v.
Definition family (lv : option Z) (v : option string) : result Element :=
  element "FAM" lv v.

(** The properties [individuals] and [families], as lists. *)
Definition individuals (gf : GedcomFile) : list Element :=
  filter (λ i, cls i = KIndividual) (root_elements gf).
Definition families (gf : GedcomFile) : list Element :=
  filter (λ i, cls i = KFamily) (root_elements gf).

(** The [for step in range(1, 1000000)] loop of [add_element]: [steps]
    iterations are left, [next] is [self.next_free_id]. The result is the
    counter after the loop and the id found, if any. *)
Fixpoint find_free_id (steps : nat) (prefix : string)
    (ptrs : gmap string Element) (next : Z) : Z * option string :=
  match steps with
  | O => (next, None)
  | S steps' =>
      let potential_id := "@" +:+ prefix +:+ str_of_int next +:+ "@" in
      if decide (is_Some (ptrs !! potential_id)) then
        find_free_id steps' prefix ptrs (next + 1)
      else (next + 1, Some potential_id)
  end.

(** [len(range(1, 1000000))] *)
Definition max_steps : nat := N.to_nat 999999.

(** [add_element(element)]. The file is mutated even when the call
    raises, so the file after the call is returned in both cases, next
    to the element as registered or the exception. *)
Definition add_element (gf : GedcomFile) (element : Element)
    : GedcomFile * result Element :=
  let '(gf1, r) :=
    match level element with
    | None =>
        if negb (bool_decide (cls element = KIndividual)
                 || bool_decide (cls element = KFamily))
        then (gf, Raise TypeError)
        else
          match set_levels_downward (with_level (Some 0) element) with
          | Raise e => (gf, Raise e)
          | OK element =>
              let prefix :=
                if bool_decide (cls element = KIndividual) then "I" else "F" in
              let '(next, found) :=
                find_free_id max_steps prefix (pointers gf) (next_free_id gf) in
              let gf' := mkGedcomFile (root_elements gf) (pointers gf) next in
              match found with
              | Some potential_id => (gf', OK (with_id (Some potential_id) element))
              | None => (gf', Raise (Exception "Ran out of ids?"))
              end
          end
    | Some _ => (gf, OK element)
    end in
  match r with
  | Raise e => (gf1, Raise e)
  | OK element =>
      let ptrs :=
        if truthy (id element)
        then <[default "" (id element) := element]> (pointers gf1)
        else pointers gf1 in
      let roots :=
        if bool_decide (level element = Some 0)
        then root_elements gf1 ++ [element]
        else root_elements gf1 in
      (mkGedcomFile roots ptrs (next_free_id gf1), OK element)
  end.

(** The header subtree built by [ensure_header_trailer], after its
    [set_levels_downward]. *)
Definition version : string := "0.1.0".

Definition head_element : result Element :=
  do head_element <- element "HEAD" (Some 0) (Some "");
  do source <- element "SOUR" None None;
  do name <- element "NAME" None (Some "gedcompy");
  let source := add_child_element source name in
  do vers <- element "VERS" None (Some version);
  let source := add_child_element source vers in
  let head_element := add_child_element head_element source in
  do char <- element "CHAR" None (Some "UNICODE");
  let head_element := add_child_element head_element char in
  do gedcom_format <- element "GEDC" None None;
  do vers <- element "VERS" None (Some "5.5");
  let gedcom_format := add_child_element gedcom_format vers in
  do form <- element "FORM" None (Some "LINEAGE-LINKED");
  let gedcom_format := add_child_element gedcom_format form in
  let head_element := add_child_element head_element gedcom_format in
  set_levels_downward head_element.

(** [ensure_header_trailer()] on the root sequence. *)
Definition ensure_header_trailer (roots : list Element) : result (list Element) :=
  do roots <-
    match roots with
    | r :: _ =>
        if String.eqb (tag r) "HEAD" then OK roots
        else do h <- head_element; OK (h :: roots)
    | [] => do h <- head_element; OK (h :: roots)
    end;
  match last roots with
  | Some r =>
      if String.eqb (tag r) "TRLR" then OK roots
      else do t <- element "TRLR" (Some 0) (Some ""); OK (roots ++ [t])
  | None => do t <- element "TRLR" (Some 0) (Some ""); OK (roots ++ [t])
  end.

(** [ensure_levels()] *)
Definition ensure_levels (roots : list Element) : result (list Element) :=
  rmap (λ root_el, set_levels_downward (with_level (Some 0) root_el)) roots.

(** [gedcom_lines()]: the roots as the call leaves them, and the lines
    it yields. The call assigns neither to the pointer table nor to the
    counter; the table holds references to elements, and those of its
    entries that are roots, or below a root, are the objects that are
    re-levelled here, so no value is given for it. *)
Definition gedcom_lines (gf : GedcomFile) : result (list Element * list string) :=
  do roots <- ensure_header_trailer (root_elements gf);
  do roots <- ensure_levels roots;
  OK (roots, concat (map Tree.gedcom_lines roots)).

(** [gedcom_lines_as_string()] *)
Definition gedcom_lines_as_string (gf : GedcomFile) : result string :=
  do '(_, lines) <- gedcom_lines gf;
  OK (join (String newline "") lines).

End Document.

(** ** Typed views ([gedcom/__init__.py], [gedcom/individual.py])

    A method of a class is available on the elements of that class and
    of its subclasses; on any other element the attribute lookup raises
    [AttributeError]. The file [gf] is the [gedcom_file] of the element.
    The views that follow the [gedcom_file] of other elements ([parents],
    [father], [mother], [as_individual]) are in [Linked]. *)

Module Views.
Import PyStr LineCodec Registry Tree Document.

(** *** [Event] *)

Definition date (e : Element) : result (option string) :=
  if is_event (cls e) then do x <- Tree.getitem e "DATE"; item_value x
  else Raise AttributeError.

Definition place (e : Element) : result (option string) :=
  if is_event (cls e) then do x <- Tree.getitem e "PLAC"; item_value x
  else Raise AttributeError.

(** *** [Note] *)

(** The loop of [full_text] over the children. *)
Fixpoint full_text_loop (res : string) (cs : list Element) : result string :=
  match cs with
  | [] => OK res
  | c :: cs' =>
      if String.eqb (tag c) "CONT" then
        full_text_loop ((res +:+ String newline "") +:+ default "" (value c)) cs'
      else if String.eqb (tag c) "CONC" then
        full_text_loop (res +:+ default "" (value c)) cs'
      else Raise ValueError
  end.

(** [full_text]: the first statement is [("" + self.value) or ''], whose
    addition raises [TypeError] when the value is [None]. *)
Definition full_text (e : Element) : result string :=
  if bool_decide (cls e = KNote) then
    do res <- match value e with
              | Some v => OK (let s := "" +:+ v in if truthy (Some s) then s else "")
              | None => Raise TypeError
              end;
    full_text_loop res (child_elements e)
  else Raise AttributeError.

(** [Element.note] *)
Definition note (e : Element) : result (option string) :=
  if negb (contains e "NOTE") then OK None
  else do x <- Tree.getitem e "NOTE";
       match x with
       | One n => do t <- full_text n; OK (Some t)
       | Many _ => Raise AttributeError
       end.

(** *** [Individual] *)

(** The statements that turn a NAME element into [(first, last)]; the
    source writes them out twice, in [name] and in [aka]. *)
Definition first_last (name : Element) : result (option string * option string) :=
  match value name with
  | None | Some EmptyString =>
      do g <- Tree.getitem name "GIVN"; do first <- item_value g;
      do s <- Tree.getitem name "SURN"; do last <- item_value s;
      OK (first, last)
  | Some v =>
      match split "/" v with
      | [first; last; dud] => OK (Some (strip first), Some (strip last))
      | _ => Raise ValueError
      end
  end.

(** The loop of [name] that looks for a NAME without a TYPE child; when
    it finds none, [preferred_name] is never assigned. *)
Fixpoint preferred_loop (names : list Element) : result Element :=
  match names with
  | [] => Raise UnboundLocalError
  | name :: names' =>
      if contains name "TYPE" then preferred_loop names' else OK name
  end.

Definition name (e : Element) : result (option string * option string) :=
  if bool_decide (cls e = KIndividual) then
    do name_tag <- Tree.getitem e "NAME";
    do preferred_name <- match name_tag with
                         | Many l => preferred_loop l
                         | One n => OK n
                         end;
    first_last preferred_name
  else Raise AttributeError.

(** The test ['TYPE' in name and name['TYPE'].value.lower() == 'aka']. *)
Definition is_aka (name : Element) : result bool :=
  if contains name "TYPE" then
    do t <- Tree.getitem name "TYPE";
    do v <- item_value t;
    do l <- str_method lower v;
    OK (String.eqb l "aka")
  else OK false.

Fixpoint aka_loop (aka_list : list (option string * option string))
    (names : list Element) : result (list (option string * option string)) :=
  match names with
  | [] => OK aka_list
  | name :: names' =>
      do b <- is_aka name;
      if b then do fl <- first_last name; aka_loop (aka_list ++ [fl]) names'
      else aka_loop aka_list names'
  end.

Definition aka (e : Element) : result (list (option string * option string)) :=
  if bool_decide (cls e = KIndividual) then
    do name_tag <- Tree.getitem e "NAME";
    match name_tag with
    | Many l => aka_loop [] l
    | One _ => OK []
    end
  else Raise AttributeError.

Definition sex (e : Element) : result (option string) :=
  if bool_decide (cls e = KIndividual) then
    do x <- Tree.getitem e "SEX"; item_value x
  else Raise AttributeError.

Definition gender (e : Element) : result (option string) :=
  if bool_decide (cls e = KIndividual) then
    do x <- Tree.getitem e "SEX"; item_value x
  else Raise AttributeError.

Definition birth (e : Element) : result item :=
  if bool_decide (cls e = KIndividual) then Tree.getitem e "BIRT"
  else Raise AttributeError.

Definition death (e : Element) : result item :=
  if bool_decide (cls e = KIndividual) then Tree.getitem e "DEAT"
  else Raise AttributeError.

(** [title]: the bare [except] turns every exception of the lookup,
    and of reading [value] off a list, into [None]. *)
Definition title (e : Element) : result (option string) :=
  if bool_decide (cls e = KIndividual) then
    match (do x <- Tree.getitem e "TITL"; item_value x) with
    | OK v => OK v
    | Raise _ => OK None
    end
  else Raise AttributeError.

(** [sex_node.value = sex] on the child found by [self['SEX']]: the
    first child carrying the tag. *)
Fixpoint set_first_value (key : string) (v : option string)
    (cs : list Element) : list Element :=
  match cs with
  | [] => []
  | c :: cs' =>
      if String.eqb (tag c) key then with_value v c :: cs'
      else c :: set_first_value key v cs'
  end.

(** [set_sex(sex)]. [gf] is the [gedcom_file] attribute of the element,
    [None] for an element that was never given a file. Assigning to
    [value] on the list that [self['SEX']] returns for several SEX
    children is an [AttributeError], which the handler does not catch. *)
Definition set_sex (gf : option GedcomFile) (e : Element) (sex : string)
    : result Element :=
  if bool_decide (cls e = KIndividual) then
    let sex := upper sex in
    if negb (bool_decide (sex = codes "M") || bool_decide (sex = codes "F"))
    then Raise TypeError
    else
      let sex := if bool_decide (sex = codes "M") then "M" else "F" in
      match Tree.getitem e "SEX" with
      | OK (One _) =>
          OK (with_children (set_first_value "SEX" (Some sex) (child_elements e)) e)
      | OK (Many _) => Raise AttributeError
      | Raise (IndexError _) =>
          match gf with
          | Some _ =>
              do sex_node <- element "SEX" None (Some sex);
              OK (add_child_element e sex_node)
          | None => Raise AttributeError
          end
      | Raise err => Raise err
      end
  else Raise AttributeError.

Definition is_female (e : Element) : result bool :=
  do s <- sex e; do l <- str_method lower s; OK (String.eqb l "f").

Definition is_male (e : Element) : result bool :=
  do s <- sex e; do l <- str_method lower s; OK (String.eqb l "m").

(** [Element.get_by_id(other_id)]: [self.gedcom_file[other_id]] *)
Definition get_by_id (gf : GedcomFile) (other_id : option string) : result Element :=
  Document.getitem gf other_id.

End Views.

(** ** Elements with their file

    Every element has a back-reference [gedcom_file] to a file, or
    [None]. The trees of [Tree] leave it out; the functions that assign
    it or follow it are modelled here, on elements that carry it. A file
    is referred to by its identity, and a [store] gives the file behind
    each identity. *)

Module Linked.
Import PyStr LineCodec Registry.

(** The identity of a [GedcomFile] object. *)
Definition fileref := nat.

#[warnings="-register-all"]
Inductive Element : Type := mkElement {
  cls : klass;
  level : option Z;
  tag : string;
  value : option string;
  id : option string;
  gedcom_file : option fileref;
  child_elements : list Element;
}.

(** The element without the back-references of its subtree. *)
Fixpoint erase (e : Element) : Tree.Element :=
  Tree.mkElement (cls e) (level e) (tag e) (value e) (id e)
                 (map erase (child_elements e)).

(** The tree with one and the same back-reference on every element. *)
Fixpoint link (f : option fileref) (e : Tree.Element) : Element :=
  mkElement (Tree.cls e) (Tree.level e) (Tree.tag e) (Tree.value e) (Tree.id e) f
            (map (link f) (Tree.child_elements e)).

Definition with_level (lv : option Z) (e : Element) : Element :=
  mkElement (cls e) lv (tag e) (value e) (id e) (gedcom_file e) (child_elements e).

(** The body of [set_levels_downward] on an element whose [level] and
    [gedcom_file] attributes currently hold [lv] and [f]; the
    assignments [c.level = self.level + 1] and [c.gedcom_file =
    self.gedcom_file] are the arguments of the recursive call. *)
Fixpoint set_levels_from (lv : option Z) (f : option fileref) (e : Element)
    : result Element :=
  match lv with
  | None => Raise TypeError
  | Some l =>
      do cs <- (fix go (cs : list Element) : result (list Element) :=
                  match cs with
                  | [] => OK []
                  | c :: cs' =>
                      do c' <- set_levels_from (Some (l + 1)) f c;
                      do cs'' <- go cs';
                      OK (c' :: cs'')
                  end) (child_elements e);
      OK (mkElement (cls e) lv (tag e) (value e) (id e) f cs)
  end.

Definition set_levels_downward (e : Element) : result Element :=
  set_levels_from (level e) (gedcom_file e) e.

(** [GedcomFile.ensure_levels()] on the root sequence. *)
Definition ensure_levels (roots : list Element) : result (list Element) :=
  rmap (λ root_el, set_levels_downward (with_level (Some 0) root_el)) roots.

(** The class [GedcomFile], and the files by identity. *)
Record GedcomFile : Type := mkGedcomFile {
  root_elements : list Element;
  pointers : gmap string Element;
  next_free_id : Z;
}.

Definition store := fileref → GedcomFile.

(** A file whose elements all refer to the file [f]. *)
Definition link_file (f : fileref) (gf : Document.GedcomFile) : GedcomFile :=
  mkGedcomFile (link (Some f) <$> Document.root_elements gf)
               (link (Some f) <$> Document.pointers gf)
               (Document.next_free_id gf).

(** [GedcomFile.__getitem__(key)] *)
Definition getitem (gf : GedcomFile) (key : option string) : result Element :=
  match key with
  | Some k => match pointers gf !! k with
              | Some e => OK e
              | None => Raise (KeyError key)
              end
  | None => Raise (KeyError None)
  end.

(** [x.gedcom_file[key]]: subscripting [None] is a [TypeError]. *)
Definition file_getitem (files : store) (f : option fileref)
    (key : option string) : result Element :=
  match f with
  | Some r => getitem (files r) key
  | None => Raise TypeError
  end.

(** [Element.get_by_id(other_id)] *)
Definition get_by_id (files : store) (e : Element) (other_id : option string)
    : result Element :=
  file_getitem files (gedcom_file e) other_id.

(** [Element.get_list(tag)] *)
Definition get_list (e : Element) (key : string) : list Element :=
  filter (λ c, tag c = key) (child_elements e).

(** [Family.partners] *)
Definition partners (e : Element) : result (list Element) :=
  if bool_decide (cls e = KFamily)
  then OK (get_list e "HUSB" ++ get_list e "WIFE")
  else Raise AttributeError.

(** [Spouse.as_individual()]: the lookup goes through the file of the
    spouse element itself. *)
Definition as_individual (files : store) (e : Element) : result Element :=
  if is_spouse (cls e) then file_getitem files (gedcom_file e) (value e)
  else Raise AttributeError.

(** [Individual.parents]: the membership test on the CHIL children has an
    empty body in the source and can not raise. The FAMC child is only
    read, so it is looked up in the tree of the element. *)
Definition parents (files : store) (e : Element) : result (list Element) :=
  if bool_decide (cls e = KIndividual) then
    if Tree.contains (erase e) "FAMC" then
      do x <- Tree.getitem (erase e) "FAMC";
      do family_as_child_id <- Tree.item_value x;
      do family <- get_by_id files e family_as_child_id;
      do parents <- partners family;
      rmap (as_individual files) parents
    else OK []
  else Raise AttributeError.

(** [Individual.father], [Individual.mother] *)
Definition father (files : store) (e : Element) : result (option Element) :=
  do ps <- parents files e;
  do male_parents <- rfilter (λ p, Views.is_male (erase p)) ps;
  match male_parents with
  | [] => OK None
  | [p] => OK (Some p)
  | _ => Raise (NotImplementedError None)
  end.

Definition mother (files : store) (e : Element) : result (option Element) :=
  do ps <- parents files e;
  do female_parents <- rfilter (λ p, Views.is_female (erase p)) ps;
  match female_parents with
  | [] => OK None
  | [p] => OK (Some p)
  | _ => Raise (NotImplementedError None)
  end.

End Linked.



(** ** Parser: the function [__parse]

    While the lines are read, [level_to_obj] and the children lists hold
    references to elements that are still being extended, so the parser
    runs over an object store: an address is the position of an object in
    the store, and objects are allocated in the order of the lines. *)

Module Parser.
Import PyStr LineCodec Registry Tree Document.

Definition addr := nat.

Record object : Type := mkObject {
  o_cls : klass;
  o_level : Z;
  o_tag : string;
  o_value : option string;
  o_id : option string;
  o_child_elements : list addr;
  o_parent_element : option addr;
}.

Definition append_child (child : addr) (o : object) : object :=
  mkObject (o_cls o) (o_level o) (o_tag o) (o_value o) (o_id o)
           (o_child_elements o ++ [child]) (o_parent_element o).

Record state : Type := mkState {
  heap : list object;
  level_to_obj : gmap Z addr;
  roots : list addr;              (* [gedcom_file.root_elements] *)
  ptrs : gmap string addr;        (* [gedcom_file.pointers] *)
}.

(** The state before the first line: no object, [level_to_obj = {}] and
    a fresh [GedcomFile()]. *)
Definition initial : state := mkState [] ∅ [] ∅.

(** [line_to_element(level=.., parent=.., tag=.., value=.., id=..)]: the
    class registered for the tag is instantiated; its constructor ends
    with [parent.add_child_element(self)] when there is a parent. *)
Definition line_to_element (h : list object) (lv : Z) (parent : option addr)
    (tg : string) (v i : option string) : result (list object * addr) :=
  do e <- Tree.init (class_for_tag tg) (Some lv) (Some tg) v i;
  let a := length h in
  let h := h ++ [mkObject (cls e) lv (tag e) (value e) (id e) [] parent] in
  match parent with
  | Some p => OK (alter (append_child a) p h, a)
  | None => OK (h, a)
  end.

(** The body of the loop of [__parse] once the line has matched. *)
Definition loop_body (st : state) (lv : Z) (m : groupdict) : result state :=
  do '(l2o, parent) <-
    if bool_decide (lv = 0) then OK (level_to_obj st, None)
    else
      let l2o := filter (λ kv : Z * addr, kv.1 < lv) (level_to_obj st) in
      match l2o !! (lv - 1) with
      | Some p => OK (l2o, Some p)
      | None => Raise (KeyErrorLevel (lv - 1))
      end;
  do '(h, element) <- line_to_element (heap st) lv parent (g_tag m) (g_value m) (g_id m);
  let l2o := <[lv := element]> l2o in
  (* [gedcom_file.add_element(element)] with a level that is set *)
  let ptrs :=
    if truthy (g_id m) then <[default "" (g_id m) := element]> (ptrs st)
    else ptrs st in
  let roots := if bool_decide (lv = 0) then roots st ++ [element] else roots st in
  OK (mkState h l2o roots ptrs).

(** One iteration of the loop of [__parse]. *)
Definition parse_line (st : state) (line : string) : result state :=
  let line := strip line in
  if String.eqb line "" then OK st
  else
    match line_format_match line with
    | None => Raise (NotImplementedError (Some line))
    | Some m =>
        match int_of_digits (g_level m) with
        | Some lv => loop_body st lv m
        | None => Raise ValueError
        end
    end.

Fixpoint parse_from (st : state) (lines_iter : list string) : result state :=
  match lines_iter with
  | [] => OK st
  | line :: rest => do st' <- parse_line st line; parse_from st' rest
  end.

(** [__parse(lines_iter)] *)
Definition parse (lines_iter : list string) : result state :=
  parse_from initial lines_iter.

(** The element at an address together with its subtree, read off the
    store; [fuel] bounds the depth. *)
Fixpoint reify (fuel : nat) (h : list object) (a : addr) : option Element :=
  match fuel with
  | O => None
  | S fuel' =>
      o ← h !! a;
      cs ← mapM (reify fuel' h) (o_child_elements o);
      Some (mkElement (o_cls o) (Some (o_level o)) (o_tag o) (o_value o) (o_id o) cs)
  end.

(** The root sequence of the parsed file, as trees. *)
Definition root_trees (st : state) : option (list Element) :=
  mapM (reify (length (heap st)) (heap st)) (roots st).

(** The parsed [GedcomFile]. *)
Definition to_file (st : state) : option GedcomFile :=
  rs ← root_trees st;
  ps ← mapM (λ kv : string * addr,
               e ← reify (length (heap st)) (heap st) kv.2; Some (kv.1, e))
            (map_to_list (ptrs st));
  Some (mkGedcomFile rs (list_to_map ps) 1).

(** [parse_string(string)] *)
Definition parse_string (s : string) : result state :=
  parse (split newline s).

End Parser.

(** * Specification-level notions used by the statements *)

Module Spec.
Import PyStr LineCodec Registry Tree Document Views Parser.

(** Every child sits one level below its parent, all the way down. *)
Fixpoint levels_consistent (e : Element) : bool :=
  match level e with
  | None => false
  | Some l =>
      forallb (λ c, bool_decide (level c = Some (l + 1)) && levels_consistent c)
              (child_elements e)
  end.

(** The tree with its levels forgotten. *)
Fixpoint unlevel (e : Element) : Element :=
  mkElement (cls e) None (tag e) (value e) (id e) (map unlevel (child_elements e)).

(** [key] occurs as the tag of no element of [l]. *)
Definition tag_free (key : string) (l : list Element) : Prop :=
  Forall (λ c, tag c ≠ key) l.

(** The text appended by [full_text] for a CONT or CONC child. *)
Definition continuation (c : Element) : string :=
  (if String.eqb (tag c) "CONT" then String newline "" else "")
  +:+ default "" (value c).

Definition is_continuation (c : Element) : bool :=
  String.eqb (tag c) "CONT" || String.eqb (tag c) "CONC".

Fixpoint concat_str (l : list string) : string :=
  match l with
  | [] => ""
  | s :: l' => s +:+ concat_str l'
  end.

(** Every character of the string satisfies [p]. *)
Fixpoint all_chars (p : ascii → bool) (s : string) : bool :=
  match s with
  | String c s' => p c && all_chars p s'
  | EmptyString => true
  end.

Definition head_char (s : string) : option ascii :=
  match s with
  | String c _ => Some c
  | EmptyString => None
  end.

Fixpoint last_char (s : string) : option ascii :=
  match s with
  | String c EmptyString => Some c
  | String _ s' => last_char s'
  | EmptyString => None
  end.

(** The string does not start (end) with a character satisfying [p]. *)
Definition head_not (p : ascii → bool) (s : string) : bool :=
  match head_char s with Some c => negb (p c) | None => true end.
Definition last_not (p : ascii → bool) (s : string) : bool :=
  match last_char s with Some c => negb (p c) | None => true end.

(** The text a line gives to its optional id and to its optional value,
    separators included. *)
Definition id_part (i : option string) : string :=
  match i with Some i => " " +:+ i | None => "" end.
Definition value_part (v : option string) : string :=
  match v with Some v => " " +:+ v | None => "" end.

(** The text of a line whose groups are [m]. *)
Definition line_of (m : groupdict) : string :=
  g_level m +:+ id_part (g_id m) +:+ " " +:+ g_tag m +:+ value_part (g_value m).

(** The groups a line of the grammar can have once it is stripped:
    a level in digits, a pointer [@...@] of letters and digits or none,
    a tag of capitals, digits and underscores, and a value that is
    absent, or not empty, free of newlines and not ending in white space. *)
Definition wf_level (s : string) : bool :=
  negb (String.eqb s "") && all_chars is_digit s.
Definition wf_tag (t : string) : bool :=
  negb (String.eqb t "") && all_chars is_tag_char t.
Definition wf_pointer (i : string) : bool :=
  match i with
  | String c r =>
      let '(body, r') := span is_id_char r in
      Ascii.eqb c "@" && negb (String.eqb body "") && String.eqb r' "@"
  | EmptyString => false
  end.
Definition wf_id (i : option string) : bool :=
  match i with Some i => wf_pointer i | None => true end.
Definition wf_value (v : option string) : bool :=
  match v with
  | Some v => negb (String.eqb v "")
              && all_chars (λ c, negb (is_newline c)) v
              && last_not isspace v
  | None => true
  end.
Definition wf_groups (m : groupdict) : bool :=
  wf_level (g_level m) && wf_id (g_id m) && wf_tag (g_tag m)
  && wf_value (g_value m).

(** [None] for the strings Python takes for false. *)
Definition or_None (s : option string) : option string :=
  if truthy s then s else None.

(** The object the parser allocates for a line with groups [m] at
    level [lv] under [parent], and the pointer table after the line. *)
Definition new_object (lv : Z) (m : groupdict) (parent : option addr) : object :=
  mkObject (class_for_tag (g_tag m)) lv (g_tag m) (g_value m) (g_id m) [] parent.

Definition bind_pointer (m : groupdict) (a : addr)
    (ptrs : gmap string addr) : gmap string addr :=
  if truthy (g_id m) then <[default "" (g_id m) := a]> ptrs else ptrs.

(** *** The parser seen from its input

    What one line contributes: nothing when it is blank, else its level
    and groups. *)
Definition read_line (line : string) : result (option (Z * groupdict)) :=
  let line := strip line in
  if String.eqb line "" then OK None
  else match line_format_match line with
       | None => Raise (NotImplementedError (Some line))
       | Some m =>
           match int_of_digits (g_level m) with
           | Some lv => OK (Some (lv, m))
           | None => Raise ValueError
           end
       end.

(** The records of the lines that are not blank, in input order. *)
Fixpoint records (lines : list string) : result (list (Z * groupdict)) :=
  match lines with
  | [] => OK []
  | line :: rest =>
      do r <- read_line line;
      do rs <- records rest;
      OK (match r with Some x => x :: rs | None => rs end)
  end.

(** The element open at level [k] after lines of the given levels, latest
    line first: the latest line of level [k], unless a later line of a
    level from 1 to [k] has closed it. The result is the position of the
    line in the input. *)
Fixpoint open_rev (k : Z) (rls : list Z) : option nat :=
  match rls with
  | [] => None
  | l :: rest =>
      if bool_decide (l = k) then Some (length rest)
      else if bool_decide (l = 0) then open_rev k rest
      else if bool_decide (k < l) then open_rev k rest
      else None
  end.

Definition open_at (ls : list Z) (k : Z) : option nat := open_rev k (rev ls).

(** The parent of line [i]: none at level 0, else the element open one
    level up when the line is read. *)
Definition parent_of (ls : list Z) (i : nat) : option nat :=
  match ls !! i with
  | Some l => if bool_decide (l = 0) then None else open_at (take i ls) (l - 1)
  | None => None
  end.

Definition children_of (ls : list Z) (i : nat) : list nat :=
  filter (λ j, parent_of ls j = Some i) (seq 0 (length ls)).

Definition roots_of (ls : list Z) : list nat :=
  filter (λ j, ls !! j = Some 0) (seq 0 (length ls)).

(** No line is an orphan: read after lines of levels [seen], every
    line of [ls] is at level 0 or finds an element open one level up. *)
Fixpoint no_orphan_from (seen ls : list Z) : bool :=
  match ls with
  | [] => true
  | l :: rest =>
      bool_decide (l = 0 ∨ is_Some (open_at seen (l - 1)))
      && no_orphan_from (seen ++ [l]) rest
  end.

Definition no_orphan (ls : list Z) : bool := no_orphan_from [] ls.

(** The position of the latest of the given ids that is [k]. *)
Fixpoint bound_rev (k : string) (rids : list (option string)) : option nat :=
  match rids with
  | [] => None
  | i :: rest =>
      if bool_decide (i = Some k) then Some (length rest) else bound_rev k rest
  end.

Definition bound_to (ids : list (option string)) (k : string) : option nat :=
  bound_rev k (rev ids).

(** The object of record [r], the [i]-th of records of levels [ls]. *)
Definition object_of (ls : list Z) (i : nat) (r : Z * groupdict) : object :=
  mkObject (class_for_tag (g_tag r.2)) r.1 (g_tag r.2) (g_value r.2)
           (g_id r.2) (children_of ls i) (parent_of ls i).

(** [st] is the state of the parser after the records [recs]: one
    object per record, in input order, with the parents and children
    given by the levels; the elements open at each level; the roots;
    and each id bound to the latest element carrying it. *)
Definition parsed (recs : list (Z * groupdict)) (st : state) : Prop :=
  heap st = imap (object_of recs.*1) recs
  ∧ (∀ k, level_to_obj st !! k = open_at recs.*1 k)
  ∧ roots st = roots_of recs.*1
  ∧ (∀ k, ptrs st !! k = bound_to ((g_id ∘ snd) <$> recs) k).

(** *** Round trip

   A well-formed element: its tag and id are tokens of the grammar and
   its value, when it has one that is not empty, is free of newlines and
   does not end in white space; the same holds of all its descendants. *)
Fixpoint wf_element (e : Element) : bool :=
  wf_tag (tag e) && wf_id (id e) && wf_value (or_None (value e))
  && forallb wf_element (child_elements e).

(** The element with the levels of its subtree counted from [l]. *)
Fixpoint relevel (l : Z) (e : Element) : Element :=
  mkElement (cls e) (Some l) (tag e) (value e) (id e)
            (map (relevel (l + 1)) (child_elements e)).

(** The element as a parser reads it back: the class is the one
    registered for the tag, and an empty value is no value. *)
Fixpoint canon (e : Element) : Element :=
  mkElement (class_for_tag (tag e)) (level e) (tag e) (or_None (value e))
            (id e) (map canon (child_elements e)).

(** An element whose tag and id are tokens of the grammar and whose
    value, when it has one, is not empty, is free of newlines and does
    not end in white space; the same holds of all its descendants. *)
Fixpoint wf_strict (e : Element) : bool :=
  wf_tag (tag e) && wf_id (id e) && wf_value (value e)
  && forallb wf_strict (child_elements e).

(** The tags, values, ids and nesting of a subtree, in order: the
    element without its class and levels. *)
Fixpoint bare (e : Element) : Element :=
  mkElement KElement None (tag e) (value e) (id e) (map bare (child_elements e)).

(** The number of elements of a subtree. *)
Fixpoint size (e : Element) : nat :=
  S (list_sum (map size (child_elements e))).

(** The addresses of elements stored one subtree after the other from
    address [a] on. *)
Fixpoint child_addrs (a : addr) (cs : list Element) : list addr :=
  match cs with
  | [] => []
  | c :: cs' => a :: child_addrs (a + size c)%nat cs'
  end.

(** The objects of a subtree stored from address [a] on, in the order of
    its lines: the element, then the subtrees of its children. *)
Fixpoint block (a : addr) (parent : option addr) (l : Z) (e : Element)
    : list object :=
  mkObject (class_for_tag (tag e)) l (tag e) (or_None (value e)) (id e)
           (child_addrs (S a) (child_elements e)) parent
  :: (fix blocks (a' : addr) (cs : list Element) : list object :=
        match cs with
        | [] => []
        | c :: cs' => block a' (Some a) (l + 1) c ++ blocks (a' + size c)%nat cs'
        end) (S a) (child_elements e).

Fixpoint blocks (a : addr) (parent : option addr) (l : Z) (cs : list Element)
    : list object :=
  match cs with
  | [] => []
  | c :: cs' => block a parent l c ++ blocks (a + size c)%nat parent l cs'
  end.

(** The store after [child] has been added to the children of [parent]. *)
Definition attach (parent : option addr) (child : addr) (h : list object)
    : list object :=
  match parent with
  | Some p => alter (append_child child) p h
  | None => h
  end.

Definition add_children (cs : list addr) (o : object) : object :=
  mkObject (o_cls o) (o_level o) (o_tag o) (o_value o) (o_id o)
           (o_child_elements o ++ cs) (o_parent_element o).

(** The store [h] holds the objects [b] from address [a] on. *)
Definition holds_at (h : list object) (a : addr) (b : list object) : Prop :=
  ∀ i o, b !! i = Some o → h !! (a + i)%nat = Some o.

(** The lines of the subtree [e], serialized at level [l], are parsed
    from any state in which the level above is open: the objects of the
    subtree are appended to the store in the order of the lines, the
    root of the subtree is attached to the element open one level up (or
    added to the roots at level 0), and the elements open above stay so. *)
Definition parses_subtree (e : Element) : Prop :=
  ∀ (l : Z) (st : state) (parent : option addr),
    0 ≤ l →
    parent = (if bool_decide (l = 0) then None else level_to_obj st !! (l - 1)) →
    (l ≠ 0 → ∃ p, parent = Some p ∧ (p < length (heap st))%nat) →
    ∃ st',
      parse_from st (Tree.gedcom_lines (relevel l e)) = OK st'
      ∧ heap st' = attach parent (length (heap st)) (heap st)
                   ++ block (length (heap st)) parent l e
      ∧ roots st' = roots st
                    ++ (if bool_decide (l = 0) then [length (heap st)] else [])
      ∧ ∀ k, k < l → level_to_obj st' !! k = level_to_obj st !! k.

(** The header and the trailer that serialization synthesizes. *)
Definition header : Element :=
  mkElement KElement (Some 0) "HEAD" (Some "") None
    [mkElement KElement (Some 1) "SOUR" None None
       [mkElement KElement (Some 2) "NAME" (Some "gedcompy") None [];
        mkElement KElement (Some 2) "VERS" (Some "0.1.0") None []];
     mkElement KElement (Some 1) "CHAR" (Some "UNICODE") None [];
     mkElement KElement (Some 1) "GEDC" None None
       [mkElement KElement (Some 2) "VERS" (Some "5.5") None [];
        mkElement KElement (Some 2) "FORM" (Some "LINEAGE-LINKED") None []]].

Definition trailer : Element :=
  mkElement KElement (Some 0) "TRLR" (Some "") None [].

(** Whether [ensure_header_trailer] has to add a header, a trailer. *)
Definition needs_header (roots : list Element) : bool :=
  match roots with
  | r :: _ => negb (String.eqb (tag r) "HEAD")
  | [] => true
  end.

Definition needs_trailer (roots : list Element) : bool :=
  match last roots with
  | Some r => negb (String.eqb (tag r) "TRLR")
  | None => true
  end.

(** The root sequence as serialization normalizes it. *)
Definition normalized (roots : list Element) : list Element :=
  relevel 0 <$> ((if needs_header roots then [header] else [])
                 ++ roots
                 ++ (if needs_trailer roots then [trailer] else [])).

(** A test that returned [True], as opposed to one that returned [False]
    or raised. *)
Definition holds (r : result bool) : bool :=
  match r with OK true => true | _ => false end.

(** The exception that reading the sex of [p] as a string raises, if
    any: the lookup [p['SEX']] for an Individual without SEX child, the
    attribute lookup on anything that is not an Individual, on the list
    of several SEX children, or on the [None] of a SEX without value. *)
Definition unreadable (p : Element) : option exn :=
  if bool_decide (cls p = KIndividual) then
    match get_list p "SEX" with
    | [] => Some (IndexError "SEX")
    | [c] => match value c with Some _ => None | None => Some AttributeError end
    | _ => Some AttributeError
    end
  else Some AttributeError.

(** What [father] and [mother] make of the parents they selected. *)
Definition pick {A} (sel : list A) : result (option A) :=
  match sel with
  | [] => OK None
  | [p] => OK (Some p)
  | _ => Raise (NotImplementedError None)
  end.

(** Every element of the subtree refers to the file [f]. *)
Fixpoint same_file (f : option Linked.fileref) (e : Linked.Element) : bool :=
  bool_decide (Linked.gedcom_file e = f)
  && forallb (same_file f) (Linked.child_elements e).

(** The element with the levels of its subtree counted from [l] and the
    file [f] on every element. *)
Fixpoint relink (l : Z) (f : option Linked.fileref) (e : Linked.Element)
    : Linked.Element :=
  Linked.mkElement (Linked.cls e) (Some l) (Linked.tag e) (Linked.value e)
                   (Linked.id e) f (map (relink (l + 1) f) (Linked.child_elements e)).

(** What a lookup by tag finds: nothing, one child, or several. *)
Inductive found : Type :=
| Missing
| Unique (c : Element)
| Several (l : list Element).

Definition find_tag (e : Element) (key : string) : found :=
  match get_list e key with
  | [] => Missing
  | [c] => Unique c
  | l => Several l
  end.

(** The candidate id built by [add_element] from a prefix and a number. *)
Definition mk_id (prefix : string) (n : Z) : string :=
  "@" +:+ prefix +:+ str_of_int n +:+ "@".

(** One call of [add_element]: the file before, the argument, the file
    after and the outcome. *)
Record call : Type := mkCall {
  before : GedcomFile;
  arg : Element;
  after : GedcomFile;
  outcome : result Element;
}.

(** A sequence of calls of [add_element] on one file, each on the file
    as the previous call left it, whether that call raised or not. *)
Fixpoint add_elements (gf : GedcomFile) (es : list Element) : list call :=
  match es with
  | [] => []
  | e :: es' =>
      let '(gf', r) := add_element gf e in
      mkCall gf e gf' r :: add_elements gf' es'
  end.

(** The call allocated the id number [n]: the argument had no level,
    the call returned, and the element got the id made of the prefix of
    its class and [n], a number reached by the counter during the call. *)
Definition allocated (c : call) (n : Z) : Prop :=
  level (arg c) = None
  ∧ next_free_id (before c) ≤ n < next_free_id (after c)
  ∧ ∃ e', outcome c = OK e'
          ∧ (cls (arg c) = KIndividual ∧ id e' = Some (mk_id "I" n)
             ∨ cls (arg c) = KFamily ∧ id e' = Some (mk_id "F" n)).

(** The counter along a sequence of calls, starting from [lo]: every
    call starts where the previous one stopped and never lowers it. *)
Fixpoint counter_chain (lo : Z) (calls : list call) : Prop :=
  match calls with
  | [] => True
  | c :: calls' =>
      next_free_id (before c) = lo
      ∧ lo ≤ next_free_id (after c)
      ∧ counter_chain (next_free_id (after c)) calls'
  end.

End Spec.

(** * Sample data *)

Module Samples.
Import Registry Tree Document Parser.

(** An INDI element with two NAME children. *)
Definition name_john : Element :=
  mkElement KElement (Some 1) "NAME" (Some "John /Smith/") None [].
Definition name_jack : Element :=
  mkElement KElement (Some 1) "NAME" (Some "Jack /Smith/") None [].
Definition two_names : Element :=
  mkElement KIndividual (Some 0) "INDI" None (Some "@I1@") [name_john; name_jack].

(** The note of the lines [0 NOTE] and [1 CONT World]: no value of its
    own, one continuation line. *)
Definition cont_world : Element :=
  mkElement KElement (Some 1) "CONT" (Some "World") None [].
Definition conc_bang : Element :=
  mkElement KElement (Some 1) "CONC" (Some "!") None [].
Definition note_no_value : Element :=
  mkElement KNote (Some 0) "NOTE" None None [cont_world].
Definition note_hello : Element :=
  mkElement KNote (Some 0) "NOTE" (Some "Hello") None [cont_world; conc_bang].

(** A subtree whose root has been given the level -1. *)
Definition below_zero : Element :=
  mkElement KElement (Some (-1)) "NOTE" None None
    [mkElement KElement None "CONT" (Some "x") None []].

(** A NAME marked as an alias, and individuals carrying it. *)
Definition name_aka : Element :=
  mkElement KElement (Some 1) "NAME" (Some "Johnny /Smith/") None
    [mkElement KElement (Some 2) "TYPE" (Some "AKA") None []].
Definition john_aka_johnny : Element :=
  mkElement KIndividual (Some 0) "INDI" None (Some "@I1@") [name_john; name_aka].

(** A family whose husband has a SEX line and whose wife has none, and
    their child. *)
Definition husband : Element :=
  mkElement KIndividual (Some 0) "INDI" None (Some "@I1@")
    [mkElement KElement (Some 1) "SEX" (Some "M") None []].
Definition wife : Element :=
  mkElement KIndividual (Some 0) "INDI" None (Some "@I2@") [].
Definition family : Element :=
  mkElement KFamily (Some 0) "FAM" None (Some "@F1@")
    [mkElement KHusband (Some 1) "HUSB" (Some "@I1@") None [];
     mkElement KWife (Some 1) "WIFE" (Some "@I2@") None [];
     mkElement KElement (Some 1) "CHIL" (Some "@I3@") None []].
Definition child : Element :=
  mkElement KIndividual (Some 0) "INDI" None (Some "@I3@")
    [mkElement KElement (Some 1) "FAMC" (Some "@F1@") None []].
Definition family_file : GedcomFile :=
  mkGedcomFile [husband; wife; family; child]
    (<["@I1@" := husband]> (<["@I2@" := wife]> (<["@F1@" := family]>
      (<["@I3@" := child]> ∅)))) 1.

(** A file in which [@I1@] and [@I2@] are taken while the counter is
    still at 1, and two fresh records. *)
Definition taken_file : GedcomFile :=
  mkGedcomFile [husband; wife] (<["@I1@" := husband]> (<["@I2@" := wife]> ∅)) 1.
Definition fresh_individual : Element :=
  mkElement KIndividual None "INDI" None None [].
Definition fresh_family : Element :=
  mkElement KFamily None "FAM" None None [].

(** A line with white space around it and inside its value, and a line
    whose level has a leading zero. *)
Definition padded_line : string := "  1 NOTE two  words  ".
Definition zero_led_line : string := "01 NOTE x".

(** A record of three lines with a blank line in between, and two
    records that claim the same id. *)
Definition john_lines : list string :=
  ["0 @I1@ INDI"; "1 NAME John /Smith/"; ""; "1 SEX M"].
Definition twice_lines : list string :=
  ["0 @I1@ INDI"; "1 SEX M"; "0 @I1@ INDI"; "1 SEX F"].
Definition twice_state : state :=
  match Parser.parse twice_lines with OK st => st | Raise _ => initial end.

(** A subtree whose root has the level -1 and no file, with a child that
    was created for file 1 and has no level yet. *)
Definition detached_below_zero : Linked.Element :=
  Linked.mkElement KElement (Some (-1)) "NOTE" None None None
    [Linked.mkElement KElement None "CONT" (Some "x") None (Some 1%nat) []].

(** The family file as the only file: all of its elements refer to it. *)
Definition family_store : Linked.store := λ _, Linked.link_file 0%nat family_file.
Definition child_in_file : Linked.Element := Linked.link (Some 0%nat) child.

(** The same family when the husband's record has two SEX lines. *)
Definition two_sexes : Element :=
  mkElement KIndividual (Some 0) "INDI" None (Some "@I1@")
    [mkElement KElement (Some 1) "SEX" (Some "M") None [];
     mkElement KElement (Some 1) "SEX" (Some "F") None []].
Definition two_sexes_store : Linked.store :=
  λ _, Linked.link_file 0%nat
         (mkGedcomFile [two_sexes; wife; family; child]
            (<["@I1@" := two_sexes]> (<["@I2@" := wife]> (<["@F1@" := family]>
              (<["@I3@" := child]> ∅)))) 1).

(** A file whose only family has a husband and no wife. *)
Definition husband_only_store : Linked.store :=
  λ _, Linked.link_file 0%nat
         (mkGedcomFile [husband; family; child]
            (<["@I1@" := husband]>
               (<["@F1@" := with_children
                    [mkElement KHusband (Some 1) "HUSB" (Some "@I1@") None []] family]>
                  ∅)) 1).

(** The family of [family_file] when its HUSB and WIFE elements were
    attached before the family had a file: they refer to no file. *)
Definition detached_spouses_store : Linked.store :=
  λ _, Linked.mkGedcomFile []
         (<["@F1@" := Linked.mkElement KFamily (Some 0) "FAM" None (Some "@F1@")
                        (Some 0%nat)
                        [Linked.mkElement KHusband (Some 1) "HUSB" (Some "@I1@")
                           None None []]]>
            (<["@I1@" := Linked.link (Some 0%nat) husband]> ∅)) 1.

(** A file whose only record is a note with a value that ends in two
    spaces. *)
Definition trailing_space_file : GedcomFile :=
  mkGedcomFile [mkElement KNote (Some 0) "NOTE" (Some "hi  ") None []] ∅ 1.

(** A file with one individual and a note, without header or trailer. *)
Definition small_file : GedcomFile :=
  mkGedcomFile
    [mkElement KIndividual None "INDI" None (Some "@I1@")
       [mkElement KElement None "NAME" (Some "John /Smith/") None [];
        mkElement KElement None "SEX" (Some "M") None []];
     mkElement KNote None "NOTE" (Some "Hello") None
       [mkElement KElement None "CONT" (Some "World") None []]]
    ∅ 1.

End Samples.

(** * Properties *)

Import PyStr LineCodec Registry Tree Document Views Parser Spec Samples.

(** ** Strings *)

Example strip_ex : PyStr.strip "  1 NOTE hi  " = "1 NOTE hi".
Proof. reflexivity. Qed.

Example split_ex : PyStr.split "/" "John /Smith/" = ["John "; "Smith"; ""].
Proof. reflexivity. Qed.

Example match_ex1 :
  LineCodec.line_format_match "0 @I1@ INDI"
  = Some (LineCodec.mkGroups "0" (Some "@I1@") "INDI" None).
Proof. reflexivity. Qed.

Example match_ex2 :
  LineCodec.line_format_match "1 NAME John /Smith/"
  = Some (LineCodec.mkGroups "1" None "NAME" (Some "John /Smith/")).
Proof. reflexivity. Qed.

Example format_ex :
  LineCodec.format_line (Some 12) (Some "@I1@") "INDI" (Some "") = "12 @I1@ INDI".
Proof. reflexivity. Qed.

Lemma str_app_nil_l (s : string) : "" +:+ s = s.
Proof. reflexivity. Qed.

Lemma str_app_cons (c : ascii) (s t : string) :
  String c s +:+ t = String c (s +:+ t).
Proof. reflexivity. Qed.

Lemma str_app_nil_r (s : string) : s +:+ "" = s.
Proof. induction s as [|c s IH]; [done | by rewrite str_app_cons, IH]. Qed.

Lemma str_app_assoc (a b c : string) : (a +:+ b) +:+ c = a +:+ (b +:+ c).
Proof. induction a as [|x a IH]; [done | by rewrite !str_app_cons, IH]. Qed.

(** ** Induction over elements *)

Lemma Element_rect' (P : Element → Type) (Q : list Element → Type) :
  Q [] →
  (∀ c cs, P c → Q cs → Q (c :: cs)) →
  (∀ k lv t v i cs, Q cs → P (mkElement k lv t v i cs)) →
  ∀ e, P e.
Proof.
  intros Hnil Hcons Hnode.
  fix IH 1. intros [k lv t v i cs]. apply Hnode.
  induction cs as [|c cs IHcs]; [exact Hnil | exact (Hcons c cs (IH c) IHcs)].
Defined.

Lemma Element_ind' (P : Element → Prop) :
  (∀ k lv t v i cs, Forall P cs → P (mkElement k lv t v i cs)) →
  ∀ e, P e.
Proof.
  intros Hnode. apply (Element_rect' P (Forall P)); auto.
Qed.

(** ** C2: the lookup [__getitem__] *)

Lemma filter_tag_nil (key : string) (l : list Element) :
  filter (λ c, tag c = key) l = [] ↔ tag_free key l.
Proof.
  unfold tag_free. induction l as [|c l IH]; simpl.
  - split; [constructor | done].
  - rewrite filter_cons. destruct (decide (tag c = key)) as [Heq|Hne].
    + split; [done | intros H; inversion H; done].
    + rewrite IH. split; [by constructor | intros H; by inversion H].
Qed.

Lemma filter_tag_singleton (key : string) (l : list Element) (c : Element) :
  filter (λ c, tag c = key) l = [c] ↔
  ∃ l1 l2, l = l1 ++ c :: l2 ∧ tag c = key ∧ tag_free key l1 ∧ tag_free key l2.
Proof.
  revert c. induction l as [|x l IH]; intros c; simpl.
  - split; [done | intros (l1 & l2 & H & _); by destruct l1].
  - rewrite filter_cons. destruct (decide (tag x = key)) as [Heq|Hne].
    + split.
      * intros H. injection H as -> Hnil. apply filter_tag_nil in Hnil.
        exists [], l. repeat split; [done | constructor | done].
      * intros (l1 & l2 & H & Htag & H1 & H2). destruct l1 as [|y l1]; simpl in H.
        -- injection H as -> ->. f_equal. by apply filter_tag_nil.
        -- injection H as -> ->. by inversion H1.
    + rewrite IH. split.
      * intros (l1 & l2 & -> & Htag & H1 & H2). exists (x :: l1), l2.
        repeat split; [done | by constructor | done].
      * intros (l1 & l2 & H & Htag & H1 & H2). destruct l1 as [|y l1]; simpl in H.
        -- injection H as -> ->. done.
        -- injection H as -> ->. exists l1, l2. inversion H1; subst. done.
Qed.

(** C2 (as the code has it): indexing an element by a tag raises
    [IndexError] exactly when no child carries the tag, returns the child
    exactly when it is the only one carrying it, and returns the list of
    all the children carrying it, in document order, exactly when there are
    two or more; it never raises for an ambiguous tag. *)
Theorem getitem_cases (e : Element) (key : string) :
  (Tree.getitem e key = Raise (IndexError key) ↔ tag_free key (child_elements e))
  ∧ (∀ c, Tree.getitem e key = OK (One c) ↔
          ∃ l1 l2, child_elements e = l1 ++ c :: l2 ∧ tag c = key
                   ∧ tag_free key l1 ∧ tag_free key l2)
  ∧ (∀ l, Tree.getitem e key = OK (Many l) ↔
          l = get_list e key ∧ (2 ≤ length l)%nat)
  ∧ (∀ err, Tree.getitem e key = Raise err → err = IndexError key).
Proof.
  unfold Tree.getitem, get_list.
  pose proof (filter_tag_nil key (child_elements e)) as Hnil.
  pose proof (filter_tag_singleton key (child_elements e)) as Hone.
  destruct (filter (λ c, tag c = key) (child_elements e)) as [|c [|c' l']] eqn:Hf.
  - split; [|split; [|split]].
    + split; [intros _; by apply Hnil | done].
    + intros c. split; [done | intros H%Hone; done].
    + intros l. split; [done | intros [-> H]; simpl in H; lia].
    + intros err [= <-]. done.
  - split; [|split; [|split]].
    + split; [done | intros H%Hnil; done].
    + intros c0. split; [intros [= <-]; by apply Hone |].
      intros H%Hone. by injection H as ->.
    + intros l. split; [done | intros [-> H]; simpl in H; lia].
    + done.
  - split; [|split; [|split]].
    + split; [done | intros H%Hnil; done].
    + intros c0. split; [done | intros H%Hone; done].
    + intros l. split; [intros [= <-]; simpl; split; [done | lia] |].
      intros [-> _]. done.
    + done.
Qed.

(** C2 (as stated) fails: with two NAME children the lookup returns the
    list of both and raises nothing. *)
Lemma getitem_ambiguous_returns_list :
  Tree.getitem two_names "NAME" = OK (Many [name_john; name_jack])
  ∧ ¬ ∃ err, Tree.getitem two_names "NAME" = Raise err.
Proof. split; [reflexivity | intros [err H]; discriminate H]. Qed.

(** ** C6: [Note.full_text] *)

Lemma full_text_loop_ok (cs : list Element) (res : string) :
  forallb is_continuation cs = true →
  full_text_loop res cs = OK (res +:+ concat_str (map continuation cs)).
Proof.
  revert res. induction cs as [|c cs IH]; intros res Hall; simpl.
  - by rewrite str_app_nil_r.
  - simpl in Hall. apply andb_true_iff in Hall as [Hc Hcs].
    unfold is_continuation in Hc. unfold continuation.
    destruct (String.eqb (tag c) "CONT") eqn:Hcont.
    + rewrite IH by done. by rewrite !str_app_assoc.
    + simpl in Hc. rewrite Hc, IH by done. by rewrite str_app_nil_l, !str_app_assoc.
Qed.

Lemma full_text_loop_bad (cs : list Element) (res : string) :
  forallb is_continuation cs = false →
  full_text_loop res cs = Raise ValueError.
Proof.
  revert res. induction cs as [|c cs IH]; intros res Hall; simpl in *; [done|].
  unfold is_continuation in Hall.
  destruct (String.eqb (tag c) "CONT"); [by apply IH|].
  destruct (String.eqb (tag c) "CONC"); [by apply IH | done].
Qed.

(** A note that has a value of its own: the text is the value followed by
    the continuations, left to right; any other child tag is a
    [ValueError]. *)
Lemma full_text_with_value (e : Element) (v : string) :
  cls e = KNote → value e = Some v →
  full_text e =
    if forallb is_continuation (child_elements e)
    then OK (v +:+ concat_str (map continuation (child_elements e)))
    else Raise ValueError.
Proof.
  intros Hcls Hv. unfold full_text. rewrite Hcls, Hv.
  rewrite bool_decide_eq_true_2 by done. unfold rbind. cbv zeta.
  assert ((if truthy (Some ("" +:+ v)) then "" +:+ v else "") = v) as ->
    by (by destruct v).
  destruct (forallb is_continuation (child_elements e)) eqn:Hall.
  - by apply full_text_loop_ok.
  - by apply full_text_loop_bad.
Qed.

Example full_text_hello :
  full_text note_hello = OK ("Hello" +:+ String newline "World!").
Proof. reflexivity. Qed.

(** C6 (the code at the failing input): the lines [0 NOTE], [1 CONT World]
    parse to a note without a value of its own, all of whose children are
    continuations, and [full_text] raises [TypeError] on it instead of
    returning the continuation text. *)
Theorem full_text_without_value :
  (do st <- Parser.parse ["0 NOTE"; "1 CONT World"]; OK (root_trees st))
    = OK (Some [note_no_value])
  ∧ forallb is_continuation (child_elements note_no_value) = true
  ∧ full_text note_no_value = Raise TypeError.
Proof. repeat split; vm_compute; reflexivity. Qed.

(** ** C8: [set_levels_downward] *)

Lemma set_levels_from_unfold (l : Z) (e : Element) :
  set_levels_from (Some l) e =
    do cs <- rmap (set_levels_from (Some (l + 1))) (child_elements e);
    OK (mkElement (cls e) (Some l) (tag e) (value e) (id e) cs).
Proof.
  destruct e as [k lv t v i cs]. simpl. f_equal.
  induction cs as [|c cs IH]; simpl; [done | by rewrite IH].
Qed.

Lemma set_levels_from_ok (e : Element) :
  ∀ l, ∃ e', set_levels_from (Some l) e = OK e'
             ∧ level e' = Some l
             ∧ levels_consistent e' = true
             ∧ unlevel e' = unlevel e.
Proof.
  induction e as [k lv t v i cs IH] using Element_ind'. intros l.
  rewrite set_levels_from_unfold. simpl.
  assert (∃ cs', rmap (set_levels_from (Some (l + 1))) cs = OK cs'
                 ∧ forallb (λ c, bool_decide (level c = Some (l + 1))
                                 && levels_consistent c) cs' = true
                 ∧ map unlevel cs' = map unlevel cs) as (cs' & -> & Hlv & Hun).
  { induction IH as [|c cs Hc _ IHcs]; simpl; [by exists []|].
    destruct (Hc (l + 1)) as (c' & -> & Hl & Hcons & Hu).
    destruct IHcs as (cs' & -> & Hall & Hmap). simpl.
    exists (c' :: cs'). simpl. rewrite Hl, Hcons, Hall, Hu, Hmap.
    split; [done|]. split; [|done]. by rewrite bool_decide_eq_true_2. }
  eexists. split; [done|]. simpl. by rewrite Hlv, Hun.
Qed.

Lemma set_levels_from_relevel (e : Element) :
  ∀ l, set_levels_from (Some l) e = OK (relevel l e).
Proof.
  induction e as [k lv t v i cs IH] using Element_ind'. intros l.
  rewrite set_levels_from_unfold. simpl.
  assert (rmap (set_levels_from (Some (l + 1))) cs = OK (map (relevel (l + 1)) cs))
    as ->; [|done].
  induction IH as [|c cs Hc _ IHcs]; simpl; [done|]. by rewrite Hc, IHcs.
Qed.

Lemma levels_consistent_relevel (l : Z) (e : Element) :
  levels_consistent (relevel l e) = true ∧ unlevel (relevel l e) = unlevel e.
Proof.
  destruct (set_levels_from_ok e l) as (e' & He' & _ & Hc & Hu).
  rewrite set_levels_from_relevel in He'. injection He' as <-. done.
Qed.

(** *** With the back-reference *)

Lemma Linked_Element_rect' (P : Linked.Element → Type)
    (Q : list Linked.Element → Type) :
  Q [] →
  (∀ c cs, P c → Q cs → Q (c :: cs)) →
  (∀ k lv t v i f cs, Q cs → P (Linked.mkElement k lv t v i f cs)) →
  ∀ e, P e.
Proof.
  intros Hnil Hcons Hnode.
  fix IH 1. intros [k lv t v i f cs]. apply Hnode.
  induction cs as [|c cs IHcs]; [exact Hnil | exact (Hcons c cs (IH c) IHcs)].
Defined.

Lemma Linked_Element_ind' (P : Linked.Element → Prop) :
  (∀ k lv t v i f cs, Forall P cs → P (Linked.mkElement k lv t v i f cs)) →
  ∀ e, P e.
Proof.
  intros Hnode. apply (Linked_Element_rect' P (Forall P)); auto.
Qed.

Lemma linked_set_levels_from_unfold (l : Z) (f : option Linked.fileref)
    (e : Linked.Element) :
  Linked.set_levels_from (Some l) f e =
    do cs <- rmap (Linked.set_levels_from (Some (l + 1)) f) (Linked.child_elements e);
    OK (Linked.mkElement (Linked.cls e) (Some l) (Linked.tag e) (Linked.value e)
                         (Linked.id e) f cs).
Proof.
  destruct e as [k lv t v i f0 cs]. simpl. f_equal.
  induction cs as [|c cs IH]; simpl; [done | by rewrite IH].
Qed.

Lemma linked_set_levels_from_relink (e : Linked.Element) :
  ∀ l f, Linked.set_levels_from (Some l) f e = OK (relink l f e).
Proof.
  induction e as [k lv t v i f0 cs IH] using Linked_Element_ind'. intros l f.
  rewrite linked_set_levels_from_unfold. simpl.
  assert (rmap (Linked.set_levels_from (Some (l + 1)) f) cs
          = OK (map (relink (l + 1) f) cs)) as ->; [|done].
  induction IH as [|c cs Hc _ IHcs]; simpl; [done|]. by rewrite Hc, IHcs.
Qed.

Lemma erase_relink (e : Linked.Element) :
  ∀ l f, Linked.erase (relink l f e) = relevel l (Linked.erase e).
Proof.
  induction e as [k lv t v i f0 cs IH] using Linked_Element_ind'. intros l f.
  simpl. f_equal. rewrite !map_map.
  induction IH as [|c cs Hc _ IHcs]; simpl; [done|]. by rewrite Hc, IHcs.
Qed.

Lemma same_file_relink (e : Linked.Element) :
  ∀ l f, same_file f (relink l f e) = true.
Proof.
  induction e as [k lv t v i f0 cs IH] using Linked_Element_ind'. intros l f.
  simpl. rewrite bool_decide_eq_true_2 by done. simpl.
  induction IH as [|c cs Hc _ IHcs]; simpl; [done|]. by rewrite Hc, IHcs.
Qed.

(** Without the back-references, this is the function of [Tree]. *)
Lemma erase_set_levels_downward (e : Linked.Element) :
  (do e' <- Linked.set_levels_downward e; OK (Linked.erase e'))
  = Tree.set_levels_downward (Linked.erase e).
Proof.
  unfold Linked.set_levels_downward, Tree.set_levels_downward.
  assert (level (Linked.erase e) = Linked.level e) as -> by (by destruct e).
  destruct (Linked.level e) as [l|]; [|by destruct e].
  rewrite linked_set_levels_from_relink, set_levels_from_relevel. simpl.
  by rewrite erase_relink.
Qed.

(** C8 (as the code has it): [set_levels_downward] raises [TypeError]
    exactly when the level of the root is not set, and for every integer
    level of the root, negative or not, it succeeds, keeps the level of
    the root, and leaves every child one level below its parent
    throughout the subtree. Besides the levels it assigns the
    [gedcom_file] of the root to every element below it; classes, tags,
    values, ids and the nesting stay as they are. *)
Theorem set_levels_downward_cases (e : Linked.Element) :
  (Linked.level e = None ↔ Linked.set_levels_downward e = Raise TypeError)
  ∧ (∀ l, Linked.level e = Some l ↔
          ∃ e', Linked.set_levels_downward e = OK e'
                ∧ Linked.level e' = Some l
                ∧ levels_consistent (Linked.erase e') = true
                ∧ unlevel (Linked.erase e') = unlevel (Linked.erase e)
                ∧ same_file (Linked.gedcom_file e) e' = true).
Proof.
  unfold Linked.set_levels_downward. destruct (Linked.level e) as [l|] eqn:Hl.
  - rewrite linked_set_levels_from_relink.
    pose proof (levels_consistent_relevel l (Linked.erase e)) as [Hc Hu].
    split; [split; done|].
    intros l'. split.
    + intros [= <-]. eexists. split; [done|]. rewrite erase_relink.
      split; [by destruct e|]. split; [done|]. split; [done|].
      apply same_file_relink.
    + intros (e' & [= <-] & Hl' & _). destruct e. simpl in Hl'. congruence.
  - assert (Linked.set_levels_from None (Linked.gedcom_file e) e = Raise TypeError)
      as -> by (by destruct e).
    split; [done|]. intros l. split; [done|].
    intros (e' & He' & _). done.
Qed.

(** C8 (as stated) fails: a root whose level is the negative integer -1
    is accepted, and its child is put at level 0 (and, the root having no
    file, is left without file). *)
Lemma set_levels_downward_negative_root :
  Linked.level detached_below_zero = Some (-1)
  ∧ Linked.set_levels_downward detached_below_zero =
      OK (Linked.mkElement KElement (Some (-1)) "NOTE" None None None
            [Linked.mkElement KElement (Some 0) "CONT" (Some "x") None None []]).
Proof. split; reflexivity. Qed.

(** ** Fallible comprehensions *)

Lemma rfilter_OK_inv {A} (p : A → result bool) (l sel : list A) :
  rfilter p l = OK sel → Forall (λ x, ∃ b, p x = OK b) l.
Proof.
  revert sel. induction l as [|x l IH]; intros sel H; simpl in H; [constructor|].
  destruct (p x) as [b|] eqn:Hp; [|done]. simpl in H.
  destruct (rfilter p l) as [ys|] eqn:Hl; [|done].
  constructor; eauto.
Qed.

Lemma rfilter_first_raise {A} (p : A → result bool) (l1 l2 : list A) (x : A) err :
  Forall (λ y, ∃ b, p y = OK b) l1 → p x = Raise err →
  rfilter p (l1 ++ x :: l2) = Raise err.
Proof.
  intros Hl1 Hx. induction Hl1 as [|y l1 [b Hy] _ IH]; simpl.
  - by rewrite Hx.
  - by rewrite Hy, IH.
Qed.

Lemma rfilter_raises {A} (p : A → result bool) (l : list A) (x : A) :
  x ∈ l → (∃ err, p x = Raise err) → ∃ err, rfilter p l = Raise err.
Proof.
  intros Hin [err Hx]. induction Hin as [x l|x y l _ IH]; simpl.
  - rewrite Hx. eauto.
  - destruct (p y) as [b|err0]; simpl; [|eauto].
    destruct (IH Hx) as [err' ->]. simpl. eauto.
Qed.

(** ** Lookups by tag *)

Lemma contains_get_list (e : Element) (key : string) :
  contains e key = true ↔ get_list e key ≠ [].
Proof.
  unfold contains, get_list. induction (child_elements e) as [|c l IH]; simpl.
  - split; done.
  - rewrite filter_cons. destruct (String.eqb_spec (tag c) key) as [Heq|Hne].
    + rewrite decide_True by done. split; done.
    + rewrite decide_False by done. simpl. exact IH.
Qed.

Lemma getitem_One (e c : Element) (key : string) :
  Tree.getitem e key = OK (One c) ↔ get_list e key = [c].
Proof.
  unfold Tree.getitem, get_list.
  destruct (filter _ _) as [|c0 [|c1 l]]; split; intros H; by simplify_eq.
Qed.

Lemma getitem_nil (e : Element) (key : string) :
  get_list e key = [] → Tree.getitem e key = Raise (IndexError key).
Proof. unfold Tree.getitem, get_list. by intros ->. Qed.

(** ** C7: [Individual.aka] *)






(** An Individual without any NAME child: [aka] raises. *)
Lemma aka_no_name (e : Element) :
  cls e = KIndividual → get_list e "NAME" = [] →
  aka e = Raise (IndexError "NAME").
Proof.
  intros Hcls Hn. unfold aka. rewrite Hcls. by rewrite (getitem_nil _ _ Hn).
Qed.

(** ** C10: [Individual.father] and [Individual.mother] *)

Lemma sex_unreadable (p : Element) :
  match unreadable p with
  | Some err => sex p = Raise err ∨ sex p = OK None ∧ err = AttributeError
  | None => ∃ s, sex p = OK (Some s)
  end.
Proof.
  unfold unreadable, sex, Tree.getitem, get_list.
  destruct (bool_decide (cls p = KIndividual)); [|by left].
  destruct (filter (λ c, tag c = "SEX") (child_elements p)) as [|c [|c' l]]; simpl.
  - by left.
  - destruct (value c) as [v|]; [eauto | by right].
  - by left.
Qed.

Lemma unreadable_None (p : Element) :
  unreadable p = None ↔ ∃ s, sex p = OK (Some s).
Proof.
  pose proof (sex_unreadable p) as H. destruct (unreadable p) as [err|].
  - split; [done|]. intros [s Hs]. destruct H as [H|[H _]]; congruence.
  - done.
Qed.

Lemma is_male_unreadable (p : Element) (err : exn) :
  unreadable p = Some err → is_male p = Raise err ∧ is_female p = Raise err.
Proof.
  intros Hp. pose proof (sex_unreadable p) as H. rewrite Hp in H.
  unfold is_male, is_female. destruct H as [-> | [-> ->]]; done.
Qed.

Lemma is_male_readable (p : Element) :
  (∃ s, sex p = OK (Some s)) → (∃ b, is_male p = OK b) ∧ (∃ b, is_female p = OK b).
Proof. intros [s Hs]. unfold is_male, is_female. rewrite Hs. simpl. eauto. Qed.

Lemma is_male_reads_sex (q : Element) (b : bool) :
  is_male q = OK b → ∃ s, sex q = OK (Some s).
Proof.
  unfold is_male. destruct (sex q) as [[s|]|]; simpl; [eauto | done..].
Qed.

Lemma is_female_reads_sex (q : Element) (b : bool) :
  is_female q = OK b → ∃ s, sex q = OK (Some s).
Proof.
  unfold is_female. destruct (sex q) as [[s|]|]; simpl; [eauto | done..].
Qed.

Lemma unreadable_range (p : Element) (err : exn) :
  unreadable p = Some err → err = IndexError "SEX" ∨ err = AttributeError.
Proof.
  unfold unreadable. repeat case_match; intros [= <-]; auto.
Qed.

Lemma unreadable_no_sex (p : Element) :
  get_list p "SEX" = [] → unreadable p ≠ None.
Proof. unfold unreadable. intros ->. by case_bool_decide. Qed.

(** The first of the parents whose sex cannot be read. *)
Lemma first_unreadable (ps : list Linked.Element) (p : Linked.Element) :
  p ∈ ps → unreadable (Linked.erase p) ≠ None →
  ∃ l1 q l2 err,
    ps = l1 ++ q :: l2
    ∧ Forall (λ x, ∃ s, sex (Linked.erase x) = OK (Some s)) l1
    ∧ unreadable (Linked.erase q) = Some err.
Proof.
  intros Hin Hp. induction Hin as [p ps|p x ps _ IH].
  - destruct (unreadable (Linked.erase p)) as [err|] eqn:Herr; [|done].
    exists [], p, ps, err. by split; [|split; [constructor|]].
  - destruct (unreadable (Linked.erase x)) as [err|] eqn:Herr.
    + exists [], x, ps, err. by split; [|split; [constructor|]].
    + destruct (IH Hp) as (l1 & q & l2 & err & -> & Hl1 & Hq).
      exists (x :: l1), q, l2, err. split; [done|]. split; [|done].
      constructor; [by apply unreadable_None | done].
Qed.

(** C10 (as the code has it): with [ps] the parents of [e], [father] and
    [mother] return only when the SEX child of every parent has been read
    as a string. Both test the parents in the order of [ps], so when
    some parent's sex cannot be read, both raise the exception of the
    first such parent: the [IndexError] of the lookup when it is an
    Individual without SEX child, and an [AttributeError] when it has
    several SEX children, a SEX child without value, or is not an
    Individual. So a parent without SEX child, whatever its place among
    the parents and whatever its sex would have been, makes both raise,
    with one of these two exceptions. *)
Theorem father_mother_read_every_sex (files : Linked.store)
    (e : Linked.Element) (ps : list Linked.Element) :
  Linked.parents files e = OK ps →
  (∀ r, Linked.father files e = OK r ∨ Linked.mother files e = OK r →
        Forall (λ q, ∃ s, sex (Linked.erase q) = OK (Some s)) ps)
  ∧ (∀ l1 p l2 err,
       ps = l1 ++ p :: l2 →
       Forall (λ q, ∃ s, sex (Linked.erase q) = OK (Some s)) l1 →
       unreadable (Linked.erase p) = Some err →
       Linked.father files e = Raise err ∧ Linked.mother files e = Raise err)
  ∧ (∀ p, p ∈ ps → get_list (Linked.erase p) "SEX" = [] →
       ∃ err, Linked.father files e = Raise err
              ∧ Linked.mother files e = Raise err
              ∧ (err = IndexError "SEX" ∨ err = AttributeError))
  ∧ (∀ p, unreadable p = None ↔ ∃ s, sex p = OK (Some s)).
Proof.
  intros Hps.
  assert (∀ l1 p l2 err,
            ps = l1 ++ p :: l2 →
            Forall (λ q, ∃ s, sex (Linked.erase q) = OK (Some s)) l1 →
            unreadable (Linked.erase p) = Some err →
            Linked.father files e = Raise err ∧ Linked.mother files e = Raise err)
    as Hfirst.
  { intros l1 p l2 err -> Hl1 Hp. unfold Linked.father, Linked.mother.
    rewrite Hps. simpl.
    destruct (is_male_unreadable _ _ Hp) as [Hm Hf]. split.
    - rewrite (rfilter_first_raise _ l1 l2 p err); [done| |done].
      eapply Forall_impl; [exact Hl1|]. intros q Hq.
      by destruct (is_male_readable _ Hq).
    - rewrite (rfilter_first_raise _ l1 l2 p err); [done| |done].
      eapply Forall_impl; [exact Hl1|]. intros q Hq.
      by destruct (is_male_readable _ Hq). }
  split; [|split; [exact Hfirst|split; [|apply unreadable_None]]].
  - unfold Linked.father, Linked.mother. rewrite Hps. simpl. intros r [H|H].
    + destruct (rfilter _ ps) as [sel|] eqn:Hsel; [|done].
      apply rfilter_OK_inv in Hsel. eapply Forall_impl; [exact Hsel|].
      intros q [b Hb]. by eapply is_male_reads_sex.
    + destruct (rfilter _ ps) as [sel|] eqn:Hsel; [|done].
      apply rfilter_OK_inv in Hsel. eapply Forall_impl; [exact Hsel|].
      intros q [b Hb]. by eapply is_female_reads_sex.
  - intros p Hin Hsex.
    destruct (first_unreadable ps p Hin (unreadable_no_sex _ Hsex))
      as (l1 & q & l2 & err & Heq & Hl1 & Hq).
    destruct (Hfirst l1 q l2 err Heq Hl1 Hq) as [Hf Hm].
    exists err. split; [done|]. split; [done|]. by eapply unreadable_range.
Qed.

Lemma father_mother_read_every_sex_witness :
  Linked.parents family_store child_in_file
  = OK [Linked.link (Some 0%nat) husband; Linked.link (Some 0%nat) wife]
  ∧ unreadable wife = Some (IndexError "SEX")
  ∧ Linked.father family_store child_in_file = Raise (IndexError "SEX")
  ∧ Linked.mother family_store child_in_file = Raise (IndexError "SEX").
Proof.
  assert (Linked.parents family_store child_in_file
          = OK [Linked.link (Some 0%nat) husband; Linked.link (Some 0%nat) wife])
    as Hps by (vm_compute; reflexivity).
  split; [exact Hps|]. split; [reflexivity|].
  apply (proj1 (proj2 (father_mother_read_every_sex family_store child_in_file _ Hps))
           [Linked.link (Some 0%nat) husband] (Linked.link (Some 0%nat) wife) []).
  - reflexivity.
  - repeat constructor. exists "M". reflexivity.
  - reflexivity.
Defined.

(** C10 (as stated) fails: the wife has no SEX child, but the husband,
    who comes first among the parents, has two, and the exception that
    [father] and [mother] raise is the [AttributeError] of reading the
    value of a list, not the error of a lookup. *)
Lemma father_mother_attribute_error :
  Linked.parents two_sexes_store child_in_file
  = OK [Linked.link (Some 0%nat) two_sexes; Linked.link (Some 0%nat) wife]
  ∧ get_list wife "SEX" = []
  ∧ Linked.father two_sexes_store child_in_file = Raise AttributeError
  ∧ Linked.mother two_sexes_store child_in_file = Raise AttributeError.
Proof. repeat split; vm_compute; reflexivity. Qed.

(** A spouse element that was attached to its family before the family
    had a file refers to no file, and dereferencing it is a [TypeError],
    though the individual and the family are in the file. *)
Example parents_detached_spouse :
  Linked.parents detached_spouses_store child_in_file = Raise TypeError.
Proof. vm_compute. reflexivity. Qed.

(** ** C9: id allocation in [GedcomFile.add_element] *)

Lemma find_free_id_spec (steps : nat) (prefix : string)
    (ptrs : gmap string Element) :
  ∀ next next' found,
    find_free_id steps prefix ptrs next = (next', found) →
    next ≤ next'
    ∧ ∀ i, found = Some i →
           ∃ n, next ≤ n ∧ next' = n + 1 ∧ i = mk_id prefix n
                ∧ ptrs !! i = None
                ∧ ∀ m, next ≤ m < n → is_Some (ptrs !! mk_id prefix m).
Proof.
  induction steps as [|steps IH]; intros next next' found H; simpl in H.
  - injection H as <- <-. split; [lia | done].
  - fold (mk_id prefix next) in H.
    destruct (decide (is_Some (ptrs !! mk_id prefix next))) as [Htaken|Hfree].
    + apply IH in H as [Hle Hfound]. split; [lia|].
      intros i Hi. destruct (Hfound i Hi) as (n & Hn & -> & -> & Hnone & Hskip).
      exists n. repeat split; [lia | done |].
      intros m Hm. destruct (decide (m = next)) as [->|Hne]; [done|].
      apply Hskip. lia.
    + injection H as <- <-. split; [lia|].
      intros i [= <-]. exists next. repeat split; [lia | | intros m Hm; lia].
      by apply eq_None_not_Some.
Qed.

Lemma set_levels_downward_level_0 (e : Element) :
  ∃ e', set_levels_downward (with_level (Some 0) e) = OK e'
        ∧ cls e' = cls e ∧ id e' = id e ∧ level e' = Some 0.
Proof.
  unfold set_levels_downward.
  change (level (with_level (Some 0) e)) with (Some 0).
  destruct (set_levels_from_ok (with_level (Some 0) e) 0) as (e' & He' & _).
  rewrite He'. exists e'. split; [done|].
  rewrite set_levels_from_unfold in He'.
  destruct (rmap _ _) as [cs|]; simpl in He'; [|done].
  injection He' as <-. done.
Qed.

Lemma add_element_counter (gf : GedcomFile) (e : Element) :
  next_free_id gf ≤ next_free_id (add_element gf e).1
  ∧ (level e = None → ∀ e', (add_element gf e).2 = OK e' →
       ∃ n, allocated (mkCall gf e (add_element gf e).1 (add_element gf e).2) n
            ∧ id e' = Some (mk_id (if bool_decide (cls e = KIndividual)
                                  then "I" else "F") n)
            ∧ pointers gf !! mk_id (if bool_decide (cls e = KIndividual)
                                    then "I" else "F") n = None
            ∧ ∀ m, next_free_id gf ≤ m < n →
                   is_Some (pointers gf !! mk_id (if bool_decide (cls e = KIndividual)
                                                  then "I" else "F") m)).
Proof.
  unfold add_element. generalize max_steps. intros steps.
  destruct (level e) as [l|] eqn:Hlevel.
  { split; [simpl; lia | done]. }
  destruct (bool_decide (cls e = KIndividual)) eqn:Hind;
    destruct (bool_decide (cls e = KFamily)) eqn:Hfam; simpl negb; cbv iota;
    try (split; [simpl; lia | done]).
  all: destruct (set_levels_downward_level_0 e) as (e0 & -> & Hcls & Hid & Hlv).
  all: rewrite Hcls, Hind.
  all: destruct (find_free_id steps _ (pointers gf) (next_free_id gf))
         as [next found] eqn:Hfind.
  all: apply find_free_id_spec in Hfind as [Hle Hfound].
  all: destruct found as [i|]; [|split; [simpl; lia | done]].
  all: destruct (Hfound i eq_refl) as (n & Hn & -> & -> & Hnone & Hskip).
  all: cbn [fst snd next_free_id].
  all: split; [lia|]; intros _ e' [= <-]; exists n.
  all: split; [|done].
  all: unfold allocated; cbn [arg before after outcome next_free_id].
  all: split; [done|]; split; [lia|]; eexists; split; [done|].
  all: apply bool_decide_eq_true in Hind || apply bool_decide_eq_true in Hfam.
  all: auto.
Qed.

Lemma counter_chain_lookup (calls : list call) :
  ∀ lo j c, counter_chain lo calls → calls !! j = Some c →
            lo ≤ next_free_id (before c) ≤ next_free_id (after c).
Proof.
  induction calls as [|c0 calls IH]; intros lo j c Hchain Hj; [done|].
  destruct Hchain as (Hlo & Hle & Hrest). destruct j as [|j]; simpl in Hj.
  - injection Hj as <-. lia.
  - specialize (IH _ _ _ Hrest Hj). lia.
Qed.

Lemma counter_chain_ordered (calls : list call) :
  ∀ lo i j ci cj, counter_chain lo calls → (i < j)%nat →
                  calls !! i = Some ci → calls !! j = Some cj →
                  next_free_id (after ci) ≤ next_free_id (before cj).
Proof.
  induction calls as [|c0 calls IH]; intros lo i j ci cj Hchain Hij Hi Hj; [done|].
  destruct Hchain as (Hlo & Hle & Hrest).
  destruct j as [|j]; [lia|]. simpl in Hj. destruct i as [|i]; simpl in Hi.
  - injection Hi as <-. pose proof (counter_chain_lookup _ _ _ _ Hrest Hj). lia.
  - eapply IH; [exact Hrest | | exact Hi | exact Hj]. lia.
Qed.

Lemma add_elements_chain (es : list Element) :
  ∀ gf, counter_chain (next_free_id gf) (add_elements gf es).
Proof.
  induction es as [|e es IH]; intros gf; simpl; [done|].
  pose proof (add_element_counter gf e) as [Hle _].
  destruct (add_element gf e) as [gf' r]. simpl in *. auto.
Qed.

(** C9: along any sequence of calls of [add_element] on a file, the
    counter never decreases, skipped candidates included; a call that
    allocates an id gives the element the id [@I<n>@] (Individual) or
    [@F<n>@] (Family) where [n] is the first number from the counter on
    whose id is not bound in the pointer table of the file at that moment;
    and the numbers allocated by successive calls are strictly ascending. *)
Theorem add_element_allocates_fresh_ascending (gf : GedcomFile) (es : list Element) :
  counter_chain (next_free_id gf) (add_elements gf es)
  ∧ Forall (λ c, level (arg c) = None → ∀ e', outcome c = OK e' →
              ∃ n pfx, allocated c n
                       ∧ id e' = Some (mk_id pfx n)
                       ∧ pointers (before c) !! mk_id pfx n = None
                       ∧ ∀ m, next_free_id (before c) ≤ m < n →
                              is_Some (pointers (before c) !! mk_id pfx m))
           (add_elements gf es)
  ∧ ∀ i j ci cj ni nj,
      (i < j)%nat →
      add_elements gf es !! i = Some ci → add_elements gf es !! j = Some cj →
      allocated ci ni → allocated cj nj → ni < nj.
Proof.
  split; [apply add_elements_chain|]. split.
  - revert gf. induction es as [|e es IH]; intros gf; simpl; [constructor|].
    pose proof (add_element_counter gf e) as [_ Halloc].
    destruct (add_element gf e) as [gf' r]. constructor; [|apply IH].
    simpl in *. intros Hlevel e' He'.
    destruct (Halloc Hlevel e' He') as (n & Hn & Hid & Hfree & Hskip).
    eauto 10.
  - intros i j ci cj ni nj Hij Hi Hj (_ & Hni & _) (_ & Hnj & _).
    pose proof (counter_chain_ordered _ _ _ _ _ _
                  (add_elements_chain es gf) Hij Hi Hj).
    lia.
Qed.

Example add_element_skips_taken :
  (add_element taken_file fresh_individual).2
    = OK (mkElement KIndividual (Some 0) "INDI" None (Some "@I3@") [])
  ∧ next_free_id (add_element taken_file fresh_individual).1 = 4.
Proof. vm_compute. split; reflexivity. Qed.

Example add_element_rejects_other_classes :
  (add_element Document.new (mkElement KNote None "NOTE" None None [])).2
    = Raise TypeError.
Proof. vm_compute. reflexivity. Qed.

(** ** Strings: prefixes, ends and stripping *)

Lemma span_app (p : ascii → bool) (s : string) :
  ∀ a b, span p s = (a, b) →
         s = a +:+ b ∧ all_chars p a = true ∧ head_not p b = true.
Proof.
  induction s as [|c s IH]; intros a b H; simpl in H.
  - by injection H as <- <-.
  - destruct (p c) eqn:Hc.
    + destruct (span p s) as [a' b'] eqn:Hs. injection H as <- <-.
      destruct (IH _ _ eq_refl) as (-> & Ha & Hb).
      rewrite str_app_cons. simpl. by rewrite Hc, Ha.
    + injection H as <- <-. unfold head_not. simpl. by rewrite Hc.
Qed.

Lemma span_intro (p : ascii → bool) (a b : string) :
  all_chars p a = true → head_not p b = true → span p (a +:+ b) = (a, b).
Proof.
  intros Ha Hb. induction a as [|c a IH].
  - rewrite str_app_nil_l. destruct b as [|c b]; [done|].
    unfold head_not in Hb. simpl in *. by destruct (p c).
  - simpl in Ha. apply andb_true_iff in Ha as [Hc Ha].
    rewrite str_app_cons. simpl. by rewrite Hc, IH.
Qed.

Lemma last_char_app (a b : string) :
  b ≠ "" → last_char (a +:+ b) = last_char b.
Proof.
  intros Hb. induction a as [|c a IH]; [done|].
  rewrite str_app_cons. simpl. rewrite IH.
  destruct (a +:+ b) eqn:Hab; [|done].
  destruct a; [|done]. by rewrite str_app_nil_l in Hab.
Qed.

Lemma rstrip_fixed (s : string) :
  last_not isspace s = true → rstrip s = s.
Proof.
  unfold last_not. induction s as [|c s IH]; [done|]. simpl.
  destruct s as [|c' s].
  - simpl. by destruct (isspace c).
  - intros H. rewrite IH by done. done.
Qed.

Lemma lstrip_fixed (s : string) :
  head_not isspace s = true → lstrip s = s.
Proof.
  unfold head_not. destruct s as [|c s]; [done|]. simpl. by destruct (isspace c).
Qed.

Lemma strip_fixed (s : string) :
  head_not isspace s = true → last_not isspace s = true → strip s = s.
Proof.
  intros Hh Hl. unfold strip. rewrite (rstrip_fixed _ Hl). by apply lstrip_fixed.
Qed.

Lemma rstrip_last (s : string) : last_not isspace (rstrip s) = true.
Proof.
  unfold last_not. induction s as [|c s IH]; [done|]. simpl.
  destruct (rstrip s) as [|c' r] eqn:Hr.
  - destruct (isspace c) eqn:Hc; [done|]. simpl. by rewrite Hc.
  - exact IH.
Qed.

Lemma lstrip_last (s : string) :
  last_not isspace s = true → last_not isspace (lstrip s) = true.
Proof.
  unfold last_not. induction s as [|c s IH]; [done|]. simpl.
  destruct (isspace c) eqn:Hc; [|done].
  destruct s as [|c' s]; [done|]. exact IH.
Qed.

Lemma strip_last (s : string) : last_not isspace (strip s) = true.
Proof. unfold strip. apply lstrip_last, rstrip_last. Qed.

Lemma strip_head (s : string) : head_not isspace (strip s) = true.
Proof.
  unfold strip. induction (rstrip s) as [|c r IH]; [done|]. simpl.
  destruct (isspace c) eqn:Hc; [exact IH|]. unfold head_not. simpl. by rewrite Hc.
Qed.

Lemma strip_idempotent (s : string) : strip (strip s) = strip s.
Proof. apply strip_fixed; [apply strip_head | apply strip_last]. Qed.

Lemma newline_isspace (c : ascii) : is_newline c = true → isspace c = true.
Proof.
  unfold is_newline, isspace, in_range. intros ->%N.eqb_eq. reflexivity.
Qed.

(** ** Decimal numerals *)

Lemma string_of_uint_digits (d : Decimal.uint) :
  all_chars is_digit (NilEmpty.string_of_uint d) = true.
Proof. induction d; simpl; [done | exact IHd..]. Qed.

Lemma digits_uint_of_string (s : string) :
  all_chars is_digit s = true → ∃ d, NilEmpty.uint_of_string s = Some d.
Proof.
  induction s as [|c s IH]; simpl; [eauto|].
  intros [Hc Hs]%andb_true_iff. destruct (IH Hs) as [d ->].
  destruct c as [[|] [|] [|] [|] [|] [|] [|] [|]];
    try (vm_compute in Hc; discriminate Hc); simpl; eauto.
Qed.

Lemma int_of_digits_total (s : string) :
  all_chars is_digit s = true → ∃ z, int_of_digits s = Some z ∧ 0 ≤ z.
Proof.
  intros [d Hd]%digits_uint_of_string. unfold int_of_digits. rewrite Hd.
  eexists. split; [done|]. unfold Z.of_uint. apply N2Z.is_nonneg.
Qed.

Lemma str_of_int_uint (z : Z) :
  0 ≤ z → ∃ d, str_of_int z = NilEmpty.string_of_uint d
               ∧ d ≠ Decimal.Nil ∧ Z.of_uint d = z.
Proof.
  intros Hz. destruct z as [|p|p]; [| |lia].
  - exists (Decimal.D0 Decimal.Nil). done.
  - exists (Pos.to_uint p). split; [done|].
    split; [apply DecimalPos.Unsigned.to_uint_nonnil|].
    unfold Z.of_uint. by rewrite DecimalPos.Unsigned.of_to.
Qed.

Lemma int_of_digits_str_of_int (z : Z) :
  0 ≤ z → int_of_digits (str_of_int z) = Some z.
Proof.
  intros (d & -> & _ & Hd)%str_of_int_uint. unfold int_of_digits.
  by rewrite NilEmpty.usu, Hd.
Qed.

Lemma str_of_int_wf (z : Z) : 0 ≤ z → wf_level (str_of_int z) = true.
Proof.
  intros (d & -> & Hnil & _)%str_of_int_uint. unfold wf_level.
  rewrite string_of_uint_digits. by destruct d.
Qed.

(** ** LineCodec: the pattern and the text of a line *)

Lemma literal_Some (c : ascii) (s r : string) :
  literal c s = Some r ↔ s = String c r.
Proof.
  destruct s as [|c' s]; simpl; [split; done|].
  destruct (Ascii.eqb_spec c' c) as [->|Hne]; split; intros H; by simplify_eq.
Qed.

Lemma literal_None (c : ascii) (s : string) :
  literal c s = None ↔ head_char s ≠ Some c.
Proof.
  destruct s as [|c' s]; simpl; [split; done|].
  destruct (Ascii.eqb_spec c' c) as [->|Hne]; split; intros H; try done.
  congruence.
Qed.

Lemma last_not_app (p : ascii → bool) (a b : string) :
  last_not p (a +:+ b) = true → last_not p b = true.
Proof.
  destruct b as [|c b]; [done|]. unfold last_not.
  by rewrite last_char_app.
Qed.

Lemma last_not_app_r (p : ascii → bool) (a b : string) :
  b ≠ "" → last_not p b = true → last_not p (a +:+ b) = true.
Proof. intros Hb. unfold last_not. by rewrite last_char_app. Qed.

Lemma at_dollar_stripped (s : string) :
  at_dollar s = true → last_not isspace s = true → s = "".
Proof.
  destruct s as [|c [|c' s]]; simpl; [done| |done].
  intros Hc%newline_isspace. unfold last_not. simpl. by rewrite Hc.
Qed.

Lemma str_eqb_empty (s : string) : String.eqb s "" = false ↔ s ≠ "".
Proof. apply String.eqb_neq. Qed.

Lemma match_value_inv (r : string) (v : option string) :
  match_value r = Some v → last_not isspace r = true →
  r = value_part v ∧ wf_value v = true.
Proof.
  unfold match_value. intros H Hlast.
  destruct (literal " " r) as [v0|] eqn:Hlit.
  - apply literal_Some in Hlit as ->.
    destruct (span _ v0) as [v1 v2] eqn:Hspan.
    apply span_app in Hspan as (-> & Hv1 & _).
    destruct (at_dollar v2) eqn:Hv2; [|done]. injection H as <-.
    change (String " " (v1 +:+ v2)) with ((" " +:+ v1) +:+ v2) in Hlast.
    pose proof (at_dollar_stripped v2 Hv2 (last_not_app _ _ _ Hlast)) as ->.
    rewrite str_app_nil_r in *. split; [done|]. simpl.
    destruct v1 as [|c v1]; [done|].
    rewrite Hv1. simpl. change (" " +:+ String c v1) with (" " +:+ String c v1) in Hlast.
    by apply (last_not_app _ " ") in Hlast.
  - destruct (at_dollar r) eqn:Hr; [|done]. injection H as <-.
    by rewrite (at_dollar_stripped r Hr Hlast).
Qed.

Lemma match_tag_inv (r tg : string) (v : option string) :
  match_tag r = Some (tg, v) → last_not isspace r = true →
  r = tg +:+ value_part v ∧ wf_tag tg = true ∧ wf_value v = true.
Proof.
  unfold match_tag. intros H Hlast.
  destruct (span is_tag_char r) as [tg' r'] eqn:Hspan.
  apply span_app in Hspan as (-> & Htg & _).
  destruct (String.eqb tg' "") eqn:Hne; [done|].
  destruct (match_value r') as [v'|] eqn:Hv; [|done]. injection H as <- <-.
  apply match_value_inv in Hv as [-> Hwf]; [|by eapply last_not_app].
  split; [done|]. split; [|done]. unfold wf_tag. by rewrite Hne, Htg.
Qed.

Lemma match_id_inv (r r2 : string) (i : option string) :
  match_id r = Some (i, r2) →
  r = match i with Some i => i +:+ " " +:+ r2 | None => r2 end
  ∧ wf_id i = true.
Proof.
  unfold match_id. intros H. destruct (literal "@" r) as [r0|] eqn:Hat.
  - apply literal_Some in Hat as ->.
    destruct (span is_id_char r0) as [body r1] eqn:Hspan.
    destruct (String.eqb body "") eqn:Hbody; [done|].
    destruct (literal "@" r1) as [r2'|] eqn:H1; [|done].
    destruct (literal " " r2') as [r3|] eqn:H2; [|done].
    injection H as <- <-.
    apply literal_Some in H1 as ->. apply literal_Some in H2 as ->.
    pose proof Hspan as (-> & Hall & _)%span_app.
    split.
    + rewrite !str_app_cons, str_app_nil_l. f_equal.
      rewrite !str_app_assoc. done.
    + simpl. rewrite str_app_nil_l.
      rewrite (span_intro is_id_char body "@" Hall eq_refl).
      by rewrite Hbody.
  - by injection H as <- <-.
Qed.

(** A stripped line that matches the pattern is the text of its groups,
    and its groups are well formed. *)
Lemma line_format_match_inv (l : string) (m : groupdict) :
  line_format_match l = Some m → last_not isspace l = true →
  l = line_of m ∧ wf_groups m = true.
Proof.
  unfold line_format_match. intros H Hlast.
  destruct (span is_digit l) as [lv r] eqn:Hspan.
  apply span_app in Hspan as (-> & Hlv & _).
  destruct (String.eqb lv "") eqn:Hne; [done|].
  destruct (literal " " r) as [r1|] eqn:Hsp; [|done].
  apply literal_Some in Hsp as ->.
  destruct (match_id r1) as [[i r2]|] eqn:Hid; [|done].
  destruct (match_tag r2) as [[tg v]|] eqn:Htag; [|done].
  injection H as <-. unfold line_of, wf_groups, wf_level. simpl.
  apply match_id_inv in Hid as [-> Hi].
  assert (last_not isspace r2 = true) as Hr2.
  { destruct i as [i|].
    - rewrite <- !str_app_assoc in Hlast.
      change (String " " ((i +:+ " ") +:+ r2))
        with ((" " +:+ i +:+ " ") +:+ r2) in Hlast.
      rewrite <- str_app_assoc in Hlast. by eapply last_not_app.
    - change (String " " r2) with (" " +:+ r2) in Hlast.
      rewrite <- str_app_assoc in Hlast. by eapply last_not_app. }
  apply match_tag_inv in Htag as (-> & Htg & Hv); [|done].
  rewrite Hne, Hlv, Hi, Htg, Hv. split; [|done].
  destruct i as [i|]; reflexivity.
Qed.

Lemma digit_not_space (c : ascii) : is_digit c = true → isspace c = false.
Proof. destruct c as [[|] [|] [|] [|] [|] [|] [|] [|]]; vm_compute; congruence. Qed.

Lemma tag_char_not_space (c : ascii) : is_tag_char c = true → isspace c = false.
Proof. destruct c as [[|] [|] [|] [|] [|] [|] [|] [|]]; vm_compute; congruence. Qed.

Lemma tag_char_not_at (c : ascii) : is_tag_char c = true → c ≠ "@"%char.
Proof. intros H ->. vm_compute in H. done. Qed.

Lemma all_chars_last (p : ascii → bool) (s : string) (c : ascii) :
  all_chars p s = true → last_char s = Some c → p c = true.
Proof.
  induction s as [|c' s IH]; [done|]. simpl.
  intros [Hc Hs]%andb_true_iff. destruct s as [|c'' s].
  - by intros [= <-].
  - by apply IH.
Qed.

Lemma match_value_intro (v : option string) :
  wf_value v = true → match_value (value_part v) = Some v.
Proof.
  destruct v as [s|]; [|done]. simpl.
  intros [[_ Hnl]%andb_true_iff _]%andb_true_iff.
  unfold match_value. change (" " +:+ s) with (String " " s). simpl.
  rewrite <- (str_app_nil_r s) at 1. by rewrite span_intro.
Qed.

Lemma match_tag_intro (tg : string) (v : option string) :
  wf_tag tg = true → wf_value v = true →
  match_tag (tg +:+ value_part v) = Some (tg, v).
Proof.
  intros [Hne Hall]%andb_true_iff Hv. unfold match_tag.
  rewrite span_intro; [|done|by destruct v].
  apply negb_true_iff in Hne. by rewrite Hne, match_value_intro.
Qed.

Lemma match_id_intro (i : option string) (rest : string) :
  wf_id i = true → head_char rest ≠ Some "@"%char →
  match_id (match i with Some i => i +:+ " " +:+ rest | None => rest end)
  = Some (i, rest).
Proof.
  intros Hi Hrest. destruct i as [p|].
  - simpl in Hi. destruct p as [|c r]; [done|]. simpl in Hi.
    destruct (span is_id_char r) as [body r1] eqn:Hspan.
    apply andb_true_iff in Hi as [[Hc Hbody]%andb_true_iff Hr1].
    apply Ascii.eqb_eq in Hc as ->. apply String.eqb_eq in Hr1 as ->.
    apply span_app in Hspan as (-> & Hall & _).
    unfold match_id. rewrite str_app_cons. simpl literal.
    rewrite str_app_assoc. rewrite span_intro by done.
    apply negb_true_iff in Hbody. by rewrite Hbody.
  - unfold match_id. apply literal_None in Hrest. by rewrite Hrest.
Qed.

(** The text of well-formed groups is a stripped line that matches the
    pattern with these groups. *)
Lemma line_format_match_line_of (m : groupdict) :
  wf_groups m = true →
  line_format_match (line_of m) = Some m ∧ strip (line_of m) = line_of m.
Proof.
  destruct m as [lv i tg v]. unfold wf_groups, line_of. simpl.
  intros [[[Hlv Hi]%andb_true_iff Htg]%andb_true_iff Hv]%andb_true_iff.
  pose proof Hlv as [Hlvne Hlvall]%andb_true_iff.
  pose proof Htg as [Htgne Htgall]%andb_true_iff.
  apply negb_true_iff in Hlvne, Htgne.
  assert (head_char (tg +:+ value_part v) ≠ Some "@"%char) as Hhead.
  { destruct tg as [|c tg]; [done|]. simpl in Htgall.
    apply andb_true_iff in Htgall as [Hc%tag_char_not_at _].
    rewrite str_app_cons. simpl. congruence. }
  split.
  - unfold line_format_match.
    rewrite span_intro; [|done|by destruct i].
    rewrite Hlvne.
    assert (id_part i +:+ " " +:+ tg +:+ value_part v
            = String " " (match i with
                          | Some i => i +:+ " " +:+ tg +:+ value_part v
                          | None => tg +:+ value_part v
                          end)) as -> by (by destruct i).
    simpl literal. cbv beta iota. rewrite match_id_intro by done.
    by rewrite match_tag_intro.
  - apply strip_fixed.
    + destruct lv as [|c lv]; [done|]. simpl in Hlvall.
      apply andb_true_iff in Hlvall as [Hc%digit_not_space _].
      unfold head_not. rewrite str_app_cons. simpl. by rewrite Hc.
    + rewrite <- !str_app_assoc. destruct v as [s|].
      * simpl in Hv. apply andb_true_iff in Hv as [[Hs _]%andb_true_iff Hl].
        apply negb_true_iff, String.eqb_neq in Hs.
        change (value_part (Some s)) with (" " +:+ s).
        rewrite <- str_app_assoc. by apply last_not_app_r.
      * rewrite str_app_nil_r. apply last_not_app_r.
        { by apply String.eqb_neq. }
        unfold last_not. destruct (last_char tg) as [c|] eqn:Hc; [|done].
        by rewrite (tag_char_not_space c (all_chars_last _ _ _ Htgall Hc)).
Qed.

(** ** Parser: one line *)

Lemma class_for_tag_default (tg d : string) :
  default_tag (class_for_tag tg) = Some d → d = tg.
Proof.
  unfold class_for_tag, tags_to_classes, register_tag.
  repeat (rewrite lookup_insert; case_decide;
          [subst tg; simpl; by intros [= <-]|]).
  rewrite lookup_empty. done.
Qed.

Lemma init_class_for_tag (tg : string) (lv : Z) (v i : option string) :
  Tree.init (class_for_tag tg) (Some lv) (Some tg) v i
  = OK (mkElement (class_for_tag tg) (Some lv) tg v i []).
Proof.
  unfold Tree.init. destruct (default_tag (class_for_tag tg)) as [d|] eqn:Hd; [|done].
  apply class_for_tag_default in Hd as ->. by rewrite String.eqb_refl.
Qed.

Lemma lookup_filter_below (l2o : gmap Z addr) (lv k : Z) :
  filter (λ kv : Z * addr, kv.1 < lv) l2o !! k
  = if decide (k < lv) then l2o !! k else None.
Proof.
  destruct (decide (k < lv)) as [Hlt|Hge].
  - destruct (l2o !! k) as [a|] eqn:Hk.
    + by apply map_lookup_filter_Some.
    + apply map_lookup_filter_None. by left.
  - apply map_lookup_filter_None. right. intros a _. done.
Qed.

(** The loop body, case by case. *)
Lemma loop_body_unfold (st : state) (lv : Z) (m : groupdict) :
  loop_body st lv m =
    let a := length (heap st) in
    if bool_decide (lv = 0) then
      OK (mkState (heap st ++ [new_object lv m None])
                  (<[lv := a]> (level_to_obj st))
                  (roots st ++ [a])
                  (bind_pointer m a (ptrs st)))
    else
      match level_to_obj st !! (lv - 1) with
      | Some p =>
          OK (mkState (alter (append_child a) p
                         (heap st ++ [new_object lv m (Some p)]))
                      (<[lv := a]> (filter (λ kv : Z * addr, kv.1 < lv)
                                           (level_to_obj st)))
                      (roots st)
                      (bind_pointer m a (ptrs st)))
      | None => Raise (KeyErrorLevel (lv - 1))
      end.
Proof.
  unfold loop_body, line_to_element. rewrite init_class_for_tag.
  destruct (bool_decide (lv = 0)) eqn:Hlv; [done|].
  rewrite lookup_filter_below. rewrite decide_True by lia.
  destruct (level_to_obj st !! (lv - 1)); done.
Qed.

Lemma parse_line_blank (st : state) (line : string) :
  strip line = "" → parse_line st line = OK st.
Proof. unfold parse_line. by intros ->. Qed.

Lemma parse_line_malformed (st : state) (line : string) :
  strip line ≠ "" → line_format_match (strip line) = None →
  parse_line st line = Raise (NotImplementedError (Some (strip line))).
Proof.
  unfold parse_line. intros Hne%String.eqb_neq ->. by rewrite Hne.
Qed.

Lemma parse_line_match (st : state) (line : string) (m : groupdict) :
  line_format_match (strip line) = Some m →
  ∃ lv, int_of_digits (g_level m) = Some lv ∧ 0 ≤ lv
        ∧ parse_line st line = loop_body st lv m.
Proof.
  intros Hm. unfold parse_line.
  destruct (String.eqb_spec (strip line) "") as [Heq|Hne].
  { rewrite Heq in Hm. done. }
  rewrite Hm. apply line_format_match_inv in Hm as [_ Hwf]; [|apply strip_last].
  unfold wf_groups, wf_level in Hwf.
  apply andb_true_iff in Hwf as [[[[_ Hd]%andb_true_iff _]%andb_true_iff _]%andb_true_iff _].
  destruct (int_of_digits_total _ Hd) as (lv & Hlv & Hpos).
  exists lv. by rewrite Hlv.
Qed.

Lemma format_line_line_of (lv : Z) (i : option string) (t : string)
    (v : option string) :
  format_line (Some lv) i t v
  = line_of (mkGroups (str_of_int lv) (or_None i) t (or_None v)).
Proof.
  unfold format_line, line_of, or_None. simpl.
  destruct i as [[|c i]|], v as [[|c' v]|]; reflexivity.
Qed.

Lemma wf_id_truthy (i : option string) : wf_id i = true → or_None i = i.
Proof. destruct i as [[|c i]|]; done. Qed.

Lemma wf_value_truthy (v : option string) : wf_value v = true → or_None v = v.
Proof. destruct v as [[|c v]|]; done. Qed.

(** ** C5: the value of a parsed line *)

(** C5 (as the code has it): the line is first stripped of the white space
    at both ends; when the stripped line matches the pattern with groups
    [m], it is, character for character, the level, the optional id, the
    tag and the optional value of [m] with their separating spaces, so the
    value is what follows the tag in the stripped line, inner white space
    included, never empty and never ending in white space; the loop body
    runs on these groups and, when it returns, the new element carries
    exactly this value, tag and id; and formatting the element gives the
    stripped line back whenever the level is written as Python prints it. *)
Theorem parse_line_value (st : state) (line : string) (m : groupdict) :
  line_format_match (strip line) = Some m →
  strip line = line_of m
  ∧ wf_groups m = true
  ∧ ∃ lv, int_of_digits (g_level m) = Some lv
          ∧ parse_line st line = loop_body st lv m
          ∧ (lv = 0 ∨ is_Some (level_to_obj st !! (lv - 1)) →
             ∃ st' o, parse_line st line = OK st'
                      ∧ heap st' !! length (heap st) = Some o
                      ∧ o_level o = lv ∧ o_id o = g_id m
                      ∧ o_tag o = g_tag m ∧ o_value o = g_value m)
          ∧ (str_of_int lv = g_level m →
             format_line (Some lv) (g_id m) (g_tag m) (g_value m) = strip line).
Proof.
  intros Hm.
  destruct (line_format_match_inv _ _ Hm (strip_last line)) as [Hline Hwf].
  split; [done|]. split; [done|].
  destruct (parse_line_match st line m Hm) as (lv & Hlv & Hpos & Hparse).
  exists lv. split; [done|]. split; [done|]. split.
  - intros Hparent. rewrite Hparse, loop_body_unfold. cbv zeta.
    destruct (bool_decide (lv = 0)) eqn:Hlv0.
    + eexists _, _. split; [done|]. simpl.
      rewrite lookup_app_r by lia. by rewrite Nat.sub_diag.
    + destruct Hparent as [->|[p Hp]]; [done|]. rewrite Hp.
      assert ((heap st ++ [new_object lv m (Some p)]) !! length (heap st)
              = Some (new_object lv m (Some p))) as Hnew.
      { rewrite lookup_app_r by lia. by rewrite Nat.sub_diag. }
      destruct (decide (p = length (heap st))) as [->|Hne].
      * eexists _, _. split; [done|]. simpl.
        rewrite list_lookup_alter_eq, Hnew. done.
      * eexists _, _. split; [done|]. simpl.
        rewrite list_lookup_alter_ne by done. rewrite Hnew. done.
  - intros Hcanon. rewrite format_line_line_of, Hcanon, Hline.
    unfold wf_groups in Hwf.
    apply andb_true_iff in Hwf as [[[_ Hi]%andb_true_iff _]%andb_true_iff Hv].
    rewrite (wf_id_truthy _ Hi), (wf_value_truthy _ Hv). by destruct m.
Qed.

Lemma parse_line_value_witness :
  line_format_match (strip padded_line)
    = Some (mkGroups "1" None "NOTE" (Some "two  words"))
  ∧ strip padded_line = "1 NOTE two  words"
  ∧ format_line (Some 1) None "NOTE" (Some "two  words") = strip padded_line.
Proof.
  assert (line_format_match (strip padded_line)
          = Some (mkGroups "1" None "NOTE" (Some "two  words"))) as Hm
    by reflexivity.
  split; [exact Hm|].
  destruct (parse_line_value initial padded_line _ Hm)
    as (Hline & _ & lv & Hlv & _ & _ & Hfmt).
  split; [exact Hline|].
  injection Hlv as <-. exact (Hfmt eq_refl).
Defined.

(** C5 (as stated) fails: the pattern alone would keep the two spaces
    that end the line in the value, but the parser strips the line first
    and the element is left with the value "hi"; and a level written with
    a leading zero is not printed back. *)
Lemma parse_line_trims_value :
  line_format_match "0 NOTE hi  "
    = Some (mkGroups "0" None "NOTE" (Some "hi  "))
  ∧ (do st <- Parser.parse ["0 NOTE hi  "]; OK (heap st))
    = OK [mkObject KNote 0 "NOTE" (Some "hi") None [] None]
  ∧ line_format_match zero_led_line
    = Some (mkGroups "01" None "NOTE" (Some "x"))
  ∧ format_line (Some 1) None "NOTE" (Some "x") ≠ zero_led_line.
Proof. repeat split; try reflexivity. discriminate. Qed.


(** ** The level stack, as a function of the levels read so far *)

Lemma open_at_snoc (ls : list Z) (l k : Z) :
  open_at (ls ++ [l]) k =
    if bool_decide (l = k) then Some (length ls)
    else if bool_decide (l = 0) then open_at ls k
    else if bool_decide (k < l) then open_at ls k
    else None.
Proof.
  unfold open_at. rewrite rev_unit. simpl. by rewrite length_rev.
Qed.

Lemma open_rev_lt (k : Z) (rls : list Z) (j : nat) :
  open_rev k rls = Some j → (j < length rls)%nat.
Proof.
  induction rls as [|l rls IH]; simpl; [done|].
  repeat case_bool_decide; intros Hj; simplify_eq; try lia; apply IH in Hj; lia.
Qed.

Lemma open_at_lt (ls : list Z) (k : Z) (j : nat) :
  open_at ls k = Some j → (j < length ls)%nat.
Proof. unfold open_at. intros H%open_rev_lt. by rewrite length_rev in H. Qed.

(** The element open at level [k] is the latest line of level [k], and
    every later line is deeper than [k] or of level 0. *)
Lemma open_at_Some (ls : list Z) (k : Z) (j : nat) :
  open_at ls k = Some j ↔
  ls !! j = Some k
  ∧ ∀ j' l', (j < j')%nat → ls !! j' = Some l' →
             l' ≠ k ∧ (l' = 0 ∨ k < l').
Proof.
  induction ls as [|l ls IH] using rev_ind.
  - split; [done | intros [H _]; done].
  - rewrite open_at_snoc. repeat case_bool_decide; subst.
    + split.
      * intros [= <-]. split; [by rewrite list_lookup_middle|].
        intros j' l' Hj' Hl'. apply lookup_lt_Some in Hl'.
        rewrite length_app in Hl'. simpl in Hl'. lia.
      * intros [Hj Hlater]. f_equal.
        destruct (decide (j = length ls)) as [->|Hne]; [done|].
        assert (j < length ls)%nat.
        { apply lookup_lt_Some in Hj. rewrite length_app in Hj. simpl in Hj. lia. }
        destruct (Hlater (length ls) k); [done | by rewrite list_lookup_middle | done].
    + rewrite IH. split.
      * intros [Hj Hlater]. split; [by apply lookup_app_l_Some|].
        intros j' l' Hj' Hl'. apply lookup_snoc_Some in Hl' as [[? ?]|[? <-]]; eauto.
      * intros [Hj Hlater].
        assert (j < length ls)%nat.
        { apply lookup_snoc_Some in Hj as [[? ?]|[? ?]]; [done | congruence]. }
        split; [by rewrite lookup_app_l in Hj|].
        intros j' l' Hj' Hl'. apply (Hlater j' l'); [done|].
        by apply lookup_app_l_Some.
    + rewrite IH. split.
      * intros [Hj Hlater]. split; [by apply lookup_app_l_Some|].
        intros j' l' Hj' Hl'. apply lookup_snoc_Some in Hl' as [[? ?]|[? <-]]; eauto.
      * intros [Hj Hlater].
        assert (j < length ls)%nat.
        { apply lookup_snoc_Some in Hj as [[? ?]|[? ?]]; [done | congruence]. }
        split; [by rewrite lookup_app_l in Hj|].
        intros j' l' Hj' Hl'. apply (Hlater j' l'); [done|].
        by apply lookup_app_l_Some.
    + split; [done|]. intros [Hj Hlater].
      assert (j < length ls)%nat.
      { apply lookup_snoc_Some in Hj as [[? ?]|[? ?]]; [done | congruence]. }
      destruct (Hlater (length ls) l) as [_ [?|?]];
        [done | by rewrite list_lookup_middle | done..].
Qed.

Lemma filter_ext_in {A} (P1 P2 : A → Prop)
    `{!∀ x, Decision (P1 x), !∀ x, Decision (P2 x)} (l : list A) :
  (∀ x, x ∈ l → (P1 x ↔ P2 x)) → filter P1 l = filter P2 l.
Proof.
  induction l as [|a l IH]; intros Hiff; [done|].
  rewrite !filter_cons.
  rewrite IH by (intros x Hx; apply Hiff; by right).
  pose proof (Hiff a (list_elem_of_here a l)).
  repeat case_decide; naive_solver.
Qed.

Lemma parent_of_snoc_old (ls : list Z) (l : Z) (i : nat) :
  (i < length ls)%nat → parent_of (ls ++ [l]) i = parent_of ls i.
Proof.
  intros Hi. unfold parent_of. rewrite lookup_app_l by done.
  by rewrite take_app_le by lia.
Qed.

Lemma parent_of_snoc_new (ls : list Z) (l : Z) :
  parent_of (ls ++ [l]) (length ls)
  = if bool_decide (l = 0) then None else open_at ls (l - 1).
Proof.
  unfold parent_of. rewrite list_lookup_middle by done.
  by rewrite take_app_length.
Qed.

Lemma parent_of_lt (ls : list Z) (i j : nat) :
  parent_of ls i = Some j → (j < i)%nat ∧ (i < length ls)%nat.
Proof.
  unfold parent_of. destruct (ls !! i) as [l|] eqn:Hl; [|done].
  apply lookup_lt_Some in Hl. case_bool_decide; [done|].
  intros Hj%open_at_lt. rewrite length_take in Hj. lia.
Qed.

Lemma children_of_snoc (ls : list Z) (l : Z) (i : nat) :
  children_of (ls ++ [l]) i
  = children_of ls i
    ++ (if decide (parent_of (ls ++ [l]) (length ls) = Some i)
        then [length ls] else []).
Proof.
  unfold children_of. rewrite length_app. simpl.
  rewrite seq_app, filter_app. simpl. f_equal.
  apply filter_ext_in. intros j Hj%elem_of_seq.
  rewrite parent_of_snoc_old by lia. done.
Qed.

Lemma roots_of_snoc (ls : list Z) (l : Z) :
  roots_of (ls ++ [l])
  = roots_of ls ++ (if bool_decide (l = 0) then [length ls] else []).
Proof.
  unfold roots_of. rewrite length_app. simpl.
  rewrite seq_app, filter_app. simpl. f_equal.
  - apply filter_ext_in. intros j Hj%elem_of_seq.
    rewrite lookup_app_l by lia. done.
  - rewrite filter_cons, filter_nil. rewrite list_lookup_middle by done.
    case_bool_decide; case_decide; simplify_eq; done.
Qed.

Lemma children_of_fresh (ls : list Z) (i : nat) :
  (length ls ≤ i)%nat → children_of ls i = [].
Proof.
  intros Hi. unfold children_of. induction (seq 0 (length ls)) as [|j js IH]; [done|].
  rewrite filter_cons. case_decide as Hj; [|done].
  apply parent_of_lt in Hj. lia.
Qed.

Lemma bound_to_snoc (ids : list (option string)) (i : option string) (k : string) :
  bound_to (ids ++ [i]) k
  = if bool_decide (i = Some k) then Some (length ids) else bound_to ids k.
Proof. unfold bound_to. rewrite rev_unit. simpl. by rewrite length_rev. Qed.

(** An id is bound to the latest position that carries it. *)
Lemma bound_to_Some (ids : list (option string)) (k : string) (a : nat) :
  bound_to ids k = Some a ↔
  ids !! a = Some (Some k)
  ∧ ∀ b, (a < b)%nat → ids !! b ≠ Some (Some k).
Proof.
  induction ids as [|i ids IH] using rev_ind.
  - split; [done | intros [Ha _]; done].
  - rewrite bound_to_snoc. case_bool_decide as Hi; subst.
    + split.
      * intros [= <-]. split; [by rewrite list_lookup_middle|].
        intros b Hb Hk. apply lookup_lt_Some in Hk.
        rewrite length_app in Hk. simpl in Hk. lia.
      * intros [Ha Hlater]. f_equal.
        destruct (decide (a = length ids)) as [->|Hne]; [done|].
        assert (a < length ids)%nat.
        { apply lookup_lt_Some in Ha. rewrite length_app in Ha. simpl in Ha. lia. }
        destruct (Hlater (length ids)); [done | by rewrite list_lookup_middle].
    + rewrite IH. split.
      * intros [Ha Hlater]. split; [by apply lookup_app_l_Some|].
        intros b Hb Hk. apply lookup_snoc_Some in Hk as [[? Hk]|[? Hk]].
        -- by apply (Hlater b).
        -- congruence.
      * intros [Ha Hlater].
        assert (a < length ids)%nat.
        { apply lookup_snoc_Some in Ha as [[? ?]|[? ?]]; [done | congruence]. }
        split; [by rewrite lookup_app_l in Ha|].
        intros b Hb Hk. apply (Hlater b); [done|]. by apply lookup_app_l_Some.
Qed.

Lemma bound_to_None (ids : list (option string)) (k : string) :
  bound_to ids k = None ↔ ∀ b, ids !! b ≠ Some (Some k).
Proof.
  induction ids as [|i ids IH] using rev_ind.
  - split; [by intros _ b | done].
  - rewrite bound_to_snoc. case_bool_decide as Hi; subst.
    + split; [done|]. intros Hnone.
      destruct (Hnone (length ids)). by rewrite list_lookup_middle.
    + rewrite IH. split.
      * intros Hnone b Hk. apply lookup_snoc_Some in Hk as [[? Hk]|[? Hk]].
        -- by apply (Hnone b).
        -- congruence.
      * intros Hnone b Hk. apply (Hnone b). by apply lookup_app_l_Some.
Qed.

(** ** The parser, line by line *)

Lemma parse_line_read (st : state) (line : string) :
  parse_line st line =
    do r <- read_line line;
    match r with
    | Some (lv, m) => loop_body st lv m
    | None => OK st
    end.
Proof.
  unfold parse_line, read_line.
  destruct (String.eqb (strip line) ""); [done|].
  destruct (line_format_match (strip line)) as [m|]; [|done].
  by destruct (int_of_digits (g_level m)).
Qed.

Lemma read_line_Some (line : string) (lv : Z) (m : groupdict) :
  read_line line = OK (Some (lv, m)) →
  strip line = line_of m ∧ wf_groups m = true
  ∧ int_of_digits (g_level m) = Some lv ∧ 0 ≤ lv.
Proof.
  unfold read_line. destruct (String.eqb (strip line) ""); [done|].
  destruct (line_format_match (strip line)) as [m'|] eqn:Hm; [|done].
  destruct (line_format_match_inv _ _ Hm (strip_last line)) as [Hline Hwf].
  destruct (int_of_digits (g_level m')) as [lv'|] eqn:Hlv; [|done].
  intros [= <- <-]. repeat split; try done.
  unfold int_of_digits in Hlv. destruct (NilEmpty.uint_of_string _); [|done].
  injection Hlv as <-. apply N2Z.is_nonneg.
Qed.

Lemma wf_groups_id (m : groupdict) : wf_groups m = true → wf_id (g_id m) = true.
Proof.
  unfold wf_groups.
  by intros [[[_ Hi]%andb_true_iff _]%andb_true_iff _]%andb_true_iff.
Qed.

Lemma bind_pointer_lookup (m : groupdict) (a : addr) (ptrs : gmap string addr)
    (ids : list (option string)) (k : string) :
  wf_id (g_id m) = true → length ids = a →
  (∀ k, ptrs !! k = bound_to ids k) →
  bind_pointer m a ptrs !! k = bound_to (ids ++ [g_id m]) k.
Proof.
  intros Hwf <- Hptrs. rewrite bound_to_snoc. unfold bind_pointer.
  destruct (g_id m) as [[|c i]|]; [done| |].
  - simpl. rewrite lookup_insert.
    destruct (decide (String c i = k)) as [->|Hne].
    + by rewrite bool_decide_eq_true_2.
    + rewrite bool_decide_eq_false_2 by congruence. apply Hptrs.
  - simpl. apply Hptrs.
Qed.

(** The store after one more record. *)
Lemma heap_step (recs : list (Z * groupdict)) (lv : Z) (m : groupdict) :
  let parent := parent_of (recs.*1 ++ [lv]) (length recs) in
  match parent with
  | Some p => alter (append_child (length recs)) p
  | None => λ h, h
  end (imap (object_of recs.*1) recs ++ [new_object lv m parent])
  = imap (object_of (recs.*1 ++ [lv])) (recs ++ [(lv, m)]).
Proof.
  pose proof (length_fmap fst recs) as Hlen.
  set (ls := recs.*1) in *. clearbody ls. intros parent.
  assert (∀ i r, recs !! i = Some r →
            object_of (ls ++ [lv]) i r
            = if decide (parent = Some i)
              then append_child (length recs) (object_of ls i r)
              else object_of ls i r) as Hold.
  { intros i r Hr. apply lookup_lt_Some in Hr.
    unfold object_of. rewrite children_of_snoc.
    rewrite (parent_of_snoc_old ls lv i) by lia.
    rewrite Hlen. fold parent. case_decide; [done|]. by rewrite app_nil_r. }
  assert (object_of (ls ++ [lv]) (length recs) (lv, m) = new_object lv m parent)
    as Hnew.
  { unfold object_of, new_object. simpl. rewrite children_of_snoc.
    rewrite children_of_fresh by lia. rewrite Hlen. fold parent.
    case_decide as Hp; [|done]. apply parent_of_lt in Hp. lia. }
  apply list_eq. intros i.
  rewrite list_lookup_imap.
  destruct (decide (i < length recs)%nat) as [Hi|Hi].
  - rewrite (lookup_app_l recs) by done.
    destruct (lookup_lt_is_Some_2 recs i Hi) as [r Hr]. rewrite Hr. simpl.
    rewrite (Hold i r Hr).
    destruct parent as [p|] eqn:Hparent.
    + destruct (decide (p = i)) as [->|Hne].
      * rewrite decide_True by done. rewrite list_lookup_alter_eq.
        rewrite lookup_app_l by (by rewrite length_imap).
        by rewrite list_lookup_imap, Hr.
      * rewrite decide_False by congruence.
        rewrite list_lookup_alter_ne by done.
        rewrite lookup_app_l by (by rewrite length_imap).
        by rewrite list_lookup_imap, Hr.
    + rewrite decide_False by done.
      rewrite lookup_app_l by (by rewrite length_imap).
      by rewrite list_lookup_imap, Hr.
  - assert (match parent with
            | Some p => alter (append_child (length recs)) p
            | None => λ h, h
            end (imap (object_of ls) recs ++ [new_object lv m parent]) !! i
            = (imap (object_of ls) recs ++ [new_object lv m parent]) !! i) as ->.
    { destruct parent as [p|] eqn:Hparent; [|done].
      apply parent_of_lt in Hparent. apply list_lookup_alter_ne. lia. }
    destruct (decide (i = length recs)) as [->|Hne].
    + rewrite list_lookup_middle by (by rewrite length_imap).
      rewrite list_lookup_middle by done. simpl. by rewrite Hnew.
    + rewrite !lookup_ge_None_2; [done | |].
      * rewrite length_app. simpl. lia.
      * rewrite length_app, length_imap. simpl. lia.
Qed.

Lemma parsed_initial : parsed [] initial.
Proof. repeat split. Qed.

Lemma parsed_length (recs : list (Z * groupdict)) (st : state) :
  parsed recs st → length (heap st) = length recs.
Proof. intros (-> & _). apply length_imap. Qed.

(** One more record: the loop body returns exactly when the line is at
    level 0 or finds an element open one level up, and the state it
    returns is the state after the longer input. *)
Lemma loop_body_parsed (recs : list (Z * groupdict)) (st : state)
    (lv : Z) (m : groupdict) :
  parsed recs st → wf_id (g_id m) = true →
  loop_body st lv m =
    (if bool_decide (lv = 0 ∨ is_Some (open_at recs.*1 (lv - 1)))
     then loop_body st lv m else Raise (KeyErrorLevel (lv - 1)))
  ∧ (lv = 0 ∨ is_Some (open_at recs.*1 (lv - 1)) →
     ∃ st', loop_body st lv m = OK st' ∧ parsed (recs ++ [(lv, m)]) st').
Proof.
  intros Hst Hwf. pose proof (parsed_length _ _ Hst) as Hlen.
  destruct Hst as (Hheap & Hopen & Hroots & Hptrs).
  pose proof (heap_step recs lv m) as Hstep. cbv zeta in Hstep.
  assert (parent_of (recs.*1 ++ [lv]) (length recs)
          = if bool_decide (lv = 0) then None else open_at recs.*1 (lv - 1))
    as Hparent.
  { rewrite <- (length_fmap fst recs). apply parent_of_snoc_new. }
  rewrite Hparent in Hstep. clear Hparent.
  rewrite loop_body_unfold. cbv zeta. rewrite Hopen, Hlen.
  destruct (bool_decide (lv = 0)) eqn:Hlv0.
  - apply bool_decide_eq_true in Hlv0 as Hlv.
    rewrite bool_decide_eq_true_2 by auto. split; [done|]. intros _.
    eexists. split; [done|]. unfold parsed. simpl. rewrite !fmap_app. simpl.
    split; [by rewrite Hheap, <- Hstep|]. split; [|split].
    + intros k. rewrite open_at_snoc, lookup_insert, Hopen.
      rewrite (bool_decide_eq_true_2 (lv = 0)) by done.
      rewrite length_fmap. repeat case_bool_decide; case_decide; simplify_eq; done.
    + rewrite roots_of_snoc, Hroots, Hlv0. by rewrite length_fmap.
    + intros k. apply bind_pointer_lookup; [done | by rewrite length_fmap | done].
  - apply bool_decide_eq_false in Hlv0 as Hlv.
    destruct (open_at recs.*1 (lv - 1)) as [p|] eqn:Hp.
    + rewrite bool_decide_eq_true_2 by eauto. split; [done|]. intros _.
      eexists. split; [done|]. unfold parsed. simpl. rewrite !fmap_app. simpl.
      split; [by rewrite Hheap, <- Hstep|]. split; [|split].
      * intros k. rewrite open_at_snoc, lookup_insert, lookup_filter_below, Hopen.
        rewrite (bool_decide_eq_false_2 (lv = 0)) by done.
        rewrite length_fmap.
        repeat case_bool_decide; repeat case_decide; simplify_eq; done.
      * rewrite roots_of_snoc, Hroots, Hlv0. by rewrite app_nil_r.
      * intros k. apply bind_pointer_lookup; [done | by rewrite length_fmap | done].
    + rewrite bool_decide_eq_false_2; [split; [done|]|].
      * intros [?|[? ?]]; done.
      * intros [?|[? ?]]; done.
Qed.

Lemma parse_from_app (l1 l2 : list string) (st : state) :
  parse_from st (l1 ++ l2) = do st' <- parse_from st l1; parse_from st' l2.
Proof.
  revert st. induction l1 as [|line l1 IH]; intros st; simpl; [done|].
  destruct (parse_line st line) as [st'|]; simpl; [apply IH | done].
Qed.

(** Lines that can all be read and hold no orphan are parsed, and the
    state is the one described by [parsed]. *)
Lemma parse_from_parsed (lines : list string) :
  ∀ recs0 st recs,
    parsed recs0 st → records lines = OK recs →
    no_orphan_from recs0.*1 recs.*1 = true →
    ∃ st', parse_from st lines = OK st' ∧ parsed (recs0 ++ recs) st'.
Proof.
  induction lines as [|line lines IH]; intros recs0 st recs Hst Hrecs Horph;
    simpl in Hrecs.
  - injection Hrecs as <-. rewrite app_nil_r. simpl. eauto.
  - simpl. rewrite parse_line_read.
    destruct (read_line line) as [[[lv m]|]|] eqn:Hline; simpl in *; [| |done].
    + destruct (records lines) as [recs'|] eqn:Hrecs'; [|done].
      injection Hrecs as <-. simpl in Horph.
      apply andb_true_iff in Horph as [Hlv%bool_decide_eq_true Horph].
      apply read_line_Some in Hline as (_ & Hwf%wf_groups_id & _).
      destruct (loop_body_parsed recs0 st lv m Hst Hwf) as [_ Hstep].
      destruct (Hstep Hlv) as (st1 & -> & Hst1). simpl.
      destruct (IH (recs0 ++ [(lv, m)]) st1 recs' Hst1 eq_refl) as (st' & Hst' & Hp).
      { by rewrite fmap_app. }
      exists st'. split; [done|]. by rewrite <- app_assoc in Hp.
    + destruct (records lines) as [recs'|] eqn:Hrecs'; [|done].
      injection Hrecs as <-. by apply IH.
Qed.

(** Conversely, lines that are parsed could all be read and held no
    orphan. *)
Lemma parse_from_parsed_inv (lines : list string) :
  ∀ recs0 st st',
    parsed recs0 st → parse_from st lines = OK st' →
    ∃ recs, records lines = OK recs
            ∧ no_orphan_from recs0.*1 recs.*1 = true
            ∧ parsed (recs0 ++ recs) st'.
Proof.
  induction lines as [|line lines IH]; intros recs0 st st' Hst Hparse;
    simpl in Hparse.
  - injection Hparse as <-. exists []. rewrite app_nil_r. done.
  - rewrite parse_line_read in Hparse. simpl.
    destruct (read_line line) as [[[lv m]|]|] eqn:Hline; simpl in *; [| |done].
    + apply read_line_Some in Hline as (_ & Hwf%wf_groups_id & _).
      destruct (loop_body_parsed recs0 st lv m Hst Hwf) as [Hcase Hstep].
      destruct (decide (lv = 0 ∨ is_Some (open_at recs0.*1 (lv - 1))))
        as [Hlv|Hlv].
      * destruct (Hstep Hlv) as (st1 & Hst1 & Hp1).
        rewrite Hst1 in Hparse. simpl in Hparse.
        destruct (IH _ _ _ Hp1 Hparse) as (recs & -> & Horph & Hp).
        exists ((lv, m) :: recs). simpl. rewrite bool_decide_eq_true_2 by done.
        rewrite fmap_app in Horph. split; [done|]. split; [done|].
        by rewrite <- app_assoc in Hp.
      * rewrite bool_decide_eq_false_2 in Hcase by done.
        rewrite Hcase in Hparse. done.
    + destruct (IH _ _ _ Hst Hparse) as (recs & -> & Horph & Hp).
      exists recs. done.
Qed.

(** A line below level 0 that finds no element open one level up stops
    the parse with the [KeyError] of the lookup. *)
Lemma parse_from_orphan (recs0 : list (Z * groupdict)) (st : state)
    (line : string) (rest : list string) (lv : Z) (m : groupdict) :
  parsed recs0 st → read_line line = OK (Some (lv, m)) →
  lv ≠ 0 → open_at recs0.*1 (lv - 1) = None →
  parse_from st (line :: rest) = Raise (KeyErrorLevel (lv - 1)).
Proof.
  intros Hst Hline Hlv Hopen. simpl. rewrite parse_line_read, Hline. simpl.
  apply read_line_Some in Hline as (_ & Hwf%wf_groups_id & _).
  destruct (loop_body_parsed recs0 st lv m Hst Hwf) as [-> _].
  rewrite bool_decide_eq_false_2; [done|].
  rewrite Hopen. intros [?|[? ?]]; done.
Qed.

Lemma filter_seq_sorted (P : nat → Prop) `{!∀ x, Decision (P x)} (n : nat) :
  ∀ a, StronglySorted lt (filter P (seq a n)).
Proof.
  induction n as [|n IH]; intros a; simpl; [constructor|].
  rewrite filter_cons. case_decide; [|apply IH].
  constructor; [apply IH|]. apply Forall_forall.
  intros j [_ Hj%elem_of_seq]%list_elem_of_filter. lia.
Qed.

(** ** C3: the level stack of [__parse] *)

(** C3: when the lines [pre] can all be read and hold no orphan, the parse
    returns; the objects are the records in input order; the parent of a
    line at level 0 is none and the parent of a line at level [L > 0] is the
    element open at level [L - 1] when the line is read, that is the latest
    earlier line of level [L - 1] that no line in between has closed (a
    line in between closes it when its level is from 1 to [L - 1]); the
    children of an element are the lines it is the parent of, and the
    roots the lines of level 0, both in input order. A next line below
    level 0 that finds no element open one level up stops the parse with
    the [KeyError] of the lookup. *)
Theorem parse_level_stack (pre : list string) (recs : list (Z * groupdict)) :
  records pre = OK recs → no_orphan recs.*1 = true →
  (∃ st, Parser.parse pre = OK st
         ∧ heap st = imap (object_of recs.*1) recs
         ∧ roots st = roots_of recs.*1
         ∧ ∀ k, level_to_obj st !! k = open_at recs.*1 k)
  ∧ (∀ line rest lv m,
       read_line line = OK (Some (lv, m)) → lv ≠ 0 →
       open_at recs.*1 (lv - 1) = None →
       Parser.parse (pre ++ line :: rest) = Raise (KeyErrorLevel (lv - 1)))
  ∧ (∀ i l, recs.*1 !! i = Some l →
       parent_of recs.*1 i
       = if bool_decide (l = 0) then None else open_at (take i recs.*1) (l - 1))
  ∧ (∀ ls k j, open_at ls k = Some j ↔
       ls !! j = Some k
       ∧ ∀ j' l', (j < j')%nat → ls !! j' = Some l' → l' ≠ k ∧ (l' = 0 ∨ k < l'))
  ∧ (∀ i, StronglySorted lt (children_of recs.*1 i)
          ∧ ∀ j, j ∈ children_of recs.*1 i ↔ parent_of recs.*1 j = Some i)
  ∧ (StronglySorted lt (roots_of recs.*1)
     ∧ ∀ j, j ∈ roots_of recs.*1 ↔ recs.*1 !! j = Some 0).
Proof.
  intros Hrecs Horph.
  destruct (parse_from_parsed pre [] initial recs parsed_initial Hrecs Horph)
    as (st & Hparse & Hparsed). simpl in Hparsed.
  pose proof Hparsed as (Hheap & Hopen & Hroots & _).
  split; [by exists st|]. split; [|split; [|split; [|split]]].
  - intros line rest lv m Hline Hlv Hnone. unfold Parser.parse.
    rewrite parse_from_app, Hparse. unfold rbind.
    by apply (parse_from_orphan recs st line rest lv m).
  - intros i l Hl. unfold parent_of. by rewrite Hl.
  - apply open_at_Some.
  - intros i. split; [apply filter_seq_sorted|].
    intros j. unfold children_of. rewrite list_elem_of_filter, elem_of_seq.
    split; [by intros [? _]|]. intros Hj. split; [done|].
    apply parent_of_lt in Hj. lia.
  - split; [apply filter_seq_sorted|].
    intros j. unfold roots_of. rewrite list_elem_of_filter, elem_of_seq.
    split; [by intros [? _]|]. intros Hj. split; [done|].
    apply lookup_lt_Some in Hj. lia.
Qed.

Lemma parse_level_stack_witness :
  ∃ st, Parser.parse john_lines = OK st
        ∧ heap st =
            [mkObject KIndividual 0 "INDI" None (Some "@I1@") [1; 2]%nat None;
             mkObject KElement 1 "NAME" (Some "John /Smith/") None [] (Some 0%nat);
             mkObject KElement 1 "SEX" (Some "M") None [] (Some 0%nat)]
        ∧ roots st = [0%nat].
Proof.
  destruct (parse_level_stack john_lines
              [(0, mkGroups "0" (Some "@I1@") "INDI" None);
               (1, mkGroups "1" None "NAME" (Some "John /Smith/"));
               (1, mkGroups "1" None "SEX" (Some "M"))])
    as [(st & Hparse & Hheap & Hroots & _) _]; [reflexivity | reflexivity |].
  exists st. split; [exact Hparse|]. split.
  - rewrite Hheap. reflexivity.
  - rewrite Hroots. reflexivity.
Defined.

Example parse_orphan :
  Parser.parse ["0 HEAD"; "2 VERS 5.5"] = Raise (KeyErrorLevel 1).
Proof. reflexivity. Qed.

(** After a line of level 0 the elements opened deeper stay open: the
    line [2 DATE] is attached to the BIRT of the record before. *)
Example parse_stale_level :
  (do st <- Parser.parse ["0 INDI"; "1 BIRT"; "0 FAM"; "2 DATE 1900"];
   OK (o_parent_element <$> heap st))
  = OK [None; Some 0%nat; None; Some 1%nat].
Proof. reflexivity. Qed.

(** ** C4: the pointer table of a parsed file *)

Lemma parse_line_raises (st : state) (line : string) (e : exn) :
  parse_line st line = Raise e →
  (strip line ≠ "" ∧ line_format_match (strip line) = None
   ∧ e = NotImplementedError (Some (strip line)))
  ∨ (∃ m lv, line_format_match (strip line) = Some m
             ∧ int_of_digits (g_level m) = Some lv ∧ 0 < lv
             ∧ level_to_obj st !! (lv - 1) = None
             ∧ e = KeyErrorLevel (lv - 1)).
Proof.
  intros Hraise.
  destruct (String.eqb_spec (strip line) "") as [Heq|Hne].
  { by rewrite (parse_line_blank st line Heq) in Hraise. }
  destruct (line_format_match (strip line)) as [m|] eqn:Hm.
  - right. destruct (parse_line_match st line m Hm) as (lv & Hlv & Hpos & Hparse).
    rewrite Hparse, loop_body_unfold in Hraise. cbv zeta in Hraise.
    case_bool_decide as Hz; [done|].
    destruct (level_to_obj st !! (lv - 1)) eqn:Hl; [done|].
    injection Hraise as <-. exists m, lv. repeat split; [done | lia | done].
  - left. rewrite (parse_line_malformed st line Hne Hm) in Hraise.
    injection Hraise as <-. done.
Qed.

Lemma parse_from_raises (lines : list string) :
  ∀ st e, parse_from st lines = Raise e →
          (∃ line, line ∈ lines ∧ e = NotImplementedError (Some (strip line)))
          ∨ (∃ lv, 0 ≤ lv ∧ e = KeyErrorLevel lv).
Proof.
  induction lines as [|line lines IH]; intros st e Hraise; [done|].
  simpl in Hraise. destruct (parse_line st line) as [st'|e'] eqn:Hline.
  - simpl in Hraise. destruct (IH st' e Hraise) as [(l & Hin & ->)|Hkey]; [|by right].
    left. exists l. split; [by apply list_elem_of_further | done].
  - simpl in Hraise. injection Hraise as <-.
    apply parse_line_raises in Hline
      as [(_ & _ & ->)|(m & lv & _ & _ & Hlv & _ & ->)].
    + left. exists line. split; [apply list_elem_of_here | done].
    + right. exists (lv - 1). split; [lia | done].
Qed.

(** A line that carries an id binds it, whatever the table holds. *)
Lemma parse_line_binds (st : state) (line : string) (m : groupdict)
    (lv : Z) (k : string) :
  line_format_match (strip line) = Some m →
  int_of_digits (g_level m) = Some lv →
  g_id m = Some k →
  lv = 0 ∨ is_Some (level_to_obj st !! (lv - 1)) →
  ∃ st', parse_line st line = OK st'
         ∧ ptrs st' = <[k := length (heap st)]> (ptrs st).
Proof.
  intros Hm Hlv Hid Hparent.
  destruct (parse_line_match st line m Hm) as (lv' & Hlv' & _ & ->).
  assert (lv' = lv) as -> by congruence.
  apply line_format_match_inv in Hm as [_ Hwf]; [|apply strip_last].
  apply wf_groups_id, wf_id_truthy in Hwf.
  assert (bind_pointer m (length (heap st)) (ptrs st)
          = <[k := length (heap st)]> (ptrs st)) as Hbind.
  { unfold bind_pointer. rewrite Hid in *. unfold or_None in Hwf.
    by destruct (truthy (Some k)). }
  rewrite loop_body_unfold. cbv zeta. case_bool_decide as Hz.
  - eexists. split; [done|]. simpl. exact Hbind.
  - destruct Hparent as [?|[p Hp]]; [done|]. rewrite Hp.
    eexists. split; [done|]. simpl. exact Hbind.
Qed.

(** C4 (as the code has it): parsing never inspects the pointer table
    before binding an id. It fails only on a line that does not match the
    pattern or that finds no element open one level up, and it returns
    exactly when every line can be read and no line is an orphan, which
    depends on the text of each line and on the levels, not on which ids
    occur twice. A line that carries an id binds the id to its element,
    whatever the table held for it. So in every parsed file the table
    binds an id to an element exactly when that element is the last one,
    in input order, that carries the id, and an id is absent from the
    table exactly when no element carries it. *)
Theorem parse_pointer_table (lines : list string) :
  (∀ e, Parser.parse lines = Raise e →
        (∃ line, line ∈ lines ∧ e = NotImplementedError (Some (strip line)))
        ∨ (∃ lv, 0 ≤ lv ∧ e = KeyErrorLevel lv))
  ∧ ((∃ st, Parser.parse lines = OK st) ↔
     ∃ recs, records lines = OK recs ∧ no_orphan recs.*1 = true)
  ∧ (∀ st line m lv k,
       line_format_match (strip line) = Some m →
       int_of_digits (g_level m) = Some lv →
       g_id m = Some k →
       lv = 0 ∨ is_Some (level_to_obj st !! (lv - 1)) →
       ∃ st', parse_line st line = OK st'
              ∧ ptrs st' = <[k := length (heap st)]> (ptrs st))
  ∧ (∀ st, Parser.parse lines = OK st →
       (∀ k a, ptrs st !! k = Some a ↔
               (∃ o, heap st !! a = Some o ∧ o_id o = Some k)
               ∧ ∀ b o', (a < b)%nat → heap st !! b = Some o' → o_id o' ≠ Some k)
       ∧ (∀ k, ptrs st !! k = None ↔
               ∀ b o', heap st !! b = Some o' → o_id o' ≠ Some k)).
Proof.
  split; [intros e; apply parse_from_raises|].
  split; [|split; [apply parse_line_binds|]].
  { split.
    - intros [st Hparse].
      destruct (parse_from_parsed_inv lines [] initial st parsed_initial Hparse)
        as (recs & Hrecs & Horph & _). eauto.
    - intros (recs & Hrecs & Horph).
      destruct (parse_from_parsed lines [] initial recs parsed_initial Hrecs Horph)
        as (st & Hparse & _). eauto. }
  intros st Hparse.
  destruct (parse_from_parsed_inv lines [] initial st parsed_initial Hparse)
    as (recs & _ & _ & Hheap & _ & _ & Hptrs). simpl in Hheap, Hptrs.
  assert (∀ b k, (∃ o, heap st !! b = Some o ∧ o_id o = Some k)
                 ↔ (g_id ∘ snd <$> recs) !! b = Some (Some k)) as Hids.
  { intros b k. rewrite Hheap, list_lookup_imap, list_lookup_fmap.
    destruct (recs !! b) as [[lv m]|]; simpl.
    - split; [intros (o & [= <-] & Hk); by rewrite <- Hk | intros [= Hk]; eauto].
    - split; [intros (o & ? & _); done | done]. }
  split.
  - intros k a. rewrite Hptrs, bound_to_Some, <- Hids.
    split; intros [Ha Hlater]; (split; [done|]).
    + intros b o' Hb Ho' Hk. apply (Hlater b Hb). apply Hids. eauto.
    + intros b Hb Hk%Hids. destruct Hk as (o' & Ho' & Hk). by apply (Hlater b o').
  - intros k. rewrite Hptrs, bound_to_None. split.
    + intros Hnone b o' Ho' Hk. apply (Hnone b). apply Hids. eauto.
    + intros Hnone b Hk%Hids. destruct Hk as (o' & Ho' & Hk). by apply (Hnone b o').
Qed.

Lemma parse_pointer_table_witness :
  Parser.parse twice_lines = OK twice_state
  ∧ ptrs twice_state !! "@I1@" = Some 2%nat
  ∧ ∀ b o', (2 < b)%nat → heap twice_state !! b = Some o' → o_id o' ≠ Some "@I1@".
Proof.
  assert (Parser.parse twice_lines = OK twice_state) as Hparse
    by (vm_compute; reflexivity).
  split; [exact Hparse|]. split; [vm_compute; reflexivity|].
  destruct (parse_pointer_table twice_lines) as (_ & _ & _ & Htable).
  apply (proj1 (Htable twice_state Hparse) "@I1@" 2%nat).
  vm_compute. reflexivity.
Defined.

(** C4 (as stated) fails: two records with the same id are parsed without
    any error; both elements keep the id, and the table binds it to the
    second only. *)
Lemma parse_accepts_duplicate_ids :
  (do st <- Parser.parse twice_lines;
   OK (o_id <$> heap st, roots st, ptrs st !! "@I1@"))
  = OK ([Some "@I1@"; None; Some "@I1@"; None], [0; 2]%nat, Some 2%nat).
Proof. vm_compute. reflexivity. Qed.

(** ** C1: serializing, then parsing *)

Lemma block_unfold (a : addr) (parent : option addr) (l : Z) (e : Element) :
  block a parent l e
  = mkObject (class_for_tag (tag e)) l (tag e) (or_None (value e)) (id e)
             (child_addrs (S a) (child_elements e)) parent
    :: blocks (S a) (Some a) (l + 1) (child_elements e).
Proof.
  destruct e as [k lv t v i cs]. simpl. f_equal.
  generalize (S a). induction cs as [|c cs IH]; intros a'; simpl; [done|].
  by rewrite IH.
Qed.

Lemma length_block (e : Element) :
  ∀ a parent l, length (block a parent l e) = size e.
Proof.
  induction e as [k lv t v i cs IH] using Element_ind'. intros a parent l.
  rewrite block_unfold. simpl. f_equal. generalize (S a).
  induction IH as [|c cs Hc _ IHcs]; intros a'; simpl; [done|].
  by rewrite length_app, Hc, IHcs.
Qed.

Lemma length_blocks (cs : list Element) (a : addr) (parent : option addr) (l : Z) :
  length (blocks a parent l cs) = list_sum (map size cs).
Proof.
  revert a. induction cs as [|c cs IH]; intros a; simpl; [done|].
  by rewrite length_app, length_block, IH.
Qed.

Lemma gedcom_lines_relevel (l : Z) (e : Element) :
  Tree.gedcom_lines (relevel l e)
  = format_line (Some l) (id e) (tag e) (value e)
    :: concat (map (λ c, Tree.gedcom_lines (relevel (l + 1) c)) (child_elements e)).
Proof. destruct e as [k lv t v i cs]. simpl. by rewrite map_map. Qed.

Lemma read_line_format (l : Z) (i : option string) (t : string) (v : option string) :
  0 ≤ l → wf_tag t = true → wf_id i = true → wf_value (or_None v) = true →
  read_line (format_line (Some l) i t v)
  = OK (Some (l, mkGroups (str_of_int l) i t (or_None v))).
Proof.
  intros Hl Ht Hi Hv. rewrite format_line_line_of, (wf_id_truthy i Hi).
  set (m := mkGroups (str_of_int l) i t (or_None v)).
  assert (wf_groups m = true) as Hwf.
  { unfold wf_groups. simpl. by rewrite str_of_int_wf, Hi, Ht, Hv. }
  destruct (line_format_match_line_of m Hwf) as [Hmatch Hstrip].
  unfold read_line. rewrite Hstrip, Hmatch.
  destruct (String.eqb_spec (line_of m) "") as [Heq|_].
  { rewrite Heq in Hmatch. done. }
  simpl. by rewrite int_of_digits_str_of_int.
Qed.

Lemma wf_element_unfold (e : Element) :
  wf_element e = true ↔
  wf_tag (tag e) = true ∧ wf_id (id e) = true
  ∧ wf_value (or_None (value e)) = true
  ∧ Forall (λ c, wf_element c = true) (child_elements e).
Proof.
  destruct e as [k lv t v i cs]. simpl.
  rewrite !andb_true_iff, forallb_forall, Forall_forall.
  setoid_rewrite list_elem_of_In. naive_solver.
Qed.

Lemma add_children_compose (n : addr) (cs : list addr) (o : object) :
  add_children cs (append_child n o) = add_children (n :: cs) o.
Proof. unfold add_children, append_child. simpl. by rewrite <- app_assoc. Qed.

Lemma add_children_nil (o : object) : add_children [] o = o.
Proof. destruct o. unfold add_children. simpl. by rewrite app_nil_r. Qed.

Lemma length_attach (parent : option addr) (a : addr) (h : list object) :
  length (attach parent a h) = length h.
Proof. destruct parent; simpl; [apply length_alter | done]. Qed.

(** The children of an element open at level [l], one subtree after the
    other. *)
Lemma parse_children (cs : list Element) :
  Forall parses_subtree cs →
  ∀ (l : Z) (st : state) (a : addr),
    0 ≤ l → level_to_obj st !! l = Some a → (a < length (heap st))%nat →
    ∃ st',
      parse_from st (concat (map (λ c, Tree.gedcom_lines (relevel (l + 1) c)) cs))
      = OK st'
      ∧ heap st' = alter (add_children (child_addrs (length (heap st)) cs)) a (heap st)
                   ++ blocks (length (heap st)) (Some a) (l + 1) cs
      ∧ roots st' = roots st
      ∧ ∀ k, k < l + 1 → level_to_obj st' !! k = level_to_obj st !! k.
Proof.
  induction 1 as [|c cs Hc _ IH]; intros l st a Hl Hopen Ha; simpl.
  - exists st. split; [done|]. split; [|done].
    rewrite app_nil_r. symmetry. apply list_alter_id, add_children_nil.
  - rewrite parse_from_app.
    destruct (Hc (l + 1) st (Some a)) as (st1 & -> & Hheap1 & Hroots1 & Hkeep1).
    { lia. }
    { rewrite bool_decide_eq_false_2 by lia.
      by replace (l + 1 - 1) with l by lia. }
    { intros _. eauto. }
    simpl rbind.
    assert (length (heap st1) = (length (heap st) + size c)%nat) as Hlen1.
    { rewrite Hheap1, length_app, length_attach, length_block. done. }
    destruct (IH l st1 a Hl) as (st' & -> & Hheap' & Hroots' & Hkeep').
    { rewrite Hkeep1 by lia. done. }
    { lia. }
    exists st'. split; [done|]. split; [|split].
    + rewrite Hheap', Hlen1, Hheap1. simpl attach.
      rewrite alter_app_l by (by rewrite length_alter).
      rewrite list_alter_alter_eq, <- app_assoc. f_equal.
      apply list_alter_ext; [|done]. intros o _. apply add_children_compose.
    + rewrite Hroots', Hroots1. rewrite bool_decide_eq_false_2 by lia.
      by rewrite app_nil_r.
    + intros k Hk. rewrite Hkeep', Hkeep1 by lia. done.
Qed.

(** Every well-formed subtree is parsed back as it was serialized. *)
Lemma wf_parses_subtree (e : Element) :
  wf_element e = true → parses_subtree e.
Proof.
  induction e as [kl lv t v i cs IH] using Element_ind'.
  intros (Ht & Hi & Hv & Hcs)%wf_element_unfold. simpl in Ht, Hi, Hv, Hcs.
  assert (Forall parses_subtree cs) as Hsub.
  { clear -IH Hcs. induction IH as [|c cs Hc _ IHcs]; [constructor|].
    inversion Hcs; subst. constructor; auto. }
  clear IH Hcs. intros l st parent Hl Hparent Hp.
  rewrite gedcom_lines_relevel. simpl tag. simpl value. simpl id.
  simpl child_elements. simpl parse_from.
  rewrite parse_line_read, read_line_format by done. simpl rbind.
  set (m := mkGroups (str_of_int l) i t (or_None v)).
  set (a := length (heap st)).
  assert (∃ st1, loop_body st l m = OK st1
                 ∧ heap st1 = attach parent a (heap st) ++ [new_object l m parent]
                 ∧ level_to_obj st1 !! l = Some a
                 ∧ roots st1 = roots st ++ (if bool_decide (l = 0) then [a] else [])
                 ∧ ∀ k, k < l → level_to_obj st1 !! k = level_to_obj st !! k)
    as (st1 & -> & Hheap1 & Hopen1 & Hroots1 & Hkeep1).
  { rewrite loop_body_unfold. cbv zeta. fold a.
    destruct (bool_decide (l = 0)) eqn:Hl0.
    - subst parent. eexists. split; [done|]. simpl.
      split; [done|]. split; [by rewrite lookup_insert_eq|]. split; [done|].
      intros k Hk. apply lookup_insert_ne. apply bool_decide_eq_true in Hl0. lia.
    - apply bool_decide_eq_false in Hl0.
      destruct (Hp Hl0) as (p & Hpar & Hlt). rewrite Hpar in Hparent.
      rewrite <- Hparent. eexists. split; [done|]. simpl.
      split.
      { rewrite Hpar. simpl. by rewrite alter_app_l. }
      split; [by rewrite lookup_insert_eq|]. split; [by rewrite app_nil_r|].
      intros k Hk. rewrite lookup_insert_ne by lia.
      rewrite lookup_filter_below. by rewrite decide_True. }
  assert (length (heap st1) = S a) as Hlen1.
  { rewrite Hheap1, length_app, length_attach. simpl. unfold a. lia. }
  cbn [rbind].
  destruct (parse_children cs Hsub l st1 a Hl Hopen1)
    as (st' & -> & Hheap' & Hroots' & Hkeep').
  { lia. }
  exists st'. split; [done|]. split; [|split].
  - rewrite Hheap', Hlen1, Hheap1, block_unfold. simpl.
    rewrite alter_app_r_alt by (rewrite length_attach; unfold a; lia).
    rewrite length_attach.
    replace (a - length (heap st))%nat with 0%nat by (unfold a; lia).
    by rewrite <- app_assoc.
  - by rewrite Hroots', Hroots1.
  - intros k' Hk'. rewrite Hkeep', Hkeep1 by lia. done.
Qed.

(** *** Reading the store back *)

Lemma holds_at_app (h : list object) (a : addr) (b1 b2 : list object) :
  holds_at h a (b1 ++ b2) →
  holds_at h a b1 ∧ holds_at h (a + length b1)%nat b2.
Proof.
  intros Hh. split.
  - intros i o Hi. apply Hh. by apply lookup_app_l_Some.
  - intros i o Hi. rewrite <- Nat.add_assoc. apply Hh.
    rewrite lookup_app_r by lia. by replace (length b1 + i - length b1)%nat with i by lia.
Qed.

Lemma holds_at_suffix (pre b : list object) :
  holds_at (pre ++ b) (length pre) b.
Proof.
  intros i o Hi. rewrite lookup_app_r by lia.
  by replace (length pre + i - length pre)%nat with i by lia.
Qed.

Lemma canon_relevel (e : Element) :
  ∀ l, canon (relevel l e) = relevel l (canon e).
Proof.
  induction e as [kl lv t v i cs IH] using Element_ind'. intros l. simpl.
  f_equal. rewrite !map_map. induction IH as [|c cs Hc _ IHcs]; simpl; [done|].
  by rewrite Hc, IHcs.
Qed.

Lemma size_pos (e : Element) : (1 ≤ size e)%nat.
Proof. destruct e. simpl. lia. Qed.

(** The subtrees stored one after the other are read back one by one. *)
Lemma reify_blocks (cs : list Element) (h : list object) (fuel : nat)
    (parent : option addr) (l : Z) :
  Forall (λ c, ∀ a parent,
            holds_at h a (block a parent l c) → (size c ≤ fuel)%nat →
            reify fuel h a = Some (relevel l (canon c))) cs →
  ∀ a, holds_at h a (blocks a parent l cs) →
       (list_sum (map size cs) ≤ fuel)%nat →
       mapM (reify fuel h) (child_addrs a cs) = Some (map (λ c, relevel l (canon c)) cs).
Proof.
  induction 1 as [|c cs Hc _ IH]; intros a Hh Hfuel; simpl in *; [done|].
  apply holds_at_app in Hh as [Hc1 Hcs]. rewrite length_block in Hcs.
  rewrite (Hc a parent Hc1) by lia. simpl.
  rewrite (IH _ Hcs) by lia. done.
Qed.

Lemma reify_S (fuel : nat) (h : list object) (a : addr) :
  reify (S fuel) h a =
    o ← h !! a;
    cs ← mapM (reify fuel h) (o_child_elements o);
    Some (mkElement (o_cls o) (Some (o_level o)) (o_tag o) (o_value o) (o_id o) cs).
Proof. reflexivity. Qed.

Lemma reify_block (e : Element) :
  ∀ (h : list object) (fuel : nat) (l : Z) (a : addr) (parent : option addr),
    holds_at h a (block a parent l e) → (size e ≤ fuel)%nat →
    reify fuel h a = Some (relevel l (canon e)).
Proof.
  induction e as [kl lv t v i cs IH] using Element_ind'.
  intros h fuel l a parent Hh Hfuel. rewrite block_unfold in Hh.
  simpl in Hh, Hfuel. destruct fuel as [|fuel]; [lia|].
  pose proof (Hh 0%nat _ eq_refl) as Hroot. rewrite Nat.add_0_r in Hroot.
  assert (holds_at h (S a) (blocks (S a) (Some a) (l + 1) cs)) as Hcs.
  { intros j o Hj. replace (S a + j)%nat with (a + S j)%nat by lia. by apply Hh. }
  rewrite reify_S. unfold addr in *. rewrite Hroot. simpl.
  rewrite (reify_blocks cs h fuel (Some a) (l + 1)); [by rewrite map_map | | done | lia].
  clear -IH. induction IH as [|c cs Hc _ IHcs]; constructor; [|done].
  intros a' parent'. apply Hc.
Qed.

(** *** The normalization done by serialization *)

Lemma head_element_header : head_element = OK header.
Proof. reflexivity. Qed.

Lemma trailer_element : element "TRLR" (Some 0) (Some "") = OK trailer.
Proof. reflexivity. Qed.

Lemma relevel_with_level (l : Z) (lv : option Z) (e : Element) :
  relevel l (with_level lv e) = relevel l e.
Proof. by destruct e. Qed.

Lemma ensure_levels_relevel (roots : list Element) :
  ensure_levels roots = OK (relevel 0 <$> roots).
Proof.
  unfold ensure_levels. induction roots as [|r roots IH]; simpl; [done|].
  unfold set_levels_downward at 1.
  change (level (with_level (Some 0) r)) with (Some 0).
  rewrite set_levels_from_relevel, relevel_with_level. simpl. by rewrite IH.
Qed.

Lemma last_cons_nonempty {A} (x : A) (l : list A) :
  l ≠ [] → last (x :: l) = last l.
Proof. by destruct l. Qed.

Lemma ensure_header_trailer_normal (roots : list Element) :
  ensure_header_trailer roots
  = OK ((if needs_header roots then [header] else [])
        ++ roots
        ++ (if needs_trailer roots then [trailer] else [])).
Proof.
  unfold ensure_header_trailer, needs_header, needs_trailer.
  rewrite head_element_header, trailer_element.
  destruct roots as [|r roots]; [done|].
  destruct (String.eqb (tag r) "HEAD") eqn:Hhead; cbn [rbind negb].
  - destruct (last (r :: roots)) as [z|];
      [destruct (String.eqb (tag z) "TRLR")|];
      cbn [rbind negb app]; rewrite ?app_nil_r; reflexivity.
  - rewrite (last_cons_nonempty header (r :: roots)) by done.
    destruct (last (r :: roots)) as [z|];
      [destruct (String.eqb (tag z) "TRLR")|];
      cbn [rbind negb app]; rewrite ?app_nil_r; reflexivity.
Qed.

Lemma gedcom_lines_normalized (gf : GedcomFile) :
  Document.gedcom_lines gf
  = OK (normalized (root_elements gf),
        concat (map Tree.gedcom_lines (normalized (root_elements gf)))).
Proof.
  unfold Document.gedcom_lines. rewrite ensure_header_trailer_normal. simpl rbind.
  rewrite ensure_levels_relevel. done.
Qed.

(** *** The whole file *)

Lemma parse_roots (rs : list Element) :
  Forall (λ r, wf_element r = true) rs →
  ∀ st, ∃ st',
    parse_from st (concat (map (λ r, Tree.gedcom_lines (relevel 0 r)) rs)) = OK st'
    ∧ heap st' = heap st ++ blocks (length (heap st)) None 0 rs
    ∧ roots st' = roots st ++ child_addrs (length (heap st)) rs.
Proof.
  induction 1 as [|r rs Hr _ IH]; intros st; simpl.
  - exists st. by rewrite !app_nil_r.
  - rewrite parse_from_app.
    destruct (wf_parses_subtree r Hr 0 st None) as (st1 & -> & Hheap1 & Hroots1 & _);
      [done | done | done |].
    cbn [rbind]. simpl in Hheap1, Hroots1.
    destruct (IH st1) as (st' & -> & Hheap' & Hroots').
    exists st'. split; [done|].
    assert (length (heap st1) = (length (heap st) + size r)%nat) as Hlen1.
    { by rewrite Hheap1, length_app, length_block. }
    rewrite Hheap', Hroots', Hlen1, Hheap1, Hroots1.
    by rewrite <- !app_assoc.
Qed.

Lemma wf_header_trailer : wf_element header = true ∧ wf_element trailer = true.
Proof. split; reflexivity. Qed.

Lemma reify_roots (rs : list Element) :
  mapM (reify (length (blocks 0%nat None 0 rs)) (blocks 0%nat None 0 rs))
       (child_addrs 0%nat rs)
  = Some ((λ r, relevel 0 (canon r)) <$> rs).
Proof.
  apply (reify_blocks rs _ _ None 0).
  - apply Forall_forall. intros c _ a parent. apply reify_block.
  - apply (holds_at_suffix []).
  - by rewrite length_blocks.
Qed.

Lemma wf_normal_roots (rs : list Element) :
  forallb wf_element rs = true →
  Forall (λ r, wf_element r = true)
         ((if needs_header rs then [header] else [])
          ++ rs ++ (if needs_trailer rs then [trailer] else [])).
Proof.
  intros Hwf. destruct wf_header_trailer as [Hh Ht].
  rewrite forallb_forall in Hwf. repeat apply Forall_app_2.
  - destruct (needs_header _); repeat constructor; done.
  - apply Forall_forall. intros r Hr%list_elem_of_In. by apply Hwf.
  - destruct (needs_trailer _); repeat constructor; done.
Qed.

Lemma parse_serialized_roots (rs : list Element) :
  Forall (λ r, wf_element r = true) rs →
  ∃ st, Parser.parse (concat (map Tree.gedcom_lines (relevel 0 <$> rs))) = OK st
        ∧ root_trees st = Some (canon <$> (relevel 0 <$> rs)).
Proof.
  intros Hrs.
  destruct (parse_roots rs Hrs initial) as (st & Hparse & Hheap & Hroots).
  exists st. split.
  - unfold Parser.parse. rewrite <- Hparse. f_equal. f_equal.
    clear. induction rs as [|r l IH]; [done|].
    change (Tree.gedcom_lines (relevel 0 r) :: map Tree.gedcom_lines (relevel 0 <$> l)
            = Tree.gedcom_lines (relevel 0 r)
              :: map (λ r, Tree.gedcom_lines (relevel 0 r)) l).
    by rewrite IH.
  - unfold root_trees. simpl in Hheap, Hroots. rewrite Hheap, Hroots.
    rewrite reify_roots. f_equal. rewrite <- list_fmap_compose.
    apply list_fmap_ext. intros _ r _. simpl. by rewrite canon_relevel.
Qed.

(** X1: round trip. When every root of a file is well formed (tags and
    ids are tokens of the grammar; values are absent, empty, or free of
    newlines and of white space at their end), serializing the file
    succeeds, leaves the roots normalized (a header first and a trailer
    last, synthesized when missing, levels counted from 0), and parsing
    the lines gives back exactly these roots, in the same order and with
    the same nesting, tags, ids, levels and values, an empty value being
    read back as no value and the class being the one registered for the
    tag. *)
Theorem gedcom_lines_parse_round_trip (gf : GedcomFile) :
  forallb wf_element (root_elements gf) = true →
  ∃ roots' lines st,
    Document.gedcom_lines gf = OK (roots', lines)
    ∧ roots' = normalized (root_elements gf)
    ∧ Parser.parse lines = OK st
    ∧ root_trees st = Some (canon <$> roots').
Proof.
  intros Hwf. rewrite gedcom_lines_normalized.
  destruct (parse_serialized_roots _ (wf_normal_roots _ Hwf)) as (st & Hparse & Htrees).
  eexists _, _, st. split; [done|]. split; [done|]. split; [exact Hparse|].
  exact Htrees.
Qed.

Lemma gedcom_lines_parse_round_trip_witness :
  ∃ roots' lines st,
    Document.gedcom_lines small_file = OK (roots', lines)
    ∧ roots' = normalized (root_elements small_file)
    ∧ Parser.parse lines = OK st
    ∧ root_trees st = Some (canon <$> roots').
Proof. apply (gedcom_lines_parse_round_trip small_file). reflexivity. Defined.

Lemma wf_strict_wf_element (e : Element) :
  wf_strict e = true → wf_element e = true ∧ bare (canon e) = bare e.
Proof.
  induction e as [k lv t v i cs IH] using Element_ind'. simpl.
  intros [[[Ht Hi]%andb_true_iff Hv]%andb_true_iff Hcs]%andb_true_iff.
  rewrite (wf_value_truthy v Hv), Ht, Hi, Hv. simpl.
  assert (forallb wf_element cs = true ∧ map bare (map canon cs) = map bare cs)
    as [-> ->]; [|done].
  induction IH as [|c cs Hc _ IHcs]; simpl in *; [done|].
  apply andb_true_iff in Hcs as [Hc' Hcs'].
  destruct (Hc Hc') as [-> ->]. destruct (IHcs Hcs') as [-> ->]. done.
Qed.

Lemma bare_relevel (e : Element) : ∀ l, bare (relevel l e) = bare e.
Proof.
  induction e as [k lv t v i cs IH] using Element_ind'. intros l. simpl.
  f_equal. rewrite map_map. induction IH as [|c cs Hc _ IHcs]; simpl; [done|].
  by rewrite Hc, IHcs.
Qed.

(** C1 (as the code has it): when every tag and id of a document is a
    token of the grammar and every value is absent or is non-empty,
    free of newlines and not ending in white space, serializing the
    document and parsing the lines succeeds, and the parsed roots are,
    in tags, values, ids, nesting and order, the roots of the document,
    behind the synthesized header when the document does not start with
    a HEAD and before the synthesized trailer when it does not end with
    a TRLR. *)
Theorem serialize_parse_matches (gf : GedcomFile) :
  forallb wf_strict (root_elements gf) = true →
  ∃ roots' lines st trees,
    Document.gedcom_lines gf = OK (roots', lines)
    ∧ Parser.parse lines = OK st
    ∧ root_trees st = Some trees
    ∧ bare <$> trees
      = (if needs_header (root_elements gf) then [bare (canon header)] else [])
        ++ (bare <$> root_elements gf)
        ++ (if needs_trailer (root_elements gf) then [bare (canon trailer)] else []).
Proof.
  intros Hstrict.
  assert (Forall (λ r, wf_element r = true ∧ bare (canon r) = bare r)
                 (root_elements gf)) as Hroots.
  { apply Forall_forall. intros r Hr%list_elem_of_In.
    rewrite forallb_forall in Hstrict. by apply wf_strict_wf_element, Hstrict. }
  assert (forallb wf_element (root_elements gf) = true) as Hwf.
  { apply forallb_forall. intros r Hr%list_elem_of_In.
    by apply (proj1 (Forall_forall _ _) Hroots). }
  rewrite gedcom_lines_normalized.
  destruct (parse_serialized_roots _ (wf_normal_roots _ Hwf)) as (st & Hparse & Htrees).
  eexists _, _, st, _. split; [done|]. split; [exact Hparse|].
  split; [exact Htrees|].
  rewrite <- !list_fmap_compose, !fmap_app. f_equal; [|f_equal].
  - destruct (needs_header _); [|done]. reflexivity.
  - apply Forall_fmap_ext_1. eapply Forall_impl; [exact Hroots|].
    intros r [_ Hr]. simpl. by rewrite canon_relevel, bare_relevel.
  - destruct (needs_trailer _); [|done]. reflexivity.
Qed.

Lemma serialize_parse_matches_witness :
  ∃ roots' lines st trees,
    Document.gedcom_lines small_file = OK (roots', lines)
    ∧ Parser.parse lines = OK st
    ∧ root_trees st = Some trees
    ∧ bare <$> trees
      = [bare (canon header)] ++ (bare <$> root_elements small_file)
        ++ [bare (canon trailer)].
Proof. apply (serialize_parse_matches small_file). reflexivity. Defined.

(** C1 (as stated) fails: a note whose value ends in two spaces is
    written with them, and the parser, which strips every line, reads the
    value back without them. *)
Lemma serialize_parse_trims_value :
  (do '(_, lines) <- Document.gedcom_lines trailing_space_file;
   do st <- Parser.parse lines;
   OK (lines !! 8%nat,
       match root_trees st with
       | Some trees => map (λ t, (tag t, value t)) trees
       | None => []
       end))
  = OK (Some "0 NOTE hi  ",
        [("HEAD", None); ("NOTE", Some "hi"); ("TRLR", None)]).
Proof. vm_compute. reflexivity. Qed.

(** ** Serialization: the normal form of the roots *)

Lemma needs_header_normal (rs post : list Element) :
  needs_header ((if needs_header rs then [header] else []) ++ rs ++ post) = false.
Proof. destruct rs as [|r rs]; simpl; [done|]. by destruct (String.eqb (tag r) "HEAD") eqn:H; simpl; [rewrite H|]. Qed.

Lemma needs_trailer_normal (pre rs : list Element) :
  needs_trailer (pre ++ rs ++ (if needs_trailer rs then [trailer] else [])) = false.
Proof.
  unfold needs_trailer at 1. rewrite !last_app.
  unfold needs_trailer. destruct (last rs) as [r|] eqn:Hlast; simpl.
  - destruct (String.eqb (tag r) "TRLR") eqn:H; simpl; [by rewrite H | done].
  - done.
Qed.

Lemma relevel_relevel (e : Element) : ∀ l l', relevel l (relevel l' e) = relevel l e.
Proof.
  induction e as [kl lv t v i cs IH] using Element_ind'. intros l l'. simpl.
  f_equal. rewrite map_map. induction IH as [|c cs Hc _ IHcs]; simpl; [done|].
  by rewrite Hc, IHcs.
Qed.

Lemma tag_relevel (l : Z) (e : Element) : tag (relevel l e) = tag e.
Proof. by destruct e. Qed.

Lemma needs_header_fmap (rs : list Element) :
  needs_header (relevel 0 <$> rs) = needs_header rs.
Proof. destruct rs as [|r rs]; simpl; [done|]. by rewrite tag_relevel. Qed.

Lemma needs_trailer_fmap (rs : list Element) :
  needs_trailer (relevel 0 <$> rs) = needs_trailer rs.
Proof.
  unfold needs_trailer. rewrite fmap_last. destruct (last rs) as [r|]; simpl; [|done].
  by rewrite tag_relevel.
Qed.

Lemma normalized_idempotent (rs : list Element) :
  normalized (normalized rs) = normalized rs.
Proof.
  unfold normalized at 1.
  assert (needs_header (normalized rs) = false) as ->.
  { unfold normalized. rewrite needs_header_fmap. apply needs_header_normal. }
  assert (needs_trailer (normalized rs) = false) as ->.
  { unfold normalized. rewrite needs_trailer_fmap. apply needs_trailer_normal. }
  simpl. rewrite app_nil_r. unfold normalized. rewrite <- list_fmap_compose.
  apply list_fmap_ext. intros _ r _. simpl. apply relevel_relevel.
Qed.

(** X2: [ensure_header_trailer] never raises. It puts the synthesized
    header in front exactly when the first root is not a HEAD (or there
    is no root), and the synthesized trailer at the end exactly when the
    last root is not a TRLR, and leaves the roots it finds as they are
    and where they are; the result starts with a HEAD and ends with a
    TRLR, and a second call changes nothing. *)
Theorem ensure_header_trailer_idempotent (rs : list Element) :
  ∃ rs',
    ensure_header_trailer rs = OK rs'
    ∧ rs' = (if needs_header rs then [header] else [])
            ++ rs ++ (if needs_trailer rs then [trailer] else [])
    ∧ tag <$> head rs' = Some "HEAD"
    ∧ tag <$> last rs' = Some "TRLR"
    ∧ ensure_header_trailer rs' = OK rs'.
Proof.
  eexists. split; [apply ensure_header_trailer_normal|]. split; [done|].
  set (rs' := _ ++ rs ++ _).
  pose proof (needs_header_normal rs (if needs_trailer rs then [trailer] else []))
    as Hh.
  pose proof (needs_trailer_normal (if needs_header rs then [header] else []) rs)
    as Ht.
  fold rs' in Hh, Ht. split; [|split].
  - unfold needs_header in Hh. destruct rs' as [|r rs'']; [done|]. simpl.
    apply negb_false_iff, String.eqb_eq in Hh. by rewrite Hh.
  - unfold needs_trailer in Ht. destruct (last rs') as [r|]; [|done]. simpl.
    apply negb_false_iff, String.eqb_eq in Ht. by rewrite Ht.
  - rewrite ensure_header_trailer_normal, Hh, Ht. simpl. by rewrite app_nil_r.
Qed.

Lemma linked_ensure_levels_relink (roots : list Linked.Element) :
  Linked.ensure_levels roots
  = OK ((λ r, relink 0 (Linked.gedcom_file r) r) <$> roots).
Proof.
  unfold Linked.ensure_levels. induction roots as [|r roots IH]; simpl; [done|].
  unfold Linked.set_levels_downward at 1.
  change (Linked.level (Linked.with_level (Some 0) r)) with (Some 0).
  rewrite linked_set_levels_from_relink, IH. simpl. do 3 f_equal. by destruct r.
Qed.

(** X3: [ensure_levels] never raises, whatever the levels it finds,
    unset ones included. Every root ends at level 0 with every child one
    level below its parent; every element below a root is given the
    [gedcom_file] of that root, which the root keeps; classes, tags,
    values, ids and the nesting stay as they are. On the trees without
    their back-references this is the [ensure_levels] that serialization
    runs. *)
Theorem ensure_levels_total (roots : list Linked.Element) :
  ∃ roots',
    Linked.ensure_levels roots = OK roots'
    ∧ Forall2 (λ r r',
                 Linked.level r' = Some 0
                 ∧ levels_consistent (Linked.erase r') = true
                 ∧ unlevel (Linked.erase r') = unlevel (Linked.erase r)
                 ∧ same_file (Linked.gedcom_file r) r' = true)
              roots roots'
    ∧ Document.ensure_levels (Linked.erase <$> roots) = OK (Linked.erase <$> roots').
Proof.
  eexists. split; [apply linked_ensure_levels_relink|]. split.
  - apply Forall2_fmap_r, Forall_Forall2_diag, Forall_forall. intros r _.
    cbv beta delta [compose]. rewrite erase_relink.
    pose proof (levels_consistent_relevel 0 (Linked.erase r)) as [Hc Hu].
    split; [by destruct r|]. split; [done|]. split; [done|].
    apply same_file_relink.
  - rewrite ensure_levels_relevel, <- !list_fmap_compose. f_equal.
    apply list_fmap_ext. intros _ r _. simpl. by rewrite erase_relink.
Qed.

(** X4: [GedcomFile.gedcom_lines] never raises and reads nothing of the
    file but its roots; it leaves them in their normal form and is
    idempotent: called again on the roots it leaves, whatever the pointer
    table and the counter hold, it yields the same lines and leaves the
    same roots. *)
Theorem gedcom_lines_idempotent (gf : GedcomFile) :
  ∃ roots' lines,
    Document.gedcom_lines gf = OK (roots', lines)
    ∧ roots' = normalized (root_elements gf)
    ∧ ∀ ptrs next,
        Document.gedcom_lines (mkGedcomFile roots' ptrs next) = OK (roots', lines).
Proof.
  eexists _, _. split; [apply gedcom_lines_normalized|]. split; [done|].
  intros ptrs next. rewrite gedcom_lines_normalized. simpl.
  by rewrite normalized_idempotent.
Qed.

(** ** Serialization as one string *)

Lemma eqb_newline (c : ascii) : Ascii.eqb c newline = is_newline c.
Proof. destruct c as [[|] [|] [|] [|] [|] [|] [|] [|]]; reflexivity. Qed.

Lemma all_chars_app (p : ascii → bool) (a b : string) :
  all_chars p (a +:+ b) = all_chars p a && all_chars p b.
Proof.
  induction a as [|c a IH]; [by rewrite str_app_nil_l|].
  rewrite str_app_cons. simpl. by rewrite IH, andb_assoc.
Qed.

Lemma all_chars_impl (p q : ascii → bool) (s : string) :
  (∀ c, p c = true → q c = true) → all_chars p s = true → all_chars q s = true.
Proof.
  intros Hpq. induction s as [|c s IH]; [done|]. simpl.
  intros [Hc Hs]%andb_true_iff. by rewrite (Hpq c Hc), IH.
Qed.

Lemma split_none (s : string) :
  all_chars (λ c, negb (is_newline c)) s = true → split newline s = [s].
Proof.
  induction s as [|c s IH]; [done|]. simpl.
  intros [Hc Hs]%andb_true_iff. rewrite eqb_newline.
  apply negb_true_iff in Hc. by rewrite Hc, IH.
Qed.

Lemma split_app (a b : string) :
  all_chars (λ c, negb (is_newline c)) a = true →
  split newline (a +:+ String newline b) = a :: split newline b.
Proof.
  induction a as [|c a IH].
  - intros _. rewrite str_app_nil_l. cbn [split]. by rewrite Ascii.eqb_refl.
  - cbn [all_chars]. intros [Hc Ha]%andb_true_iff. rewrite str_app_cons.
    cbn [split]. rewrite eqb_newline. apply negb_true_iff in Hc.
    by rewrite Hc, IH.
Qed.

Lemma split_join (lines : list string) :
  lines ≠ [] →
  Forall (λ s, all_chars (λ c, negb (is_newline c)) s = true) lines →
  split newline (join (String newline "") lines) = lines.
Proof.
  induction lines as [|s lines IH]; [done|]. intros _ Hall.
  inversion Hall as [|? ? Hs Hrest]; subst.
  destruct lines as [|t lines].
  - simpl. by apply split_none.
  - change (join (String newline "") (s :: t :: lines))
      with (s +:+ String newline ("" +:+ join (String newline "") (t :: lines))).
    rewrite str_app_nil_l, split_app by done. f_equal. by apply IH.
Qed.

Lemma digit_not_newline (c : ascii) : is_digit c = true → negb (is_newline c) = true.
Proof. destruct c as [[|] [|] [|] [|] [|] [|] [|] [|]]; vm_compute; congruence. Qed.

Lemma tag_char_not_newline (c : ascii) :
  is_tag_char c = true → negb (is_newline c) = true.
Proof. destruct c as [[|] [|] [|] [|] [|] [|] [|] [|]]; vm_compute; congruence. Qed.

Lemma id_char_not_newline (c : ascii) :
  is_id_char c = true → negb (is_newline c) = true.
Proof. destruct c as [[|] [|] [|] [|] [|] [|] [|] [|]]; vm_compute; congruence. Qed.

Lemma line_of_no_newline (m : groupdict) :
  wf_groups m = true → all_chars (λ c, negb (is_newline c)) (line_of m) = true.
Proof.
  destruct m as [lv i tg v]. unfold wf_groups, line_of. simpl.
  intros [[[Hlv Hi]%andb_true_iff Htg]%andb_true_iff Hv]%andb_true_iff.
  apply andb_true_iff in Hlv as [_ Hlv]. apply andb_true_iff in Htg as [_ Htg].
  rewrite !all_chars_app.
  rewrite (all_chars_impl _ _ _ digit_not_newline Hlv).
  rewrite (all_chars_impl _ _ _ tag_char_not_newline Htg). simpl.
  assert (all_chars (λ c, negb (is_newline c)) (id_part i) = true) as ->.
  { destruct i as [[|c r]|]; try done. simpl in Hi.
    destruct (span is_id_char r) as [body r'] eqn:Hspan.
    apply andb_true_iff in Hi as [[Hc _]%andb_true_iff Hr'].
    apply Ascii.eqb_eq in Hc as ->. apply String.eqb_eq in Hr' as ->.
    apply span_app in Hspan as (-> & Hbody & _).
    change (id_part (Some (String "@" (body +:+ "@"))))
      with (" " +:+ "@" +:+ body +:+ "@").
    rewrite !all_chars_app.
    by rewrite (all_chars_impl _ _ _ id_char_not_newline Hbody). }
  destruct v as [s|]; [|done].
  simpl in Hv. apply andb_true_iff in Hv as [[_ Hs]%andb_true_iff _].
  change (value_part (Some s)) with (" " +:+ s). by rewrite all_chars_app, Hs.
Qed.

Lemma gedcom_lines_no_newline (e : Element) :
  wf_element e = true → ∀ l, 0 ≤ l →
  Forall (λ s, all_chars (λ c, negb (is_newline c)) s = true)
         (Tree.gedcom_lines (relevel l e)).
Proof.
  induction e as [kl lv t v i cs IH] using Element_ind'.
  intros (Ht & Hi & Hv & Hcs)%wf_element_unfold l Hl.
  cbn [tag id value child_elements] in Ht, Hi, Hv, Hcs.
  rewrite gedcom_lines_relevel. cbn [tag id value child_elements]. constructor.
  - rewrite format_line_line_of. apply line_of_no_newline.
    unfold wf_groups. simpl.
    by rewrite str_of_int_wf, (wf_id_truthy i Hi), Hi, Ht, Hv.
  - clear Ht Hi Hv. induction IH as [|c cs Hc _ IHcs]; simpl; [constructor|].
    inversion Hcs; subst. apply Forall_app. split.
    + apply Hc; [done | lia].
    + by apply IHcs.
Qed.

Lemma serialized_roots_no_newline (rs : list Element) :
  Forall (λ r, wf_element r = true) rs →
  Forall (λ s, all_chars (λ c, negb (is_newline c)) s = true)
         (concat (map Tree.gedcom_lines (relevel 0 <$> rs))).
Proof.
  induction 1 as [|r rs Hr _ IH]; simpl; [constructor|].
  apply Forall_app. split; [by apply gedcom_lines_no_newline | exact IH].
Qed.

Lemma normalized_lines_nonempty (rs : list Element) :
  concat (map Tree.gedcom_lines (normalized rs)) ≠ [].
Proof.
  unfold normalized. destruct (needs_header rs) eqn:Hh.
  - done.
  - destruct rs as [|r rs]; [done|]. simpl. by destruct r.
Qed.

(** X5: round trip through one string. When every root of a file is
    well formed, [gedcom_lines_as_string] returns a text that
    [parse_string] accepts, and the parsed roots are the normalized roots
    of the file as a parser reads them: same order, nesting, levels,
    tags, ids and values, an empty value read back as no value and each
    class the one registered for the tag. No line of the text contains a
    newline, so splitting the text gives the serialized lines back. *)
Theorem gedcom_string_parse_round_trip (gf : GedcomFile) :
  forallb wf_element (root_elements gf) = true →
  ∃ text lines roots' st,
    gedcom_lines_as_string gf = OK text
    ∧ Document.gedcom_lines gf = OK (roots', lines)
    ∧ split newline text = lines
    ∧ parse_string text = OK st
    ∧ root_trees st = Some (canon <$> normalized (root_elements gf)).
Proof.
  intros Hwf. unfold gedcom_lines_as_string, parse_string.
  rewrite gedcom_lines_normalized. simpl.
  pose proof (wf_normal_roots _ Hwf) as Hrs.
  destruct (parse_serialized_roots _ Hrs) as (st & Hparse & Htrees).
  assert (split newline
            (join (String newline "")
               (concat (map Tree.gedcom_lines (normalized (root_elements gf)))))
          = concat (map Tree.gedcom_lines (normalized (root_elements gf)))) as Hsplit.
  { apply split_join; [apply normalized_lines_nonempty|].
    by apply serialized_roots_no_newline. }
  eexists _, _, _, st. split; [done|]. split; [done|]. split; [exact Hsplit|].
  rewrite Hsplit. split; [exact Hparse | exact Htrees].
Qed.

Lemma gedcom_string_parse_round_trip_witness :
  ∃ text lines roots' st,
    gedcom_lines_as_string small_file = OK text
    ∧ Document.gedcom_lines small_file = OK (roots', lines)
    ∧ split newline text = lines
    ∧ parse_string text = OK st
    ∧ root_trees st = Some (canon <$> normalized (root_elements small_file)).
Proof. apply (gedcom_string_parse_round_trip small_file). reflexivity. Defined.

(** ** Parser: what the input may look like, and how it fails *)

Lemma parse_line_strip (st : state) (line : string) :
  parse_line st (strip line) = parse_line st line.
Proof. unfold parse_line. by rewrite strip_idempotent. Qed.

Lemma parse_from_padding (lines : list string) :
  ∀ st, parse_from st lines
        = parse_from st (filter (λ l, l ≠ "") (strip <$> lines)).
Proof.
  induction lines as [|line lines IH]; intros st; [done|].
  rewrite fmap_cons, filter_cons. destruct (decide (strip line ≠ "")) as [Hne|Heq].
  - simpl. rewrite parse_line_strip.
    destruct (parse_line st line) as [st'|]; simpl; [apply IH | done].
  - apply dec_stable in Heq. simpl. rewrite (parse_line_blank st line Heq). simpl.
    apply IH.
Qed.

(** X6: the parser reads a line only through its stripped text and skips
    the lines that are blank once stripped: parsing a list of lines gives
    the same result, state or exception, as parsing the stripped lines
    with the blank ones removed. *)
Theorem parse_ignores_padding (lines : list string) :
  Parser.parse lines = Parser.parse (filter (λ l, l ≠ "") (strip <$> lines)).
Proof. apply parse_from_padding. Qed.

(** X7: the only ways the parser fails. When [__parse] raises, the lines
    before some line were read without error, and that line is either
    one that, stripped, is not blank and does not match [line_format],
    the exception being [NotImplementedError] with the stripped line, or
    one of a level above 0 that finds no element open one level up, the
    exception being the [KeyError] of [level_to_obj[level - 1]]. The
    conversion of the level and the constructor of the element never
    raise. *)
Theorem parse_raises_only (lines : list string) (e : exn) :
  Parser.parse lines = Raise e →
  ∃ pre line post st,
    lines = pre ++ line :: post
    ∧ Parser.parse pre = OK st
    ∧ ((strip line ≠ "" ∧ line_format_match (strip line) = None
        ∧ e = NotImplementedError (Some (strip line)))
       ∨ (∃ m lv, line_format_match (strip line) = Some m
                  ∧ int_of_digits (g_level m) = Some lv ∧ 0 < lv
                  ∧ level_to_obj st !! (lv - 1) = None
                  ∧ e = KeyErrorLevel (lv - 1))).
Proof.
  unfold Parser.parse. generalize initial.
  induction lines as [|line lines IH]; intros st Hraise; [done|].
  simpl in Hraise. destruct (parse_line st line) as [st'|e'] eqn:Hline.
  - simpl in Hraise. destruct (IH st' Hraise) as (pre & l & post & st1 & -> & Hpre & H).
    exists (line :: pre), l, post, st1. split; [done|]. split; [|done].
    simpl. by rewrite Hline.
  - simpl in Hraise. injection Hraise as <-.
    exists [], line, lines, st. split; [done|]. split; [done|].
    by apply parse_line_raises.
Qed.

Lemma parse_raises_only_witness :
  ∃ pre line post st,
    ["0 @I1@ INDI"; "2 DATE 1900"] = pre ++ line :: post
    ∧ Parser.parse pre = OK st
    ∧ ((strip line ≠ "" ∧ line_format_match (strip line) = None
        ∧ KeyErrorLevel 1 = NotImplementedError (Some (strip line)))
       ∨ (∃ m lv, line_format_match (strip line) = Some m
                  ∧ int_of_digits (g_level m) = Some lv ∧ 0 < lv
                  ∧ level_to_obj st !! (lv - 1) = None
                  ∧ KeyErrorLevel 1 = KeyErrorLevel (lv - 1))).
Proof.
  apply (parse_raises_only ["0 @I1@ INDI"; "2 DATE 1900"] (KeyErrorLevel 1)).
  reflexivity.
Defined.

(** X8: on a text that does not end in white space, as every stripped
    line is, [line_format] matches with groups [m] exactly when the text
    is the level, the optional pointer, the tag and the optional value of
    [m] joined by single spaces, the level being a non-empty run of
    digits, the pointer letters and digits between two [@], the tag a
    non-empty run of capitals, digits and underscores, and the value
    absent or non-empty, free of newlines and not ending in white space. *)
Theorem line_format_grammar (l : string) (m : groupdict) :
  last_not isspace l = true →
  line_format_match l = Some m ↔ l = line_of m ∧ wf_groups m = true.
Proof.
  intros Hlast. split.
  - intros Hm. by apply line_format_match_inv.
  - intros [-> Hwf]. by apply line_format_match_line_of.
Qed.

Lemma line_format_grammar_witness :
  last_not isspace "0 @I1@ INDI" = true
  ∧ (line_format_match "0 @I1@ INDI" = Some (mkGroups "0" (Some "@I1@") "INDI" None)
     ↔ "0 @I1@ INDI" = line_of (mkGroups "0" (Some "@I1@") "INDI" None)
       ∧ wf_groups (mkGroups "0" (Some "@I1@") "INDI" None) = true).
Proof.
  split; [reflexivity|].
  apply (line_format_grammar "0 @I1@ INDI"). reflexivity.
Defined.

(** ** [GedcomFile.add_element]: what a call leaves in the file *)

Lemma find_free_id_None (steps : nat) (prefix : string)
    (ptrs : gmap string Element) :
  ∀ next next',
    find_free_id steps prefix ptrs next = (next', None) →
    next' = next + Z.of_nat steps
    ∧ ∀ m, next ≤ m < next + Z.of_nat steps → is_Some (ptrs !! mk_id prefix m).
Proof.
  induction steps as [|steps IH]; intros next next' H; simpl in H.
  - injection H as <-. split; [lia | intros m Hm; lia].
  - fold (mk_id prefix next) in H.
    destruct (decide (is_Some (ptrs !! mk_id prefix next))) as [Htaken|Hfree];
      [|done].
    apply IH in H as [-> Hall]. split; [lia|].
    intros m Hm. destruct (decide (m = next)) as [->|Hne]; [done|].
    apply Hall. lia.
Qed.

Lemma max_steps_value : Z.of_nat max_steps = 999999.
Proof. unfold max_steps. rewrite N_nat_Z. reflexivity. Qed.

Lemma mk_id_truthy (prefix : string) (n : Z) : truthy (Some (mk_id prefix n)) = true.
Proof. unfold mk_id. by rewrite str_app_cons. Qed.

(** The two stages of [add_element]: the allocation of an id for an
    element without level, and the registration. *)
Lemma add_element_unfold (gf : GedcomFile) (e : Element) :
  add_element gf e =
    match level e with
    | Some _ =>
        (mkGedcomFile
           (if bool_decide (level e = Some 0)
            then root_elements gf ++ [e] else root_elements gf)
           (if truthy (id e) then <[default "" (id e) := e]> (pointers gf)
            else pointers gf)
           (next_free_id gf), OK e)
    | None =>
        if negb (bool_decide (cls e = KIndividual) || bool_decide (cls e = KFamily))
        then (gf, Raise TypeError)
        else
          let prefix := if bool_decide (cls e = KIndividual) then "I" else "F" in
          let '(next, found) :=
            find_free_id max_steps prefix (pointers gf) (next_free_id gf) in
          match found with
          | Some i =>
              let e' := with_id (Some i) (relevel 0 e) in
              (mkGedcomFile (root_elements gf ++ [e'])
                            (if truthy (Some i) then <[i := e']> (pointers gf)
                             else pointers gf) next, OK e')
          | None =>
              (mkGedcomFile (root_elements gf) (pointers gf) next,
               Raise (Exception "Ran out of ids?"))
          end
    end.
Proof.
  unfold add_element. generalize max_steps. intros steps.
  destruct (level e) as [l|] eqn:Hlevel.
  { rewrite Hlevel. done. }
  destruct (negb _); [done|].
  unfold set_levels_downward.
  change (level (with_level (Some 0) e)) with (Some 0).
  rewrite set_levels_from_relevel, relevel_with_level.
  assert (cls (relevel 0 e) = cls e) as -> by (by destruct e).
  destruct (find_free_id steps _ (pointers gf) (next_free_id gf)) as [next [i|]];
    [|done].
  cbv zeta. assert (level (with_id (Some i) (relevel 0 e)) = Some 0) as Hl
    by (by destruct e).
  rewrite Hl. rewrite bool_decide_eq_true_2 by done. done.
Qed.



(** X10: a call of [add_element] that raises. The argument had no level,
    and the roots and the pointer table are as before the call. Either
    the argument is neither an Individual nor a Family, the exception is
    [TypeError] and the file is untouched; or the 999999 candidate ids
    from the counter on are all bound, the exception is the one that
    reports that no id is left, and the counter has moved past all of
    them. *)
Theorem add_element_raises (gf : GedcomFile) (e : Element) (ex : exn) :
  (add_element gf e).2 = Raise ex →
  let gf' := (add_element gf e).1 in
  level e = None
  ∧ root_elements gf' = root_elements gf
  ∧ pointers gf' = pointers gf
  ∧ ((ex = TypeError ∧ cls e ≠ KIndividual ∧ cls e ≠ KFamily ∧ gf' = gf)
     ∨ (ex = Exception "Ran out of ids?"
        ∧ (cls e = KIndividual ∨ cls e = KFamily)
        ∧ next_free_id gf' = next_free_id gf + 999999
        ∧ ∀ m, next_free_id gf ≤ m < next_free_id gf + 999999 →
               is_Some (pointers gf !! mk_id (if bool_decide (cls e = KIndividual)
                                              then "I" else "F") m))).
Proof.
  rewrite add_element_unfold. pose proof max_steps_value as Hmax. revert Hmax.
  generalize max_steps. intros steps Hmax.
  destruct (level e) as [l|] eqn:Hlevel; [done|].
  destruct (bool_decide (cls e = KIndividual)) eqn:Hind;
    destruct (bool_decide (cls e = KFamily)) eqn:Hfam; simpl negb; cbv iota zeta.
  4: { simpl. intros [= <-]. repeat split; try done. left.
       apply bool_decide_eq_false in Hind, Hfam. done. }
  all: destruct (find_free_id steps _ (pointers gf) (next_free_id gf))
         as [next [i|]] eqn:Hfind; [done|].
  all: apply find_free_id_None in Hfind as [-> Hall].
  all: simpl; intros [= <-]; repeat split; try done; right.
  all: rewrite Hmax in *.
  all: apply bool_decide_eq_true in Hind || apply bool_decide_eq_true in Hfam.
  all: repeat split; auto.
Qed.

Lemma add_element_raises_witness :
  level (mkElement KNote None "NOTE" None None []) = None
  ∧ (add_element Document.new (mkElement KNote None "NOTE" None None [])).1
    = Document.new.
Proof.
  destruct (add_element_raises Document.new
              (mkElement KNote None "NOTE" None None []) TypeError)
    as (Hl & _ & _ & [(_ & _ & _ & Hgf)|(Hex & _)]).
  - vm_compute. reflexivity.
  - split; [exact Hl | exact Hgf].
  - discriminate Hex.
Defined.

Lemma add_fresh_record (gf : GedcomFile) (k : klass) (tg : string)
    (v : option string) (e' : Element) :
  k = KIndividual ∨ k = KFamily →
  (add_element gf (mkElement k None tg v None [])).2 = OK e' →
  let gf' := (add_element gf (mkElement k None tg v None [])).1 in
  let prefix := if bool_decide (k = KIndividual) then "I" else "F" in
  ∃ n, next_free_id gf ≤ n < next_free_id gf'
       ∧ pointers gf !! mk_id prefix n = None
       ∧ e' = mkElement k (Some 0) tg v (Some (mk_id prefix n)) []
       ∧ root_elements gf' = root_elements gf ++ [e']
       ∧ pointers gf' = <[mk_id prefix n := e']> (pointers gf).
Proof.
  intros Hk. rewrite add_element_unfold. cbn [level cls].
  assert (negb (bool_decide (k = KIndividual) || bool_decide (k = KFamily)) = false)
    as ->.
  { destruct Hk as [-> | ->]; reflexivity. }
  cbv zeta.
  destruct (find_free_id _ _ _ _) as [next [i|]] eqn:Hfind; [|done].
  apply find_free_id_spec in Hfind as [_ Hfound].
  destruct (Hfound i eq_refl) as (n & Hn & -> & -> & Hfree & _).
  rewrite mk_id_truthy. cbn [fst snd]. intros [= <-].
  exists n. cbn [next_free_id root_elements pointers].
  split; [lia|]. split; [done|]. done.
Qed.

(** X11: creating a record and adding it to a file. [individual()] and
    [family()] never raise and return an element of the class
    registered for INDI or FAM, without level, id or children. When
    [add_element] returns for it, the element has become a root at level
    0 with the id [@I<n>@] or [@F<n>@] for a number [n] from the counter
    on that was not bound before; it is the last of the file's
    [individuals] (or [families]), the other of the two lists is
    unchanged, and looking the id up in the file gives the element. *)
Theorem add_new_record (gf : GedcomFile) (v : option string) :
  (∃ e, Document.individual None v = OK e
        ∧ ∀ e', (add_element gf e).2 = OK e' →
            let gf' := (add_element gf e).1 in
            ∃ n, next_free_id gf ≤ n < next_free_id gf'
                 ∧ pointers gf !! mk_id "I" n = None
                 ∧ e' = mkElement KIndividual (Some 0) "INDI" v (Some (mk_id "I" n)) []
                 ∧ individuals gf' = individuals gf ++ [e']
                 ∧ families gf' = families gf
                 ∧ get_by_id gf' (id e') = OK e')
  ∧ (∃ e, Document.family None v = OK e
          ∧ ∀ e', (add_element gf e).2 = OK e' →
              let gf' := (add_element gf e).1 in
              ∃ n, next_free_id gf ≤ n < next_free_id gf'
                   ∧ pointers gf !! mk_id "F" n = None
                   ∧ e' = mkElement KFamily (Some 0) "FAM" v (Some (mk_id "F" n)) []
                   ∧ families gf' = families gf ++ [e']
                   ∧ individuals gf' = individuals gf
                   ∧ get_by_id gf' (id e') = OK e').
Proof.
  split.
  - exists (mkElement KIndividual None "INDI" v None []). split; [reflexivity|].
    intros e' He'.
    destruct (add_fresh_record gf KIndividual "INDI" v e' (or_introl eq_refl) He')
      as (n & Hn & Hfree & -> & Hroots & Hptrs).
    exists n. split; [done|]. split; [done|]. split; [done|].
    unfold individuals, families, get_by_id, Document.getitem.
    rewrite Hroots, Hptrs, !filter_app. cbn [id]. rewrite lookup_insert_eq.
    split; [done|]. split; [|done].
    rewrite filter_cons_False; [by rewrite filter_nil, app_nil_r | done].
  - exists (mkElement KFamily None "FAM" v None []). split; [reflexivity|].
    intros e' He'.
    destruct (add_fresh_record gf KFamily "FAM" v e' (or_intror eq_refl) He')
      as (n & Hn & Hfree & -> & Hroots & Hptrs).
    exists n. split; [done|]. split; [done|]. split; [done|].
    unfold individuals, families, get_by_id, Document.getitem.
    rewrite Hroots, Hptrs, !filter_app. cbn [id]. rewrite lookup_insert_eq.
    split; [done|]. split; [|done].
    rewrite filter_cons_False; [by rewrite filter_nil, app_nil_r | done].
Qed.

(** ** [Element]: the container protocol *)

Lemma elem_of_iter (e : Element) (key : string) :
  key ∈ iter e ↔ get_list e key ≠ [].
Proof.
  unfold iter, get_list. induction (child_elements e) as [|c l IH]; simpl.
  - split; [by intros ?%elem_of_nil | done].
  - rewrite elem_of_cons, filter_cons, IH.
    destruct (decide (tag c = key)) as [Heq|Hne]; naive_solver.
Qed.

(** X12: the container protocol of an element is coherent. [key in e]
    is true exactly when [key] is among the tags that iterating over [e]
    yields, exactly when [get_list] finds a child, and exactly when
    [e[key]] does not raise; [len(e)] is the number of tags iterated over,
    and bounds the length of every [get_list]. *)
Theorem contains_iff_lookup (e : Element) (key : string) :
  (contains e key = true ↔ key ∈ iter e)
  ∧ (contains e key = true ↔ get_list e key ≠ [])
  ∧ (contains e key = true ↔ ∃ x, Tree.getitem e key = OK x)
  ∧ (contains e key = false ↔ Tree.getitem e key = Raise (IndexError key))
  ∧ length (iter e) = len e
  ∧ (length (get_list e key) ≤ len e)%nat.
Proof.
  pose proof (contains_get_list e key) as Hc.
  split; [by rewrite elem_of_iter|]. split; [done|].
  assert (get_list e key = [] ↔ Tree.getitem e key = Raise (IndexError key)) as Hnil.
  { unfold Tree.getitem, get_list.
    destruct (filter _ _) as [|c0 [|c1 l]]; split; intros H; by simplify_eq. }
  split; [|split; [|split]].
  - rewrite Hc. split.
    + intros Hne. destruct (Tree.getitem e key) as [x|err] eqn:Hget; [eauto|].
      unfold Tree.getitem, get_list in *.
      destruct (filter _ _) as [|c0 [|c1 l]]; by simplify_eq.
    + intros [x Hx] Heq. apply Hnil in Heq. congruence.
  - rewrite <- Hnil, <- not_true_iff_false, Hc. split; [apply dec_stable | tauto].
  - unfold iter, len. apply length_map.
  - unfold get_list, len. apply length_filter.
Qed.

Lemma gedcom_lines_unfold (e : Element) :
  Tree.gedcom_lines e
  = format_line (level e) (id e) (tag e) (value e)
    :: concat (map Tree.gedcom_lines (child_elements e)).
Proof. by destruct e. Qed.

(** X13: [add_child_element] appends. The new child is the last child
    and the others are kept in order: the length grows by one, the tag of
    the child is iterated over last, a lookup by tag finds what it found
    before followed by the child when the tag is the child's, the lookup
    [e[tag]] returns the child itself when no child carried the tag, and
    the lines of the child's subtree, with the levels it has, come last
    in the lines of the element. *)
Theorem add_child_element_lookup (e c : Element) (key : string) :
  let e' := add_child_element e c in
  len e' = S (len e)
  ∧ iter e' = iter e ++ [tag c]
  ∧ get_list e' key
    = get_list e key ++ (if bool_decide (tag c = key) then [c] else [])
  ∧ contains e' (tag c) = true
  ∧ (tag_free (tag c) (child_elements e) → Tree.getitem e' (tag c) = OK (One c))
  ∧ Tree.gedcom_lines e' = Tree.gedcom_lines e ++ Tree.gedcom_lines c.
Proof.
  assert (∀ k, get_list (add_child_element e c) k
               = get_list e k ++ (if bool_decide (tag c = k) then [c] else []))
    as Hlist.
  { intros k. unfold get_list, add_child_element. simpl. rewrite filter_app.
    f_equal. rewrite filter_cons. by case_bool_decide; case_decide. }
  simpl. split; [|split; [|split; [|split; [|split]]]].
  - unfold len, add_child_element. simpl. rewrite length_app. simpl. lia.
  - unfold iter, add_child_element. simpl. by rewrite map_app.
  - apply Hlist.
  - apply contains_get_list. rewrite Hlist, bool_decide_eq_true_2 by done.
    by destruct (get_list e (tag c)).
  - intros Hfree%filter_tag_nil. apply getitem_One.
    rewrite Hlist, bool_decide_eq_true_2 by done. unfold get_list. by rewrite Hfree.
  - rewrite !gedcom_lines_unfold. unfold add_child_element. simpl.
    rewrite map_app, concat_app. simpl. rewrite app_nil_r.
    rewrite (gedcom_lines_unfold c). done.
Qed.

Lemma strip_keeps_head (c : ascii) (s : string) :
  isspace c = false → ∃ r, strip (String c s) = String c r.
Proof.
  intros Hc. unfold strip. cbn [rstrip].
  destruct (rstrip s) as [|c' r] eqn:Hr.
  - rewrite Hc. cbn [lstrip]. rewrite Hc. eauto.
  - cbn [lstrip]. rewrite Hc. eauto.
Qed.

(** X14: an element whose level is unset prints its level as the text
    [None], and the parser rejects that line: parsing the lines that
    [Element.gedcom_lines] yields for such an element raises
    [NotImplementedError] with the first line, stripped. *)
Theorem gedcom_lines_unset_level_rejected (e : Element) :
  level e = None →
  ∃ rest,
    hd_error (Tree.gedcom_lines e) = Some ("None" +:+ rest)
    ∧ Parser.parse (Tree.gedcom_lines e)
      = Raise (NotImplementedError (Some (strip ("None" +:+ rest)))).
Proof.
  intros Hlevel. rewrite gedcom_lines_unfold, Hlevel. unfold format_line.
  cbn [format_level].
  set (rest := (if truthy (id e) then _ else _) +:+ _).
  exists rest. split; [done|].
  unfold Parser.parse. cbn [parse_from].
  destruct (strip_keeps_head "N" ("one" +:+ rest) eq_refl) as [r Hr].
  change ("None" +:+ rest) with (String "N" ("one" +:+ rest)).
  rewrite parse_line_malformed; [done | by rewrite Hr | by rewrite Hr].
Qed.

Lemma gedcom_lines_unset_level_rejected_witness :
  ∃ rest,
    hd_error (Tree.gedcom_lines fresh_individual) = Some ("None" +:+ rest)
    ∧ Parser.parse (Tree.gedcom_lines fresh_individual)
      = Raise (NotImplementedError (Some (strip ("None" +:+ rest)))).
Proof. apply (gedcom_lines_unset_level_rejected fresh_individual). reflexivity. Defined.

(** ** Notes *)

(** X15: [Note.full_text] on any note. Without a value of its own the
    note makes the first statement raise [TypeError]; with a value, the
    text is that value followed, child by child, by a newline and the
    child's value for a CONT and by the child's value alone for a CONC,
    a missing value counting as empty, and a child with any other tag
    makes it raise [ValueError]. *)
Theorem full_text_cases (e : Element) :
  cls e = KNote →
  (value e = None → full_text e = Raise TypeError)
  ∧ (∀ v, value e = Some v →
          full_text e =
            if forallb is_continuation (child_elements e)
            then OK (v +:+ concat_str (map continuation (child_elements e)))
            else Raise ValueError).
Proof.
  intros Hcls. split.
  - intros Hv. unfold full_text. rewrite Hcls, Hv. done.
  - intros v Hv. by apply full_text_with_value.
Qed.

Lemma full_text_cases_witness :
  cls note_hello = KNote
  ∧ full_text note_hello =
      if forallb is_continuation (child_elements note_hello)
      then OK ("Hello" +:+ concat_str (map continuation (child_elements note_hello)))
      else Raise ValueError.
Proof.
  split; [reflexivity|].
  apply (proj2 (full_text_cases note_hello eq_refl) "Hello"). reflexivity.
Defined.

(** X16: [Element.note]. It is [None] when the element has no NOTE
    child, the full text of the child (or the exception that reading it
    raises) when it has exactly one, and an [AttributeError] when it has
    several, the lookup then returning a list. *)
Theorem note_cases (e : Element) :
  (get_list e "NOTE" = [] → note e = OK None)
  ∧ (∀ n, get_list e "NOTE" = [n] → note e = do t <- full_text n; OK (Some t))
  ∧ ((2 ≤ length (get_list e "NOTE"))%nat → note e = Raise AttributeError).
Proof.
  unfold note. pose proof (contains_get_list e "NOTE") as Hc.
  unfold Tree.getitem. unfold get_list in *.
  destruct (filter (λ c, tag c = "NOTE") (child_elements e)) as [|n [|n' l]] eqn:Hf.
  - assert (contains e "NOTE" = false) as ->.
    { apply not_true_iff_false. rewrite Hc. tauto. }
    split; [done|]. split; [done | simpl; lia].
  - assert (contains e "NOTE" = true) as -> by (by apply Hc).
    split; [done|]. split; [by intros ? [= <-] | simpl; lia].
  - assert (contains e "NOTE" = true) as -> by (by apply Hc).
    split; [done|]. split; [done | done].
Qed.

(** ** Names *)

Lemma preferred_loop_first (pre post : list Element) (n : Element) :
  Forall (λ x, contains x "TYPE" = true) pre → contains n "TYPE" = false →
  preferred_loop (pre ++ n :: post) = OK n.
Proof.
  intros Hpre Hn. induction Hpre as [|x pre Hx _ IH]; simpl.
  - by rewrite Hn.
  - by rewrite Hx.
Qed.

Lemma preferred_loop_none (names : list Element) :
  Forall (λ x, contains x "TYPE" = true) names →
  preferred_loop names = Raise UnboundLocalError.
Proof. induction 1 as [|x l Hx _ IH]; simpl; [done | by rewrite Hx]. Qed.

(** X17: which NAME child [Individual.name] reads. Without NAME child
    the lookup raises [IndexError]; an only NAME child is read whatever
    its TYPE; among several, the first one without TYPE child is read,
    and when every one has a TYPE child the variable holding the
    preferred name is never assigned and reading it raises. *)
Theorem name_cases (e : Element) :
  cls e = KIndividual →
  (get_list e "NAME" = [] → name e = Raise (IndexError "NAME"))
  ∧ (∀ n, get_list e "NAME" = [n] → name e = first_last n)
  ∧ ((2 ≤ length (get_list e "NAME"))%nat →
     (∀ pre n post,
        get_list e "NAME" = pre ++ n :: post →
        Forall (λ x, contains x "TYPE" = true) pre → contains n "TYPE" = false →
        name e = first_last n)
     ∧ (Forall (λ x, contains x "TYPE" = true) (get_list e "NAME") →
        name e = Raise UnboundLocalError)).
Proof.
  intros Hcls. unfold name, Tree.getitem, get_list. rewrite Hcls.
  rewrite bool_decide_eq_true_2 by done.
  destruct (filter (λ c, tag c = "NAME") (child_elements e)) as [|n1 [|n2 l]] eqn:Hf.
  - split; [done|]. split; [done | simpl; lia].
  - split; [done|]. split; [by intros ? [= <-] | simpl; lia].
  - split; [done|]. split; [done|]. intros _. split.
    + intros pre n post Heq Hpre Hn. unfold rbind. rewrite Heq.
      by rewrite (preferred_loop_first pre post n Hpre Hn).
    + intros Hall. unfold rbind. by rewrite (preferred_loop_none _ Hall).
Qed.

Lemma name_cases_witness :
  cls john_aka_johnny = KIndividual
  ∧ name john_aka_johnny = OK (Some "John", Some "Smith").
Proof.
  split; [reflexivity|].
  destruct (name_cases john_aka_johnny eq_refl) as (_ & _ & Hmany).
  destruct Hmany as [Hfirst _]; [vm_compute; lia|].
  rewrite (Hfirst [] name_john [name_aka]); [reflexivity | reflexivity | constructor | reflexivity].
Defined.

Lemma split_sep_none (sep : ascii) (s : string) :
  all_chars (λ c, negb (Ascii.eqb c sep)) s = true → split sep s = [s].
Proof.
  induction s as [|c s IH]; [done|]. cbn [all_chars split].
  intros [Hc Hs]%andb_true_iff. apply negb_true_iff in Hc. by rewrite Hc, IH.
Qed.

Lemma split_sep_app (sep : ascii) (a b : string) :
  all_chars (λ c, negb (Ascii.eqb c sep)) a = true →
  split sep (a +:+ String sep b) = a :: split sep b.
Proof.
  induction a as [|c a IH].
  - intros _. rewrite str_app_nil_l. cbn [split]. by rewrite Ascii.eqb_refl.
  - cbn [all_chars]. intros [Hc Ha]%andb_true_iff. rewrite str_app_cons.
    cbn [split]. apply negb_true_iff in Hc. by rewrite Hc, IH.
Qed.

(** X18: how a NAME value is taken apart. A value that is not empty is
    split at its slashes: when it is a given part, a slash, a surname, a
    slash and a rest, none of them containing a slash, the name is the
    given part and the surname, each stripped of the white space around
    it, and the rest is ignored; a value that does not split in exactly
    three parts raises [ValueError]. *)
Theorem first_last_value (n : Element) (v : string) :
  value n = Some v → v ≠ "" →
  (∀ given surname rest,
     v = given +:+ "/" +:+ surname +:+ "/" +:+ rest →
     all_chars (λ c, negb (Ascii.eqb c "/")) given = true →
     all_chars (λ c, negb (Ascii.eqb c "/")) surname = true →
     all_chars (λ c, negb (Ascii.eqb c "/")) rest = true →
     first_last n = OK (Some (strip given), Some (strip surname)))
  ∧ (length (split "/" v) ≠ 3%nat → first_last n = Raise ValueError).
Proof.
  intros Hv Hne. unfold first_last. rewrite Hv.
  destruct v as [|c v]; [done|]. split.
  - intros given surname rest Heq Hg Hs Hr. rewrite Heq.
    change (given +:+ "/" +:+ surname +:+ "/" +:+ rest)
      with (given +:+ String "/" ("" +:+ surname +:+ String "/" ("" +:+ rest))).
    rewrite !str_app_nil_l.
    rewrite (split_sep_app "/" given _ Hg), (split_sep_app "/" surname _ Hs).
    by rewrite (split_sep_none "/" rest Hr).
  - intros Hlen. destruct (split "/" (String c v)) as [|a [|b [|d [|x l]]]]; try done.
Qed.

Lemma first_last_value_witness :
  value name_john = Some "John /Smith/"
  ∧ first_last name_john = OK (Some "John", Some "Smith").
Proof.
  split; [reflexivity|].
  apply (proj1 (first_last_value name_john "John /Smith/" eq_refl ltac:(discriminate))
           "John " "Smith" ""); reflexivity.
Defined.

(** ** [Individual.set_sex] *)

Lemma upper_codes_length (c : ascii) : (1 ≤ length (upper_codes c))%nat.
Proof. unfold upper_codes. repeat case_match; simpl; lia. Qed.

Lemma upper_single (s : string) (n : N) :
  upper s = [n] → ∃ c, s = String c "" ∧ upper_codes c = [n].
Proof.
  destruct s as [|c [|c' s]]; [done| |].
  - simpl. rewrite app_nil_r. eauto.
  - intros H. apply (f_equal length) in H. cbn [upper] in H.
    rewrite !length_app in H. simpl in H.
    pose proof (upper_codes_length c). pose proof (upper_codes_length c'). lia.
Qed.

Lemma upper_codes_M (c : ascii) :
  upper_codes c = [77%N] → c = "M"%char ∨ c = "m"%char.
Proof.
  destruct c as [[|] [|] [|] [|] [|] [|] [|] [|]]; vm_compute; intros H;
    first [discriminate H | by left | by right].
Qed.

Lemma upper_codes_F (c : ascii) :
  upper_codes c = [70%N] → c = "F"%char ∨ c = "f"%char.
Proof.
  destruct c as [[|] [|] [|] [|] [|] [|] [|] [|]]; vm_compute; intros H;
    first [discriminate H | by left | by right].
Qed.

Lemma upper_letter (s u : string) :
  u = "M" ∨ u = "F" → upper s = codes u ↔ s = u ∨ s = lower u.
Proof.
  intros [-> | ->]; split.
  - intros (c & -> & [-> | ->]%upper_codes_M)%upper_single; auto.
  - by intros [-> | ->].
  - intros (c & -> & [-> | ->]%upper_codes_F)%upper_single; auto.
  - by intros [-> | ->].
Qed.

Lemma set_first_value_at (key : string) (v : option string)
    (pre post : list Element) (n : Element) :
  tag_free key pre → tag n = key →
  set_first_value key v (pre ++ n :: post) = pre ++ with_value v n :: post.
Proof.
  intros Hpre Hn. induction Hpre as [|x pre Hx _ IH]; simpl.
  - apply String.eqb_eq in Hn. by rewrite Hn.
  - apply String.eqb_neq in Hx. by rewrite Hx, IH.
Qed.

(** [set_sex] once the class and the argument have been checked. *)
Lemma set_sex_letter (gf : option GedcomFile) (e : Element) (s u : string) :
  cls e = KIndividual → u = "M" ∨ u = "F" → upper s = codes u →
  set_sex gf e s =
    match Tree.getitem e "SEX" with
    | OK (One _) =>
        OK (with_children (set_first_value "SEX" (Some u) (child_elements e)) e)
    | OK (Many _) => Raise AttributeError
    | Raise (IndexError _) =>
        match gf with
        | Some _ =>
            OK (add_child_element e (mkElement KElement None "SEX" (Some u) None []))
        | None => Raise AttributeError
        end
    | Raise err => Raise err
    end.
Proof.
  intros Hcls Hu Hup. unfold set_sex. rewrite Hcls, Hup.
  rewrite bool_decide_eq_true_2 by done. cbv zeta.
  destruct Hu as [-> | ->]; reflexivity.
Qed.

Lemma set_sex_at (gf : option GedcomFile) (e : Element) (s u : string)
    (pre post : list Element) (n : Element) :
  cls e = KIndividual → u = "M" ∨ u = "F" → upper s = codes u →
  child_elements e = pre ++ n :: post → tag n = "SEX" →
  tag_free "SEX" pre → tag_free "SEX" post →
  set_sex gf e s = OK (with_children (pre ++ with_value (Some u) n :: post) e).
Proof.
  intros Hcls Hu Hup Hch Hn Hpre Hpost. rewrite (set_sex_letter gf e s u) by done.
  assert (Tree.getitem e "SEX" = OK (One n)) as ->.
  { apply getitem_One, filter_tag_singleton. eauto 10. }
  by rewrite Hch, set_first_value_at.
Qed.

Lemma set_sex_new (gf : option GedcomFile) (e : Element) (s u : string) :
  cls e = KIndividual → u = "M" ∨ u = "F" → upper s = codes u →
  tag_free "SEX" (child_elements e) →
  set_sex gf e s =
    match gf with
    | Some _ => OK (add_child_element e (mkElement KElement None "SEX" (Some u) None []))
    | None => Raise AttributeError
    end.
Proof.
  intros Hcls Hu Hup Hfree. rewrite (set_sex_letter gf e s u) by done.
  apply filter_tag_nil in Hfree. by rewrite (getitem_nil e "SEX" Hfree).
Qed.

Lemma set_sex_OK (gf : option GedcomFile) (e e' : Element) (s : string) :
  set_sex gf e s = OK e' →
  cls e = KIndividual
  ∧ ∃ u, (u = "M" ∨ u = "F") ∧ upper s = codes u
         ∧ ((∃ pre n post,
               child_elements e = pre ++ n :: post ∧ tag n = "SEX"
               ∧ tag_free "SEX" pre ∧ tag_free "SEX" post
               ∧ e' = with_children (pre ++ with_value (Some u) n :: post) e)
            ∨ (tag_free "SEX" (child_elements e) ∧ is_Some gf
               ∧ e' = add_child_element e
                        (mkElement KElement None "SEX" (Some u) None []))).
Proof.
  intros Hset.
  assert (cls e = KIndividual) as Hcls.
  { unfold set_sex in Hset. by case_bool_decide. }
  split; [done|].
  assert (∃ u, (u = "M" ∨ u = "F") ∧ upper s = codes u) as (u & Hu & Hup).
  { unfold set_sex in Hset. rewrite bool_decide_eq_true_2 in Hset by done.
    cbv zeta in Hset. destruct (bool_decide (upper s = codes "M")) eqn:HM.
    - apply bool_decide_eq_true in HM. eauto.
    - destruct (bool_decide (upper s = codes "F")) eqn:HF; [|done].
      apply bool_decide_eq_true in HF. eauto. }
  exists u. split; [done|]. split; [done|].
  rewrite (set_sex_letter gf e s u) in Hset by done.
  destruct (Tree.getitem e "SEX") as [[n|l]|err] eqn:Hget; [|done|].
  - left. apply getitem_One, filter_tag_singleton in Hget
      as (pre & post & Hch & Hn & Hpre & Hpost).
    rewrite Hch, set_first_value_at in Hset by done. injection Hset as <-.
    exists pre, n, post. done.
  - right. assert (tag_free "SEX" (child_elements e)) as Hfree.
    { apply filter_tag_nil. unfold Tree.getitem in Hget.
      by destruct (filter _ _) as [|c0 [|c1 l]]. }
    destruct err; try done. destruct gf; [|done]. injection Hset as <-. eauto.
Qed.

(** X19: [set_sex] case by case, on an Individual. The argument is
    accepted exactly when it is one of M, m, F and f; any other one
    raises [TypeError] before the element is looked at. For an accepted
    argument, with [u] its capital: the only SEX child gets the value [u]
    and everything else stays; without SEX child, a new child SEX with
    value [u], of the class registered for SEX and without level, is
    appended, unless the element has no file, which is an
    [AttributeError]; with several SEX children the assignment hits the
    list that the lookup returns, which is an [AttributeError]. *)
Theorem set_sex_cases (gf : option GedcomFile) (e : Element) (s : string) :
  cls e = KIndividual →
  (∀ u, u = "M" ∨ u = "F" → upper s = codes u ↔ s = u ∨ s = lower u)
  ∧ ((¬ ∃ u, (u = "M" ∨ u = "F") ∧ upper s = codes u) →
     set_sex gf e s = Raise TypeError)
  ∧ (∀ u, u = "M" ∨ u = "F" → upper s = codes u →
       (∀ pre n post,
          child_elements e = pre ++ n :: post → tag n = "SEX" →
          tag_free "SEX" pre → tag_free "SEX" post →
          set_sex gf e s
          = OK (with_children (pre ++ with_value (Some u) n :: post) e))
       ∧ (tag_free "SEX" (child_elements e) →
          set_sex gf e s =
            match gf with
            | Some _ =>
                OK (add_child_element e
                      (mkElement KElement None "SEX" (Some u) None []))
            | None => Raise AttributeError
            end)
       ∧ ((2 ≤ length (get_list e "SEX"))%nat →
          set_sex gf e s = Raise AttributeError)).
Proof.
  intros Hcls. split; [intros u Hu; by apply upper_letter|]. split.
  - intros Hno. unfold set_sex. rewrite Hcls, bool_decide_eq_true_2 by done.
    cbv zeta. rewrite !bool_decide_eq_false_2; [done | |].
    + intros H. apply Hno. exists "F". auto.
    + intros H. apply Hno. exists "M". auto.
  - intros u Hu Hup. split; [|split].
    + intros pre n post. by apply set_sex_at.
    + by apply set_sex_new.
    + intros Hlen. rewrite (set_sex_letter gf e s u) by done.
      unfold Tree.getitem, get_list in *.
      destruct (filter _ _) as [|c0 [|c1 l]]; simpl in Hlen; [lia | lia | done].
Qed.

Lemma set_sex_cases_witness :
  cls wife = KIndividual
  ∧ set_sex (Some family_file) wife "f"
    = OK (add_child_element wife (mkElement KElement None "SEX" (Some "F") None [])).
Proof.
  split; [reflexivity|].
  destruct (set_sex_cases (Some family_file) wife "f" eq_refl) as (_ & _ & H).
  destruct (H "F" (or_intror eq_refl) eq_refl) as (_ & Hnew & _).
  apply Hnew. constructor.
Defined.

(** X20: writing the sex, then reading it. When [set_sex] returns, its
    argument was one of M, m, F and f, and on the element it leaves, [sex]
    returns the capital of the argument, [is_male] and [is_female] answer
    accordingly, every lookup by a tag other than SEX finds what it found
    before, and setting the same sex again changes nothing. *)
Theorem set_sex_then_sex (gf : option GedcomFile) (e e' : Element) (s : string) :
  set_sex gf e s = OK e' →
  ∃ u, (u = "M" ∨ u = "F") ∧ (s = u ∨ s = lower u)
       ∧ sex e' = OK (Some u)
       ∧ is_male e' = OK (bool_decide (u = "M"))
       ∧ is_female e' = OK (bool_decide (u = "F"))
       ∧ (∀ key, key ≠ "SEX" → get_list e' key = get_list e key)
       ∧ set_sex gf e' s = OK e'.
Proof.
  intros (Hcls & u & Hu & Hup & Hshape)%set_sex_OK.
  exists u. split; [done|]. split; [by apply upper_letter|].
  assert (cls e' = KIndividual) as Hcls'.
  { destruct Hshape as [(pre & n & post & _ & _ & _ & _ & ->)|(_ & _ & ->)]; done. }
  assert (∃ pre n post,
            child_elements e' = pre ++ n :: post ∧ tag n = "SEX"
            ∧ value n = Some u ∧ tag_free "SEX" pre ∧ tag_free "SEX" post)
    as (pre' & n' & post' & Hch' & Hn' & Hv' & Hpre' & Hpost').
  { destruct Hshape as [(pre & n & post & Hch & Hn & Hpre & Hpost & ->)
                       |(Hfree & _ & ->)].
    - exists pre, (with_value (Some u) n), post. done.
    - exists (child_elements e), (mkElement KElement None "SEX" (Some u) None []), [].
      repeat split; [done | constructor]. }
  assert (sex e' = OK (Some u)) as Hsex.
  { unfold sex. rewrite Hcls', bool_decide_eq_true_2 by done.
    assert (Tree.getitem e' "SEX" = OK (One n')) as ->.
    { apply getitem_One, filter_tag_singleton. eauto 10. }
    simpl. by rewrite Hv'. }
  split; [done|]. split; [|split; [|split]].
  - unfold is_male. rewrite Hsex. by destruct Hu as [-> | ->].
  - unfold is_female. rewrite Hsex. by destruct Hu as [-> | ->].
  - intros key Hkey. unfold get_list.
    destruct Hshape as [(pre & n & post & Hch & Hn & _ & _ & ->)|(_ & _ & ->)].
    + rewrite Hch. simpl. rewrite !filter_app, !filter_cons. simpl.
      rewrite !decide_False; [done | by rewrite Hn | by rewrite Hn].
    + simpl. rewrite filter_app, filter_cons. simpl.
      rewrite decide_False by done. by rewrite filter_nil, app_nil_r.
  - rewrite (set_sex_at gf e' s u pre' post' n') by done.
    f_equal. destruct e' as [k lv t v i cs]. simpl in *. rewrite Hch'.
    unfold with_children. simpl. do 3 f_equal.
    destruct n' as [k' lv' t' v'' i' cs']. simpl in *. by rewrite Hv'.
Qed.

Lemma set_sex_then_sex_witness :
  ∃ u, (u = "M" ∨ u = "F") ∧ ("m" = u ∨ "m" = lower u)
       ∧ sex husband = OK (Some u)
       ∧ is_male husband = OK (bool_decide (u = "M"))
       ∧ is_female husband = OK (bool_decide (u = "F"))
       ∧ (∀ key, key ≠ "SEX" → get_list husband key = get_list husband key)
       ∧ set_sex None husband "m" = OK husband.
Proof. apply (set_sex_then_sex None husband husband "m"). reflexivity. Defined.

(** ** Parents *)

Lemma rfilter_total {A} (p : A → result bool) (l : list A) :
  Forall (λ x, is_OK (p x) = true) l →
  rfilter p l = OK (filter (λ x, holds (p x)) l).
Proof.
  induction 1 as [|x l Hx _ IH]; simpl; [done|].
  rewrite IH, filter_cons. destruct (p x) as [[|]|]; simpl in *; done.
Qed.

Lemma is_male_not_female (p : Element) :
  holds (is_male p) = true → holds (is_female p) = false.
Proof.
  unfold is_male, is_female. destruct (sex p) as [[s|]|]; simpl; [|done..].
  destruct (String.eqb_spec (lower s) "m") as [->|]; [|done]. done.
Qed.

(** X21: [father] and [mother] when the sex of every parent can be read.
    With [ps] the parents, [father] looks at the parents whose sex is m
    or M, in the order of [ps]: none gives [None], one gives that parent,
    more raise [NotImplementedError]; [mother] does the same with f or F;
    and no parent is returned both as the father and as the mother. *)
Theorem father_mother_cases (files : Linked.store) (e : Linked.Element)
    (ps : list Linked.Element) :
  Linked.parents files e = OK ps →
  Forall (λ q, is_OK (is_male (Linked.erase q)) = true) ps →
  Linked.father files e = pick (filter (λ q, holds (is_male (Linked.erase q))) ps)
  ∧ Linked.mother files e
    = pick (filter (λ q, holds (is_female (Linked.erase q))) ps)
  ∧ (∀ p q, Linked.father files e = OK (Some p) →
            Linked.mother files e = OK (Some q) → p ≠ q).
Proof.
  intros Hps Hall.
  assert (Forall (λ q, is_OK (is_female (Linked.erase q)) = true) ps) as Hall'.
  { eapply Forall_impl; [exact Hall|]. intros q. unfold is_male, is_female.
    destruct (sex (Linked.erase q)) as [[s|]|]; done. }
  assert (Linked.father files e
          = pick (filter (λ q, holds (is_male (Linked.erase q))) ps)) as Hf.
  { unfold Linked.father. rewrite Hps. simpl.
    by rewrite (rfilter_total (λ p, is_male (Linked.erase p)) _ Hall). }
  assert (Linked.mother files e
          = pick (filter (λ q, holds (is_female (Linked.erase q))) ps)) as Hm.
  { unfold Linked.mother. rewrite Hps. simpl.
    by rewrite (rfilter_total (λ p, is_female (Linked.erase p)) _ Hall'). }
  split; [done|]. split; [done|].
  intros p q Hp Hq ->. rewrite Hf in Hp. rewrite Hm in Hq.
  assert (holds (is_male (Linked.erase q)) = true) as Hmale.
  { destruct (filter (λ q, holds (is_male (Linked.erase q))) ps)
      as [|p0 [|p1 l]] eqn:Hsel; simpl in Hp; [done| |done].
    injection Hp as ->.
    assert (q ∈ filter (λ q, holds (is_male (Linked.erase q))) ps) as Hin
      by (rewrite Hsel; apply list_elem_of_here).
    apply list_elem_of_filter in Hin as [Hin _]. by apply Is_true_true. }
  assert (holds (is_female (Linked.erase q)) = true) as Hfemale.
  { destruct (filter (λ q, holds (is_female (Linked.erase q))) ps)
      as [|p0 [|p1 l]] eqn:Hsel; simpl in Hq; [done| |done].
    injection Hq as ->.
    assert (q ∈ filter (λ q, holds (is_female (Linked.erase q))) ps) as Hin
      by (rewrite Hsel; apply list_elem_of_here).
    apply list_elem_of_filter in Hin as [Hin _]. by apply Is_true_true. }
  apply is_male_not_female in Hmale. congruence.
Qed.

Lemma father_mother_cases_witness :
  Linked.father husband_only_store child_in_file
  = OK (Some (Linked.link (Some 0%nat) husband)).
Proof.
  apply (father_mother_cases husband_only_store child_in_file
           [Linked.link (Some 0%nat) husband]).
  - vm_compute. reflexivity.
  - repeat constructor.
Defined.

(** ** The tag registry and the constructor *)

(** X22: the registry and the constructor agree. The class registered
    for a tag has that tag as its default tag, and a class with a default
    tag is the one registered for it; a tag that is not registered gets
    the plain [Element]. So [GedcomFile.element] never raises: it returns
    an element of the registered class with the given tag, level and
    value, without id or children. The constructor of a class with a
    default tag raises [ValueError] for any other tag and fills the
    default tag in when no tag is given, while a class without default
    tag needs a tag. *)
Theorem registry_consistent :
  (∀ k d, default_tag k = Some d ↔ tags_to_classes !! d = Some k)
  ∧ (∀ tg, tags_to_classes !! tg = None → class_for_tag tg = KElement)
  ∧ (∀ tg lv v,
       element tg lv v = OK (mkElement (class_for_tag tg) lv tg v None []))
  ∧ (∀ k d t lv v i,
       default_tag k = Some d →
       Tree.init k lv (Some t) v i
       = if bool_decide (t = d) then OK (mkElement k lv t v i []) else Raise ValueError)
  ∧ (∀ k lv v i,
       Tree.init k lv None v i
       = match default_tag k with
         | Some d => OK (mkElement k lv d v i [])
         | None => Raise AttributeError
         end)
  ∧ (∀ k t lv v i,
       default_tag k = None → Tree.init k lv (Some t) v i = OK (mkElement k lv t v i [])).
Proof.
  assert (∀ k d, default_tag k = Some d ↔ tags_to_classes !! d = Some k) as Hreg.
  { intros k d. unfold tags_to_classes, register_tag. split.
    - destruct k; simpl; intros [= <-]; reflexivity.
    - repeat (rewrite lookup_insert; case_decide;
              [subst d; by intros [= <-]|]).
      by rewrite lookup_empty. }
  split; [exact Hreg|]. split; [|split; [|split; [|split]]].
  - intros tg Hnone. unfold class_for_tag. by rewrite Hnone.
  - intros tg lv v. unfold element, Tree.init.
    destruct (default_tag (class_for_tag tg)) as [d|] eqn:Hd; [|done].
    apply class_for_tag_default in Hd as ->. by rewrite String.eqb_refl.
  - intros k d t lv v i Hd. unfold Tree.init. rewrite Hd.
    destruct (String.eqb_spec t d) as [->|Hne].
    + by rewrite bool_decide_eq_true_2.
    + by rewrite bool_decide_eq_false_2.
  - intros k lv v i. unfold Tree.init. by destruct (default_tag k).
  - intros k t lv v i Hd. unfold Tree.init. by rewrite Hd.
Qed.

(** ** Accessors by tag *)

Lemma getitem_find_tag (e : Element) (key : string) :
  Tree.getitem e key =
    match find_tag e key with
    | Missing => Raise (IndexError key)
    | Unique c => OK (One c)
    | Several l => OK (Many l)
    end.
Proof.
  unfold Tree.getitem, find_tag, get_list. by destruct (filter _ _) as [|c [|c' l]].
Qed.

(** X23: the accessors of an Individual that read one child by its tag.
    When the child is missing, [sex], [gender], [birth] and [death] raise
    the [IndexError] of the lookup, and [title] returns [None]; with
    exactly one such child, [sex], [gender] and [title] return its value
    and [birth] and [death] the child; with several, [birth] and [death]
    return the list of them, [sex] and [gender] raise [AttributeError],
    and [title] returns [None]. In particular [title] never raises, and
    [gender] is [sex]. *)
Theorem individual_accessors_cases (e : Element) :
  cls e = KIndividual →
  gender e = sex e
  ∧ sex e = match find_tag e "SEX" with
            | Missing => Raise (IndexError "SEX")
            | Unique c => OK (value c)
            | Several _ => Raise AttributeError
            end
  ∧ title e = match find_tag e "TITL" with
              | Unique c => OK (value c)
              | _ => OK None
              end
  ∧ birth e = match find_tag e "BIRT" with
              | Missing => Raise (IndexError "BIRT")
              | Unique c => OK (One c)
              | Several l => OK (Many l)
              end
  ∧ death e = match find_tag e "DEAT" with
              | Missing => Raise (IndexError "DEAT")
              | Unique c => OK (One c)
              | Several l => OK (Many l)
              end.
Proof.
  intros Hcls. unfold gender, sex, title, birth, death.
  rewrite Hcls, bool_decide_eq_true_2 by done.
  rewrite !getitem_find_tag. split; [done|].
  split; [by destruct (find_tag e "SEX")|].
  split; [by destruct (find_tag e "TITL")|]. done.
Qed.

Lemma individual_accessors_cases_witness :
  cls husband = KIndividual ∧ title husband = OK None ∧ sex husband = OK (Some "M").
Proof.
  split; [reflexivity|].
  destruct (individual_accessors_cases husband eq_refl) as (_ & Hsex & Htitle & _).
  split; [exact Htitle | exact Hsex].
Defined.

(** X24: the accessors of an event. On a Birth, Death or Marriage, [date]
    and [place] return the value of the only DATE or PLAC child; when
    there is none they raise the [IndexError] of the lookup, and when
    there are several, reading the value of the list is an
    [AttributeError]. *)
Theorem event_accessors_cases (e : Element) :
  is_event (cls e) = true →
  date e = match find_tag e "DATE" with
           | Missing => Raise (IndexError "DATE")
           | Unique c => OK (value c)
           | Several _ => Raise AttributeError
           end
  ∧ place e = match find_tag e "PLAC" with
              | Missing => Raise (IndexError "PLAC")
              | Unique c => OK (value c)
              | Several _ => Raise AttributeError
              end.
Proof.
  intros Hcls. unfold date, place. rewrite Hcls, !getitem_find_tag.
  split; [by destruct (find_tag e "DATE") | by destruct (find_tag e "PLAC")].
Qed.

Lemma event_accessors_cases_witness :
  is_event KBirth = true
  ∧ date (mkElement KBirth (Some 1) "BIRT" None None
            [mkElement KElement (Some 2) "DATE" (Some "1 JAN 1900") None []])
    = OK (Some "1 JAN 1900")
  ∧ place (mkElement KBirth (Some 1) "BIRT" None None
             [mkElement KElement (Some 2) "DATE" (Some "1 JAN 1900") None []])
    = Raise (IndexError "PLAC").
Proof.
  split; [reflexivity|].
  exact (event_accessors_cases
           (mkElement KBirth (Some 1) "BIRT" None None
              [mkElement KElement (Some 2) "DATE" (Some "1 JAN 1900") None []])
           eq_refl).
Defined.
